(** * Forward and backward pass of a sigmoid network (notebook 8.4)

    A shallow embedding of [Z], [A], [forward], [mse_loss] and
    [forward_backward] of [python/ch8/8.4-forward-and-backward-pass.ipynb].

    - Tensors are the two-dimensional tensors the notebook works with (a
      column vector is an [n x 1] tensor): a shape and an element function.
      The tensor operations the notebook calls ([torch.matmul], [+], [-],
      [*], [.T], [torch.sigmoid], [torch.pow]) are modelled with the shape
      rules of the library: a matrix product needs equal inner dimensions,
      an elementwise operation broadcasts dimensions of size one.
    - The element type is abstract ([Scalar]): every statement about shapes,
      indices, errors and the order of operations holds for any element type.
      Statements about values are made for real numbers, [RealNet], the
      arithmetic of the formulas, and for single-precision floats,
      [Float32], the arithmetic of the tensors: rounding, infinities and NaN
      make the two differ.
    - Python lists are Rocq lists read and written through [py_get] and
      [py_set], which implement Python's indexing, negative indices included.
      Where it matters that a list is an object that a call could share with
      another, [forward_backward] is also given on a store of list objects,
      [forward_backward_store], and shown to compute what the function on
      list values computes.
    - Exceptions are the [Raise] results of an error monad; [print] appends to
      a standard output that is threaded through [forward_backward]. *)

From Stdlib Require Import String List ZArith Lia Bool Reals Lra SpecFloat.
Import ListNotations.

Set Implicit Arguments.

(** ** Exceptions *)

Inductive error : Type :=
| ShapeMismatch   (* the library's RuntimeError on operands that do not fit *)
| IndexError      (* list index out of range *)
| TypeError       (* None passed where a tensor is expected *)
| AttributeError. (* attribute of None *)

Inductive result (T : Type) : Type :=
| Ok (v : T)
| Raise (e : error).

Arguments Ok {T} v.
Arguments Raise {T} e.

Definition bind {T U : Type} (m : result T) (f : T -> result U) : result U :=
  match m with
  | Ok v => f v
  | Raise e => Raise e
  end.

Declare Scope result_scope.
Delimit Scope result_scope with result.
Notation "x <- m ;; k" := (bind m (fun x => k))
  (at level 61, m at next level, right associativity) : result_scope.
Open Scope result_scope.

(** A [for] loop over the list of its indices, with the loop-carried
    variables as state; an exception in the body ends the loop. *)
Fixpoint for_each {I St : Type} (idx : list I) (body : I -> St -> result St)
  (st : St) : result St :=
  match idx with
  | [] => Ok st
  | i :: idx' => st' <- body i st ;; for_each idx' body st'
  end.

(** ** Python ranges and lists *)

(** [range(lo, hi)] *)
Definition py_range (lo hi : Z) : list Z :=
  map (fun k => (lo + Z.of_nat k)%Z) (seq 0 (Z.to_nat (hi - lo))).

(** [range(start, stop, -1)] *)
Definition py_range_down (start stop : Z) : list Z :=
  map (fun k => (start - Z.of_nat k)%Z) (seq 0 (Z.to_nat (start - stop))).

(** The position a Python index denotes: [i] itself when [0 <= i < len],
    [len + i] when [-len <= i < 0], IndexError otherwise. *)
Definition py_index {T : Type} (xs : list T) (i : Z) : result nat :=
  let n := Z.of_nat (length xs) in
  if ((0 <=? i) && (i <? n))%Z then Ok (Z.to_nat i)
  else if ((i <? 0) && (0 <=? n + i))%Z then Ok (Z.to_nat (n + i))
  else Raise IndexError.

(** [xs[i]] *)
Definition py_get {T : Type} (xs : list T) (i : Z) : result T :=
  k <- py_index xs i ;;
  match nth_error xs k with
  | Some v => Ok v
  | None => Raise IndexError
  end.

Fixpoint list_set {T : Type} (xs : list T) (k : nat) (v : T) : list T :=
  match xs, k with
  | [], _ => []
  | _ :: xs', O => v :: xs'
  | x :: xs', S k' => x :: list_set xs' k' v
  end.

(** [xs[i] = v] *)
Definition py_set {T : Type} (xs : list T) (i : Z) (v : T) : result (list T) :=
  k <- py_index xs i ;; Ok (list_set xs k v).

(** ** Scalars and tensors *)

Class Scalar : Type := {
  scalar : Type;
  szero : scalar;
  sone : scalar;
  shalf : scalar;                       (* the constant [1./2] *)
  sadd : scalar -> scalar -> scalar;
  ssub : scalar -> scalar -> scalar;
  smul : scalar -> scalar -> scalar;
  ssigmoid : scalar -> scalar           (* [torch.sigmoid] on one element *)
}.

Section Tensors.

Context {K : Scalar}.

Record tensor : Type := mkTensor {
  rows : nat;
  cols : nat;
  elem : nat -> nat -> scalar
}.

Definition shape (t : tensor) : nat * nat := (rows t, cols t).

(** [list(t.shape)] *)
Definition shape_list (t : tensor) : list nat := [rows t; cols t].

Definition tmap (f : scalar -> scalar) (t : tensor) : tensor :=
  mkTensor (rows t) (cols t) (fun i j => f (elem t i j)).

(** The size two dimensions broadcast to. *)
Definition broadcast_dim (m n : nat) : result nat :=
  if m =? n then Ok m
  else if m =? 1 then Ok n
  else if n =? 1 then Ok m
  else Raise ShapeMismatch.

(** A dimension of size one is read at index 0 whatever the index. *)
Definition bidx (dim i : nat) : nat := if dim =? 1 then 0 else i.

Definition tmap2 (f : scalar -> scalar -> scalar) (t u : tensor) : result tensor :=
  r <- broadcast_dim (rows t) (rows u) ;;
  c <- broadcast_dim (cols t) (cols u) ;;
  Ok (mkTensor r c (fun i j =>
        f (elem t (bidx (rows t) i) (bidx (cols t) j))
          (elem u (bidx (rows u) i) (bidx (cols u) j)))).

(** [t + u], [t - u], [t * u] *)
Definition tadd : tensor -> tensor -> result tensor := tmap2 sadd.
Definition tsub : tensor -> tensor -> result tensor := tmap2 ssub.
Definition tmul : tensor -> tensor -> result tensor := tmap2 smul.

(** [1 - t] *)
Definition one_minus (t : tensor) : tensor := tmap (fun v => ssub sone v) t.

(** [1./2 * t] *)
Definition half_times (t : tensor) : tensor := tmap (fun v => smul shalf v) t.

Fixpoint spow (v : scalar) (n : nat) : scalar :=
  match n with
  | O => sone
  | S n' => smul v (spow v n')
  end.

(** [torch.pow(t, n)] *)
Definition tpow (t : tensor) (n : nat) : tensor := tmap (fun v => spow v n) t.

(** [torch.sigmoid(t)] *)
Definition sigmoid (t : tensor) : tensor := tmap ssigmoid t.

(** [t.T] *)
Definition transpose (t : tensor) : tensor :=
  mkTensor (cols t) (rows t) (fun i j => elem t j i).

Definition dot (n : nat) (f g : nat -> scalar) : scalar :=
  fold_left (fun acc k => sadd acc (smul (f k) (g k))) (seq 0 n) szero.

(** [torch.matmul(t, u)] *)
Definition matmul (t u : tensor) : result tensor :=
  if cols t =? rows u
  then Ok (mkTensor (rows t) (cols u)
             (fun i j => dot (cols t) (fun k => elem t i k) (fun k => elem u k j)))
  else Raise ShapeMismatch.

(** ** The notebook's functions *)

(** [Z(x, W_l, b_l)]: [torch.matmul(W_l, x) + b_l]. *)
Definition Z_ (x W_l b_l : tensor) : result tensor :=
  m <- matmul W_l x ;; tadd m b_l.

(** [A(z_l)] *)
Definition A (z_l : tensor) : tensor := sigmoid z_l.

Definition forward_body (W b : list tensor) (l : Z) (a_l : tensor) : result tensor :=
  W_l <- py_get W l ;;
  b_l <- py_get b l ;;
  z_l <- Z_ a_l W_l b_l ;;
  Ok (A z_l).

Definition forward (x : tensor) (W b : list tensor) : result tensor :=
  let L := (Z.of_nat (length W) - 1)%Z in
  for_each (py_range 0 (L + 1)) (forward_body W b) x.

(** [mse_loss(a_L, y)]: [1./2 * torch.pow((a_L - y), 2)]. *)
Definition mse_loss (a_L y : tensor) : result tensor :=
  d <- tsub a_L y ;; Ok (half_times (tpow d 2)).

(** ** Standard output *)

Inductive out_event : Type :=
| PrintTensor (label : string) (t : tensor)
    (* [print(label, t)] *)
| PrintLayer (l : Z) (W_shape W_grad_shape b_shape b_grad_shape delta_shape : list nat).
    (* the formatted line of shapes of layer [l] *)

(** A computation that may print and may raise: it receives what has been
    printed so far and returns what has been printed after it. *)
Definition IO (T : Type) : Type := list out_event -> list out_event * result T.

Definition io_ret {T : Type} (v : T) : IO T := fun out => (out, Ok v).

Definition io_bind {T U : Type} (m : IO T) (f : T -> IO U) : IO U :=
  fun out =>
    match m out with
    | (out', Ok v) => f v out'
    | (out', Raise e) => (out', Raise e)
    end.

Definition lift {T : Type} (m : result T) : IO T := fun out => (out, m).
Arguments lift {T} m%_result.

Definition print (e : out_event) : IO unit := fun out => (out ++ [e], Ok tt).

Declare Scope io_scope.
Delimit Scope io_scope with io.
Notation "x <- m ;; k" := (io_bind m (fun x => k))
  (at level 61, m at next level, right associativity) : io_scope.

Fixpoint io_for_each {I : Type} (idx : list I) (body : I -> IO unit) : IO unit :=
  match idx with
  | [] => io_ret tt
  | i :: idx' => (_ <- body i ;; io_for_each idx' body)%io
  end.

(** ** forward_backward *)

(** A list entry used as an argument of a tensor operation: [None] raises. *)
Definition tensor_arg (o : option tensor) : result tensor :=
  match o with Some t => Ok t | None => Raise TypeError end.

(** A list entry whose [.shape] is read: [None] has no such attribute. *)
Definition tensor_attr (o : option tensor) : result tensor :=
  match o with Some t => Ok t | None => Raise AttributeError end.

(** The body of the first loop: one more activation appended to the cache. *)
Definition sweep_body (x : tensor) (W b : list tensor) (l : Z) (a : list tensor)
  : result (list tensor) :=
  a_prev <- (if (l =? 0)%Z then Ok x else py_get a (l - 1)) ;;
  W_l <- py_get W l ;;
  b_l <- py_get b l ;;
  z_l <- Z_ a_prev W_l b_l ;;
  Ok (a ++ [A z_l]).

Definition forward_sweep (x : tensor) (W b : list tensor) : result (list tensor) :=
  let L := (Z.of_nat (length W) - 1)%Z in
  for_each (py_range 0 (L + 1)) (sweep_body x W b) [].

(** The three lists the backward sweep fills in. *)
Record grads : Type := mkGrads {
  g_deltas : list (option tensor);
  g_W_grads : list (option tensor);
  g_b_grads : list (option tensor)
}.

(** "Compute for the last layer". *)
Definition last_layer (y : tensor) (a : list tensor) (L : Z) (g : grads) : result grads :=
  a_L <- py_get a L ;;
  d1 <- tsub a_L y ;;
  d2 <- tmul d1 a_L ;;
  d <- tmul d2 (one_minus a_L) ;;
  deltas <- py_set (g_deltas g) L (Some d) ;;
  dL <- py_get deltas L ;;
  dL <- tensor_arg dL ;;
  a_prev <- py_get a (L - 1) ;;
  wg <- matmul dL (transpose a_prev) ;;
  W_grads <- py_set (g_W_grads g) L (Some wg) ;;
  bg <- py_get deltas L ;;
  b_grads <- py_set (g_b_grads g) L bg ;;
  Ok (mkGrads deltas W_grads b_grads).

(** The body of the loop over [range(L-1, -1, -1)]. *)
Definition backward_body (W a : list tensor) (l : Z) (g : grads) : result grads :=
  a_l <- py_get a l ;;
  W_next <- py_get W (l + 1) ;;
  d_next <- py_get (g_deltas g) (l + 1) ;;
  d_next <- tensor_arg d_next ;;
  m <- matmul (transpose W_next) d_next ;;
  d2 <- tmul m a_l ;;
  d <- tmul d2 (one_minus a_l) ;;
  deltas <- py_set (g_deltas g) l (Some d) ;;
  dl <- py_get deltas l ;;
  dl <- tensor_arg dl ;;
  a_prev <- py_get a (l - 1) ;;
  wg <- matmul dl (transpose a_prev) ;;
  W_grads <- py_set (g_W_grads g) l (Some wg) ;;
  bg <- py_get deltas l ;;
  b_grads <- py_set (g_b_grads g) l bg ;;
  Ok (mkGrads deltas W_grads b_grads).

Definition backward_sweep (W a : list tensor) (L : Z) (g : grads) : result grads :=
  for_each (py_range_down (L - 1) (-1)) (backward_body W a) g.

(** The body of the last loop: the line of shapes of layer [l]. *)
Definition print_layer (W b : list tensor) (g : grads) (l : Z) : IO unit :=
  (W_l <- lift (py_get W l) ;;
   wg <- lift (o <- py_get (g_W_grads g) l ;; tensor_attr o) ;;
   b_l <- lift (py_get b l) ;;
   bg <- lift (o <- py_get (g_b_grads g) l ;; tensor_attr o) ;;
   d <- lift (o <- py_get (g_deltas g) l ;; tensor_attr o) ;;
   print (PrintLayer l (shape_list W_l) (shape_list wg) (shape_list b_l)
            (shape_list bg) (shape_list d)))%io.

(** The local variables of [forward_backward] when it returns. *)
Record locals : Type := mkLocals {
  fb_a : list tensor;                  (* [a] *)
  fb_loss : tensor;                    (* [loss] *)
  fb_deltas : list (option tensor);    (* [deltas] *)
  fb_W_grads : list (option tensor);   (* [W_grads] *)
  fb_b_grads : list (option tensor)    (* [b_grads] *)
}.

(** The body of [forward_backward], up to its [return]. *)
Definition forward_backward_locals (x y : tensor) (W b : list tensor) : IO locals :=
  let L := (Z.of_nat (length W) - 1)%Z in
  (a <- lift (forward_sweep x W b) ;;
   a_L <- lift (py_get a L) ;;
   _ <- print (PrintTensor "Final activation" a_L) ;;
   loss <- lift (a_L <- py_get a L ;; mse_loss a_L y) ;;
   _ <- print (PrintTensor "Loss" loss) ;;
   let nones := map (fun _ => @None tensor) (py_range 0 (L + 1)) in
   g <- lift (last_layer y a L (mkGrads nones nones nones)) ;;
   g <- lift (backward_sweep W a L g) ;;
   _ <- io_for_each (py_range 0 (L + 1)) (print_layer W b g) ;;
   io_ret (mkLocals a loss (g_deltas g) (g_W_grads g) (g_b_grads g)))%io.

(** [forward_backward(x, y, W, b)]: [return loss, W_grads, b_grads]. *)
Definition forward_backward (x y : tensor) (W b : list tensor)
  : IO (tensor * list (option tensor) * list (option tensor)) :=
  (v <- forward_backward_locals x y W b ;;
   io_ret (fb_loss v, fb_W_grads v, fb_b_grads v))%io.

(** What a call returns or raises when [out] had been printed before it. *)
Definition returns {T : Type} (m : IO T) (out : list out_event) : result T :=
  snd (m out).

(** The standard output after a call made when [out] had been printed. *)
Definition prints {T : Type} (m : IO T) (out : list out_event) : list out_event :=
  fst (m out).

(** ** The data model of the specification *)

(** Layer [l] has a weight of shape [(units_l, units_(l-1))] and a bias of
    shape [(units_l, 1)]; [d] is the number of units feeding the first layer
    of the lists. *)
Fixpoint layers_ok (d : nat) (W b : list tensor) : bool :=
  match W, b with
  | [], [] => true
  | W_l :: W', b_l :: b' =>
      (cols W_l =? d) && (rows b_l =? rows W_l) && (cols b_l =? 1)
      && layers_ok (rows W_l) W' b'
  | _, _ => false
  end.

(** The number of units of the last layer. *)
Fixpoint out_units (d : nat) (W : list tensor) : nat :=
  match W with
  | [] => d
  | W_l :: W' => out_units (rows W_l) W'
  end.

(** Shape-compatible arguments of [forward]: a column vector and [L + 1 >= 1]
    layers that fit it and each other. *)
Definition shape_compatible (x : tensor) (W b : list tensor) : bool :=
  (cols x =? 1) && negb (length W =? 0) && layers_ok (rows x) W b.

(** Shape-compatible arguments of [forward_backward]: the ground truth has
    the shape of the output. *)
Definition shape_compatible_fb (x y : tensor) (W b : list tensor) : bool :=
  shape_compatible x W b && (rows y =? out_units (rows x) W) && (cols y =? 1).

(** The forward pass in the words of the specification: layer by layer,
    pre-activation then sigmoid, the activation of one layer feeding the
    next. *)
Fixpoint forward_spec (previous_activation : tensor) (layers : list (tensor * tensor))
  : result tensor :=
  match layers with
  | [] => Ok previous_activation
  | (weight_l, bias_l) :: rest =>
      product <- matmul weight_l previous_activation ;;
      pre_activation <- tadd product bias_l ;;
      forward_spec (sigmoid pre_activation) rest
  end.

(** The activations [a_0 .. a_L] of the specification. *)
Fixpoint activations_spec (previous_activation : tensor) (layers : list (tensor * tensor))
  : result (list tensor) :=
  match layers with
  | [] => Ok []
  | (weight_l, bias_l) :: rest =>
      product <- matmul weight_l previous_activation ;;
      pre_activation <- tadd product bias_l ;;
      later <- activations_spec (sigmoid pre_activation) rest ;;
      Ok (sigmoid pre_activation :: later)
  end.

(** [(a_L - y) (.) a_L (.) (1 - a_L)] *)
Definition delta_last_spec (a_L y : tensor) : result tensor :=
  d1 <- tsub a_L y ;; d2 <- tmul d1 a_L ;; tmul d2 (one_minus a_L).

(** [(transpose(weight_(l+1)) . delta_(l+1)) (.) a_l (.) (1 - a_l)] *)
Definition delta_hidden_spec (weight_next delta_next a_l : tensor) : result tensor :=
  m <- matmul (transpose weight_next) delta_next ;;
  d2 <- tmul m a_l ;;
  tmul d2 (one_minus a_l).

(** [delta_l . transpose(a_(l-1))] *)
Definition weight_gradient_spec (delta_l a_prev : tensor) : result tensor :=
  matmul delta_l (transpose a_prev).

(** What the backward sweep has stored for layer [l] when it is done with
    it: the error term of the layer, from the loss for the last layer and
    from the error term of layer [l + 1] for the others, stored as bias
    gradient too, and its product with the transposed cache entry that
    Python's [a[l - 1]] denotes, stored as weight gradient. *)
Definition layer_gradients (y : tensor) (W a : list tensor)
  (deltas W_grads b_grads : list (option tensor)) (l : nat) : Prop :=
  exists a_l a_prev delta_l wg : tensor,
    nth_error a l = Some a_l /\
    py_get a (Z.of_nat l - 1) = Ok a_prev /\
    (if S l =? length W
     then delta_last_spec a_l y = Ok delta_l
     else exists W_next delta_next : tensor,
         nth_error W (S l) = Some W_next /\
         nth_error deltas (S l) = Some (Some delta_next) /\
         delta_hidden_spec W_next delta_next a_l = Ok delta_l) /\
    weight_gradient_spec delta_l a_prev = Ok wg /\
    nth_error deltas l = Some (Some delta_l) /\
    nth_error W_grads l = Some (Some wg) /\
    nth_error b_grads l = Some (Some delta_l).

(** The invariant of the backward sweep: the three lists keep their length
    and the layers from [k] on are done. *)
Definition backward_inv (y : tensor) (W a : list tensor) (k : nat) (g : grads) : Prop :=
  length (g_deltas g) = length W /\
  length (g_W_grads g) = length W /\
  length (g_b_grads g) = length W /\
  forall l : nat, k <= l < length W ->
    layer_gradients y W a (g_deltas g) (g_W_grads g) (g_b_grads g) l.

(** The number of columns layer [l] must have: the rows of the input for
    the first layer, the rows of the weight before it for the others. *)
Definition fan_in (d : nat) (W : list tensor) (l : nat) : nat :=
  match l with
  | O => d
  | S l' => match nth_error W l' with Some W_prev => rows W_prev | None => 0 end
  end.

(** The error terms of the layers from [k] on are column vectors with one
    row per unit of their layer. *)
Definition delta_shapes (W : list tensor) (k : nat) (g : grads) : Prop :=
  forall (l : nat) (d W_l : tensor),
    k <= l ->
    nth_error (g_deltas g) l = Some (Some d) ->
    nth_error W l = Some W_l ->
    rows d = rows W_l /\ cols d = 1.

(** The tensor [t] with [v] for its element [(i, j)]: the others are
    kept. It serves to vary one parameter of a network. *)
Definition set_elem (t : tensor) (i j : nat) (v : scalar) : tensor :=
  mkTensor (rows t) (cols t)
    (fun i' j' => if (i' =? i) && (j' =? j) then v else elem t i' j').

(** The shapes of the entries of a list that [forward_backward] returns. *)
Definition shapes_of (g : list (option tensor)) : list (option (nat * nat)) :=
  map (option_map shape) g.

(** The shape of what [forward] returns, if it returns. *)
Definition result_shape (r : result tensor) : option (nat * nat) :=
  match r with
  | Ok t => Some (shape t)
  | Raise _ => None
  end.

(** The shapes of the weight gradients and of the bias gradients that
    [forward_backward] returns, if it returns. *)
Definition returned_shapes (r : result (tensor * list (option tensor) * list (option tensor)))
  : option (list (option (nat * nat)) * list (option (nat * nat))) :=
  match r with
  | Ok (_, W_grads, b_grads) => Some (shapes_of W_grads, shapes_of b_grads)
  | Raise _ => None
  end.

(** The pure part of [print_layer]: what it reads before it prints. *)
Definition print_layer_reads (W b : list tensor) (g : grads) (l : Z)
  : result out_event :=
  W_l <- py_get W l ;;
  wg <- (o <- py_get (g_W_grads g) l ;; tensor_attr o) ;;
  b_l <- py_get b l ;;
  bg <- (o <- py_get (g_b_grads g) l ;; tensor_attr o) ;;
  d <- (o <- py_get (g_deltas g) l ;; tensor_attr o) ;;
  Ok (PrintLayer l (shape_list W_l) (shape_list wg) (shape_list b_l)
        (shape_list bg) (shape_list d)).

(** A computation whose only use of the standard output is to append to
    it: what it appends and what it returns are fixed once and for all. *)
Definition append_only {T : Type} (m : IO T) : Prop :=
  exists (printed : list out_event) (r : result T),
    forall out : list out_event, m out = (out ++ printed, r).

(** What the body of [forward_backward] computes, its printing left out. *)
Definition forward_backward_pure (x y : tensor) (W b : list tensor) : result locals :=
  let L := (Z.of_nat (length W) - 1)%Z in
  a <- forward_sweep x W b ;;
  a_L <- py_get a L ;;
  loss <- (a_L <- py_get a L ;; mse_loss a_L y) ;;
  let nones := map (fun _ => @None tensor) (py_range 0 (L + 1)) in
  g <- last_layer y a L (mkGrads nones nones nones) ;;
  g <- backward_sweep W a L g ;;
  _ <- for_each (py_range 0 (L + 1))
         (fun l _ => _ <- print_layer_reads W b g l ;; Ok tt) tt ;;
  Ok (mkLocals a loss (g_deltas g) (g_W_grads g) (g_b_grads g)).

End Tensors.

(** ** Python's list objects *)

Section Store.
Context {K : Scalar}.

(** The lists of the notebook are objects: [a.append(a_l)] and
    [deltas[l] = ...] write into the object, and every holder of the object
    sees the change. The store gives each list object that exists its
    present contents, and an address is the position of the object in the
    store: the addresses a program holds are those of its arguments and of
    the lists it has created. Tensors are values: no statement of the
    notebook writes into a tensor. *)
Definition addr : Type := nat.

(** The contents of a list: each entry is [None] or a tensor. *)
Definition pylist : Type := list (option tensor).

(** The state a call runs in: the list objects and the standard output. *)
Record world : Type := mkWorld {
  w_store : list pylist;
  w_out : list out_event
}.

(** A computation that may read and write list objects, print and raise. *)
Definition Py (T : Type) : Type := world -> world * result T.

Definition py_ret {T : Type} (v : T) : Py T := fun w => (w, Ok v).

Definition py_bind {T U : Type} (m : Py T) (f : T -> Py U) : Py U :=
  fun w =>
    match m w with
    | (w', Ok v) => f v w'
    | (w', Raise e) => (w', Raise e)
    end.

Definition py_lift {T : Type} (m : result T) : Py T := fun w => (w, m).
Arguments py_lift {T} m%_result.

Declare Scope py_scope.
Delimit Scope py_scope with py.
Notation "x <- m ;; k" := (py_bind m (fun x => k))
  (at level 61, m at next level, right associativity) : py_scope.

Definition py_print (e : out_event) : Py unit :=
  fun w => (mkWorld (w_store w) (w_out w ++ [e]), Ok tt).

Fixpoint py_for_each {I : Type} (idx : list I) (body : I -> Py unit) : Py unit :=
  match idx with
  | [] => py_ret tt
  | i :: idx' => (_ <- body i ;; py_for_each idx' body)%py
  end.

(** [[]] and [[None for _ in range(n)]]: a new object, at an address that
    nothing held before. *)
Definition new_list (xs : pylist) : Py addr :=
  fun w => (mkWorld (w_store w ++ [xs]) (w_out w), Ok (length (w_store w))).

(** The present contents of the object at [r]. *)
Definition contents (r : addr) : Py pylist :=
  fun w => (w, Ok (nth r (w_store w) [])).

(** The object at [r] gets the contents [xs]. *)
Definition update (r : addr) (xs : pylist) : Py unit :=
  fun w => (mkWorld (list_set (w_store w) r xs) (w_out w), Ok tt).

(** [len(r)] *)
Definition len (r : addr) : Py Z :=
  (xs <- contents r ;; py_ret (Z.of_nat (length xs)))%py.

(** [r[i]] *)
Definition get_item (r : addr) (i : Z) : Py (option tensor) :=
  (xs <- contents r ;; py_lift (py_get xs i))%py.

(** [r[i] = v] *)
Definition set_item (r : addr) (i : Z) (v : option tensor) : Py unit :=
  (xs <- contents r ;; xs' <- py_lift (py_set xs i v) ;; update r xs')%py.

(** [r.append(v)] *)
Definition append (r : addr) (v : option tensor) : Py unit :=
  (xs <- contents r ;; update r (xs ++ [v]))%py.

(** [r[i]] read from a list that holds tensors, as [W], [b] and the cache
    [a] do, and used as a tensor: an entry that is [None] is no operand of a
    tensor operation. *)
Definition item (r : addr) (i : Z) : Py tensor :=
  (o <- get_item r i ;; py_lift (tensor_arg o))%py.

(** [r[i]] whose [.shape] is read. *)
Definition item_attr (r : addr) (i : Z) : Py tensor :=
  (o <- get_item r i ;; py_lift (tensor_attr o))%py.

(** The body of the first loop of [forward_backward]; [W] and [b] are the
    caller's lists and [a] is the cache. *)
Definition sweep_body_store (x : tensor) (W b a : addr) (l : Z) : Py unit :=
  (a_prev <- (if (l =? 0)%Z then py_ret x else item a (l - 1)) ;;
   W_l <- item W l ;;
   b_l <- item b l ;;
   z_l <- py_lift (Z_ a_prev W_l b_l) ;;
   append a (Some (A z_l)))%py.

(** "Compute for the last layer". *)
Definition last_layer_store (y : tensor) (a deltas W_grads b_grads : addr) (L : Z)
  : Py unit :=
  (a_L <- item a L ;;
   d <- py_lift (d1 <- tsub a_L y ;; d2 <- tmul d1 a_L ;; tmul d2 (one_minus a_L))%result ;;
   _ <- set_item deltas L (Some d) ;;
   dL <- item deltas L ;;
   a_prev <- item a (L - 1) ;;
   wg <- py_lift (matmul dL (transpose a_prev)) ;;
   _ <- set_item W_grads L (Some wg) ;;
   bg <- get_item deltas L ;;
   set_item b_grads L bg)%py.

(** The body of the loop over [range(L-1, -1, -1)]. *)
Definition backward_body_store (W a deltas W_grads b_grads : addr) (l : Z) : Py unit :=
  (a_l <- item a l ;;
   W_next <- item W (l + 1) ;;
   d_next <- item deltas (l + 1) ;;
   d <- py_lift (m <- matmul (transpose W_next) d_next ;;
                 d2 <- tmul m a_l ;;
                 tmul d2 (one_minus a_l))%result ;;
   _ <- set_item deltas l (Some d) ;;
   dl <- item deltas l ;;
   a_prev <- item a (l - 1) ;;
   wg <- py_lift (matmul dl (transpose a_prev)) ;;
   _ <- set_item W_grads l (Some wg) ;;
   bg <- get_item deltas l ;;
   set_item b_grads l bg)%py.

(** The body of the last loop. *)
Definition print_layer_store (W b deltas W_grads b_grads : addr) (l : Z) : Py unit :=
  (W_l <- item W l ;;
   wg <- item_attr W_grads l ;;
   b_l <- item b l ;;
   bg <- item_attr b_grads l ;;
   d <- item_attr deltas l ;;
   py_print (PrintLayer l (shape_list W_l) (shape_list wg) (shape_list b_l)
               (shape_list bg) (shape_list d)))%py.

(** [forward_backward(x, y, W, b)] on list objects: [W] and [b] are the
    addresses of the caller's lists, and the two lists returned are
    addresses too. *)
Definition forward_backward_store (x y : tensor) (W b : addr)
  : Py (tensor * addr * addr) :=
  (n <- len W ;;
   let L := (n - 1)%Z in
   a <- new_list [] ;;
   _ <- py_for_each (py_range 0 (L + 1)) (sweep_body_store x W b a) ;;
   a_L <- item a L ;;
   _ <- py_print (PrintTensor "Final activation" a_L) ;;
   a_L <- item a L ;;
   loss <- py_lift (mse_loss a_L y) ;;
   _ <- py_print (PrintTensor "Loss" loss) ;;
   let nones := map (fun _ => @None tensor) (py_range 0 (L + 1)) in
   deltas <- new_list nones ;;
   W_grads <- new_list nones ;;
   b_grads <- new_list nones ;;
   _ <- last_layer_store y a deltas W_grads b_grads L ;;
   _ <- py_for_each (py_range_down (L - 1) (-1))
          (backward_body_store W a deltas W_grads b_grads) ;;
   _ <- py_for_each (py_range 0 (L + 1))
          (print_layer_store W b deltas W_grads b_grads) ;;
   py_ret (loss, W_grads, b_grads))%py.

(** The list of tensors [xs] as the contents of a list object. *)
Definition tensors (xs : list tensor) : pylist := map Some xs.

(** The store [s] followed by the four lists a call has created. *)
Definition call_world (s : list pylist) (a : list tensor) (g : grads)
  (out : list out_event) : world :=
  mkWorld (s ++ [tensors a; g_deltas g; g_W_grads g; g_b_grads g]) out.

(** What a call has returned or raised, the lists returned read in the
    store the call has left. *)
Definition outcome (p : world * result (tensor * addr * addr))
  : result (tensor * pylist * pylist) :=
  match snd p with
  | Ok (loss, W_grads, b_grads) =>
      Ok (loss, nth W_grads (w_store (fst p)) [], nth b_grads (w_store (fst p)) [])
  | Raise e => Raise e
  end.

End Store.

(** ** Real numbers as scalars *)

Module RealNet.

Definition Rsigmoid (v : R) : R := (/ (1 + exp (- v)))%R.

#[export] Instance RealScalar : Scalar :=
  {| scalar := R;
     szero := 0%R;
     sone := 1%R;
     shalf := (1 / 2)%R;
     sadd := Rplus;
     ssub := Rminus;
     smul := Rmult;
     ssigmoid := Rsigmoid |}.

(** A tensor of the given shape filled with one value. *)
Definition full (r c : nat) (v : R) : tensor := mkTensor r c (fun _ _ => v).

(** The shapes of the notebook's last cell: a network [7 -> 5 -> 3 -> 1]. *)
Definition nb_x : tensor := full 7 1 1%R.
Definition nb_y : tensor := full 1 1 1%R.
Definition nb_W : list tensor := [full 5 7 1%R; full 3 5 1%R; full 1 3 1%R].
Definition nb_b : list tensor := [full 5 1 0%R; full 3 1 0%R; full 1 1 0%R].

(** The same network with a first weight of six columns for an input of
    seven rows. *)
Definition bad_W : list tensor := [full 5 6 1%R; full 3 5 1%R; full 1 3 1%R].

(** The biases of the notebook with a first bias of four rows for a layer
    of five units. *)
Definition bad_b : list tensor := [full 4 1 0%R; full 3 1 0%R; full 1 1 0%R].

(** A network of one layer, [7 -> 5]. *)
Definition one_W : list tensor := [full 5 7 1%R].
Definition one_b : list tensor := [full 5 1 0%R].
Definition one_y : tensor := full 5 1 1%R.

(** What the network of the notebook predicts, taken as ground truth. *)
Definition nb_prediction : tensor :=
  match forward nb_x nb_W nb_b with
  | Ok a_L => a_L
  | Raise _ => nb_y
  end.

(** What the network of one layer predicts. *)
Definition one_prediction : tensor :=
  match forward nb_x one_W one_b with
  | Ok a_L => a_L
  | Raise _ => one_y
  end.

(** A ground truth of two rows, which does not broadcast with the five rows
    of the prediction of [one_W]. *)
Definition short_y : tensor := full 2 1 1%R.

(** What [forward_backward] returns on the network of one layer. *)
Definition one_returned : tensor * list (option tensor) * list (option tensor) :=
  match returns (forward_backward nb_x one_y one_W one_b) [] with
  | Ok r => r
  | Raise _ => (one_y, [], [])
  end.

(** Element [(i, j)] of the loss that [forward_backward] returns (0 when it
    raises). *)
Definition loss_at (r : result (tensor * list (option tensor) * list (option tensor)))
  (i j : nat) : R :=
  match r with
  | Ok (loss, _, _) => elem loss i j
  | Raise _ => 0%R
  end.

(** ** The normalisation of [8.5-training-a-neural-network.ipynb] *)

(** The reduction of column [j] of [X] over its rows, from row 0 on. *)
Definition col_reduce (f : R -> R -> R) (X : tensor) (j : nat) : R :=
  fold_left (fun m i => f m (elem X i j)) (seq 1 (rows X - 1)) (elem X 0 j).

(** [torch.min(X, dim=0)[0]] with [f := Rmin] and [torch.max(X, dim=0)[0]]
    with [f := Rmax], for a tensor [X] of two dimensions (samples by
    features): the values of the reduction over dimension 0.  The result has
    one dimension and broadcasts as a row, so it is kept as a tensor of one
    row.  torch refuses to reduce a dimension of size zero (with an
    [IndexError]; older releases raise a [RuntimeError]). *)
Definition reduce_dim0 (f : R -> R -> R) (X : tensor) : result tensor :=
  match rows X with
  | O => Raise IndexError
  | S _ => Ok (mkTensor 1 (cols X) (fun _ j => col_reduce f X j))
  end.

(** [t / u] over the real numbers; on floats a zero divisor gives [inf] or
    [nan], which the real numbers do not have. *)
Definition tdiv : tensor -> tensor -> result tensor := tmap2 Rdiv.

(** [min_max_norm(X, y)]; [clone] copies, and nothing is written to either
    copy. *)
Definition min_max_norm (X y : tensor) : result (tensor * tensor) :=
  X_min <- reduce_dim0 Rmin X ;;
  X_max <- reduce_dim0 Rmax X ;;
  X_shifted <- tsub X X_min ;;
  X_extent <- tsub X_max X_min ;;
  X' <- tdiv X_shifted X_extent ;;
  y_min <- reduce_dim0 Rmin y ;;
  y_max <- reduce_dim0 Rmax y ;;
  y_shifted <- tsub y y_min ;;
  y_extent <- tsub y_max y_min ;;
  y' <- tdiv y_shifted y_extent ;;
  Ok (X', y').

(** Column [j] of [X] holds at least two different values. *)
Definition varies (X : tensor) (j : nat) : Prop :=
  j < cols X /\
  exists i i' : nat, i < rows X /\ i' < rows X /\ elem X i j <> elem X i' j.

(** Column [j] of [X] lies in [[0, 1]] and reaches both ends. *)
Definition unit_range (X : tensor) (j : nat) : Prop :=
  (forall i : nat, i < rows X -> (0 <= elem X i j <= 1)%R) /\
  (exists i : nat, i < rows X /\ elem X i j = 0%R) /\
  (exists i : nat, i < rows X /\ elem X i j = 1%R).

(** [Xn] is [X] with every column shifted by its least value and divided by
    its extent. *)
Definition normalised (X Xn : tensor) : Prop :=
  shape Xn = shape X /\
  forall i j : nat,
    i < rows X -> j < cols X ->
    elem Xn i j =
    ((elem X i j - col_reduce Rmin X j) /
     (col_reduce Rmax X j - col_reduce Rmin X j))%R.

(** Three samples of two features, the second feature constant, and their
    ground truth. *)
Definition toy_X : tensor :=
  mkTensor 3 2 (fun i j => match j with O => INR (10 * i) | _ => 4%R end).
Definition toy_y : tensor := mkTensor 3 1 (fun i _ => INR (i * i)).

(** The normalised samples. *)
Definition toy_norm : tensor * tensor :=
  match min_max_norm toy_X toy_y with
  | Ok r => r
  | Raise _ => (toy_X, toy_y)
  end.

End RealNet.

(** ** Single-precision floats as scalars *)

(** The element type of the notebook's tensors is torch's default,
    [float32]: IEEE 754 binary32, with signed zeros, infinities and NaN.
    Sum, difference, product and quotient are the correctly rounded ones of
    the standard ([SpecFloat], round to nearest even). *)
Module Float32.

Definition prec : Z := 24.
Definition emax : Z := 128.

Definition f32_zero : spec_float := S754_zero false.
Definition f32_one : spec_float := S754_finite false 8388608 (-23).
Definition f32_half : spec_float := S754_finite false 8388608 (-24).

Definition f32_add : spec_float -> spec_float -> spec_float := SFadd prec emax.
Definition f32_sub : spec_float -> spec_float -> spec_float := SFsub prec emax.
Definition f32_mul : spec_float -> spec_float -> spec_float := SFmul prec emax.
Definition f32_div : spec_float -> spec_float -> spec_float := SFdiv prec emax.

(** The integer [n] as a float. *)
Definition of_Z (n : Z) : spec_float := binary_normalize prec emax n 0 false.

(** *** The exponential of the library

    [exp] is computed in fixed point with [exp_bits] fractional bits, far
    more than a float has, and rounded once: the exponential to the nearest
    float. The library's own [exp] is accurate to the last bit or two, so it
    can differ from this one in the last bits of a result; nothing proved
    below depends on them. *)
Definition exp_bits : Z := 320.
Definition fx_one : Z := 2 ^ exp_bits.

(** [acc + term * (t/k + t^2/(k (k+1)) + ...)], [n] terms, for [0 <= t <= 1]
    in fixed point. *)
Fixpoint exp_series (n : nat) (k term acc t : Z) : Z :=
  match n with
  | O => acc
  | S n' =>
      let term' := (term * t / (fx_one * k))%Z in
      exp_series n' (k + 1)%Z term' (acc + term')%Z t
  end.

(** [exp t] for [0 <= t <= 1]. *)
Definition fx_exp_unit (t : Z) : Z := exp_series 100 1 fx_one fx_one t.

Definition fx_e : Z := Eval vm_compute in fx_exp_unit fx_one.

(** [acc * e^n] *)
Fixpoint fx_pow_e (n : nat) (acc : Z) : Z :=
  match n with
  | O => acc
  | S n' => fx_pow_e n' (acc * fx_e / fx_one)%Z
  end.

(** [exp q] for [0 <= q]: [e] to the integer part of [q], times the
    exponential of its fractional part. *)
Definition fx_exp (q : Z) : Z :=
  fx_pow_e (Z.to_nat (q / fx_one)) (fx_exp_unit (q mod fx_one)).

(** [exp] on floats. Beyond [256] in absolute value the result is out of
    the range of the format on either side. *)
Definition f32_exp (v : spec_float) : spec_float :=
  match v with
  | S754_nan => S754_nan
  | S754_zero _ => f32_one
  | S754_infinity false => S754_infinity false
  | S754_infinity true => S754_zero false
  | S754_finite s m e =>
      let q := Z.shiftl (Zpos m) (e + exp_bits) in
      if (256 * fx_one <=? q)%Z then
        if s then S754_zero false else S754_infinity false
      else
        let E := if s then (fx_one * fx_one / fx_exp q)%Z else fx_exp q in
        binary_normalize prec emax E (- exp_bits) false
  end.

(** [torch.sigmoid] on a float: the library computes [1 / (1 + exp(-v))] in
    the element type. *)
Definition f32_sigmoid (v : spec_float) : spec_float :=
  f32_div f32_one (f32_add f32_one (f32_exp (SFopp v))).

(** A matrix product sums its products from left to right here, each
    product and each sum rounded; the library may sum in another order or
    fuse a product with a sum, which changes the last bits of an inexact
    sum and nothing else. *)
#[export] Instance F32Scalar : Scalar :=
  {| scalar := spec_float;
     szero := f32_zero;
     sone := f32_one;
     shalf := f32_half;
     sadd := f32_add;
     ssub := f32_sub;
     smul := f32_mul;
     ssigmoid := f32_sigmoid |}.

(** Neither an infinity nor NaN. *)
Definition is_finite (v : spec_float) : bool :=
  match v with
  | S754_zero _ | S754_finite _ _ _ => true
  | S754_infinity _ | S754_nan => false
  end.

Definition is_nan (v : spec_float) : bool :=
  match v with
  | S754_nan => true
  | _ => false
  end.

(** [v] is not NaN and its sign bit is [s]. *)
Definition has_sign (s : bool) (v : spec_float) : Prop :=
  match v with
  | S754_nan => False
  | S754_zero s' | S754_infinity s' | S754_finite s' _ _ => s' = s
  end.

(** [u <= v], [u < v] and [u == v] as the comparisons of floats decide
    them: all three are false when an operand is NaN. *)
Definition f32_leb : spec_float -> spec_float -> bool := SFleb.
Definition f32_ltb : spec_float -> spec_float -> bool := SFltb.
Definition f32_eqb : spec_float -> spec_float -> bool := SFeqb.

Definition full (r c : nat) (v : spec_float) : tensor := mkTensor r c (fun _ _ => v).

(** Element [(i, j)] of a tensor that is returned. *)
Definition result_elem (r : result tensor) (i j : nat) : option spec_float :=
  match r with
  | Ok t => Some (elem t i j)
  | Raise _ => None
  end.

(** A layer of five units whose seven weights are all [3.0], on an input of
    seven ones: every pre-activation is [21.0]. *)
Definition sat_x : tensor := full 7 1 f32_one.
Definition sat_W : list tensor := [full 5 7 (of_Z 3)].
Definition sat_b : list tensor := [full 5 1 f32_zero].

(** The same layer with weights that are NaN. *)
Definition nan_W : list tensor := [full 5 7 S754_nan].

(** A prediction and a ground truth that are both [+inf]. *)
Definition inf_a : tensor := full 1 1 (S754_infinity false).

End Float32.

(** * Proofs *)

(** ** Lists and ranges *)

Lemma py_range_0 (n : nat) :
  py_range 0 (Z.of_nat n - 1 + 1) = map Z.of_nat (seq 0 n).
Proof.
  unfold py_range.
  replace (Z.to_nat (Z.of_nat n - 1 + 1 - 0)) with n by lia.
  apply map_ext. intros k. lia.
Qed.

Lemma py_range_down_0 (n : nat) :
  py_range_down (Z.of_nat n - 1) (-1) = map Z.of_nat (rev (seq 0 n)).
Proof.
  unfold py_range_down.
  replace (Z.to_nat (Z.of_nat n - 1 - -1)) with n by lia.
  induction n as [|n IH].
  - reflexivity.
  - replace (rev (seq 0 (S n))) with (n :: rev (seq 0 n))
      by (rewrite seq_S, rev_app_distr; reflexivity).
    cbn [map]. rewrite <- IH. clear IH.
    change (seq 0 (S n)) with (0 :: seq 1 n). cbn [map].
    f_equal.
    + lia.
    + rewrite <- seq_shift, map_map. apply map_ext. intros k. lia.
Qed.

Lemma py_index_nat {T : Type} (xs : list T) (k : nat) :
  k < length xs -> py_index xs (Z.of_nat k) = Ok k.
Proof.
  intros Hk. unfold py_index.
  replace ((0 <=? Z.of_nat k)%Z) with true by (symmetry; apply Z.leb_le; lia).
  replace ((Z.of_nat k <? Z.of_nat (length xs))%Z) with true
    by (symmetry; apply Z.ltb_lt; lia).
  cbn. now rewrite Nat2Z.id.
Qed.

Lemma py_index_nat_out {T : Type} (xs : list T) (k : nat) :
  length xs <= k -> py_index xs (Z.of_nat k) = Raise IndexError.
Proof.
  intros Hk. unfold py_index.
  replace ((Z.of_nat k <? Z.of_nat (length xs))%Z) with false
    by (symmetry; apply Z.ltb_ge; lia).
  replace ((Z.of_nat k <? 0)%Z) with false by (symmetry; apply Z.ltb_ge; lia).
  now rewrite andb_false_r.
Qed.

Lemma py_index_minus_one {T : Type} (xs : list T) :
  xs <> [] -> py_index xs (-1) = Ok (length xs - 1).
Proof.
  intros Hne. unfold py_index.
  destruct xs as [|x xs]; [congruence|].
  cbn [length]. 
  replace ((0 <=? -1)%Z) with false by reflexivity.
  cbn [andb].
  replace ((-1 <? 0)%Z) with true by reflexivity.
  replace ((0 <=? Z.of_nat (S (length xs)) + -1)%Z) with true
    by (symmetry; apply Z.leb_le; lia).
  cbn [andb]. f_equal. lia.
Qed.

Lemma py_get_nat {T : Type} (xs : list T) (k : nat) (v : T) :
  nth_error xs k = Some v -> py_get xs (Z.of_nat k) = Ok v.
Proof.
  intros H. unfold py_get.
  rewrite py_index_nat by (apply nth_error_Some; congruence).
  cbn. now rewrite H.
Qed.

Lemma py_get_nat_out {T : Type} (xs : list T) (k : nat) :
  length xs <= k -> py_get xs (Z.of_nat k) = Raise IndexError.
Proof.
  intros H. unfold py_get. now rewrite py_index_nat_out.
Qed.

Lemma py_get_minus_one {T : Type} (xs : list T) (v : T) :
  nth_error xs (length xs - 1) = Some v -> xs <> [] -> py_get xs (-1) = Ok v.
Proof.
  intros H Hne. unfold py_get. rewrite py_index_minus_one by assumption.
  cbn. now rewrite H.
Qed.

Lemma py_get_pred {T : Type} (xs : list T) (k : nat) (v : T) :
  nth_error xs k = Some v -> py_get xs (Z.of_nat (S k) - 1) = Ok v.
Proof.
  intros H. replace (Z.of_nat (S k) - 1)%Z with (Z.of_nat k) by lia.
  now apply py_get_nat.
Qed.

Lemma length_list_set {T : Type} (xs : list T) (k : nat) (v : T) :
  length (list_set xs k v) = length xs.
Proof.
  revert k. induction xs as [|x xs IH]; intros [|k]; cbn; auto.
Qed.

Lemma nth_error_list_set_eq {T : Type} (xs : list T) (k : nat) (v : T) :
  k < length xs -> nth_error (list_set xs k v) k = Some v.
Proof.
  revert k. induction xs as [|x xs IH]; intros [|k] Hk; cbn in *; try lia; auto.
  apply IH. lia.
Qed.

Lemma nth_error_list_set_neq {T : Type} (xs : list T) (k j : nat) (v : T) :
  j <> k -> nth_error (list_set xs k v) j = nth_error xs j.
Proof.
  revert k j. induction xs as [|x xs IH]; intros [|k] [|j] Hjk; cbn; auto.
  congruence.
Qed.

Lemma py_set_nat {T : Type} (xs : list T) (k : nat) (v : T) :
  k < length xs -> py_set xs (Z.of_nat k) v = Ok (list_set xs k v).
Proof.
  intros Hk. unfold py_set. now rewrite py_index_nat.
Qed.

Lemma last_default_irrelevant {T : Type} (xs : list T) (d d' : T) :
  xs <> [] -> last xs d = last xs d'.
Proof.
  induction xs as [|v xs IH]; intros Hne; [congruence|].
  destruct xs as [|v' xs]; [reflexivity|].
  change (last (v' :: xs) d = last (v' :: xs) d'). apply IH. discriminate.
Qed.

(** ** Loops *)

(** A loop over [L-1, ..., 0]: an invariant indexed by the number of
    indices still to visit, and what the exceptions it may raise satisfy. *)
Lemma for_each_down_inv {St : Type} (Inv : nat -> St -> Prop) (E : error -> Prop)
  (body : Z -> St -> result St) :
  forall (k : nat) (st : St),
    Inv k st ->
    (forall (i : nat) (st0 : St), i < k -> Inv (S i) st0 ->
       match body (Z.of_nat i) st0 with
       | Ok st' => Inv i st'
       | Raise e => E e
       end) ->
    match for_each (map Z.of_nat (rev (seq 0 k))) body st with
    | Ok st' => Inv 0 st'
    | Raise e => E e
    end.
Proof.
  induction k as [|k IH]; intros st Hinv Hbody.
  - exact Hinv.
  - replace (rev (seq 0 (S k))) with (k :: rev (seq 0 k))
      by (rewrite seq_S, rev_app_distr; reflexivity).
    cbn [map for_each].
    pose proof (Hbody k st (Nat.lt_succ_diag_r k) Hinv) as Hstep.
    destruct (body (Z.of_nat k) st) as [st'|e]; cbn [bind]; [|exact Hstep].
    apply IH; [exact Hstep|].
    intros i st0 Hi. apply Hbody. lia.
Qed.

(** A loop over [0, ..., n-1] that carries no variable. *)
Lemma for_each_up_ok {St : Type} (body : Z -> St -> result St) (st : St) :
  forall (n k : nat),
    (forall (i : nat) (st0 : St), k <= i < k + n -> body (Z.of_nat i) st0 = Ok st) ->
    for_each (map Z.of_nat (seq k n)) body st = Ok st.
Proof.
  induction n as [|n IH]; intros k Hbody; [reflexivity|].
  cbn [seq map for_each]. rewrite Hbody by lia. cbn [bind].
  apply IH. intros i st0 Hi. apply Hbody. lia.
Qed.

Lemma for_each_app {I St : Type} (idx1 idx2 : list I) (body : I -> St -> result St) (st : St) :
  for_each (idx1 ++ idx2) body st = (st' <- for_each idx1 body st ;; for_each idx2 body st').
Proof.
  revert st. induction idx1 as [|i idx1 IH]; intros st; cbn; [reflexivity|].
  destruct (body i st); cbn; auto.
Qed.

Lemma for_each_ext {I St : Type} (idx : list I) (body1 body2 : I -> St -> result St) :
  (forall (i : I) (st : St), In i idx -> body1 i st = body2 i st) ->
  forall st : St, for_each idx body1 st = for_each idx body2 st.
Proof.
  induction idx as [|i idx IH]; intros Hext st; cbn [for_each]; [reflexivity|].
  rewrite Hext by (left; reflexivity).
  destruct (body2 i st) as [st'|e]; cbn [bind]; [|reflexivity].
  apply IH. intros j st0 Hj. apply Hext. now right.
Qed.

(** Reading a prefix of a list at one of its indices. *)
Lemma py_get_firstn {T : Type} (xs : list T) (n i : nat) :
  i < n -> n <= length xs ->
  py_get (firstn n xs) (Z.of_nat i) = py_get xs (Z.of_nat i).
Proof.
  intros Hi Hn.
  destruct (nth_error xs i) as [v|] eqn:E; [|apply nth_error_None in E; lia].
  rewrite (py_get_nat _ _ E). apply py_get_nat.
  now rewrite nth_error_firstn, (proj2 (Nat.ltb_lt i n) Hi).
Qed.

Section NetProofs.

Context {K : Scalar}.

(** ** Printing does not change what is returned *)

Lemma returns_bind {T U : Type} (m : IO T) (f : T -> IO U) (out : list out_event) :
  returns (io_bind m f) out =
  match m out with
  | (out', Ok v) => returns (f v) out'
  | (_, Raise e) => Raise e
  end.
Proof.
  unfold returns, io_bind. destruct (m out) as [out' [v|e]]; reflexivity.
Qed.

Lemma returns_lift_bind {T U : Type} (m : result T) (f : T -> IO U) (out : list out_event) :
  returns (io_bind (lift m) f) out = (v <- m ;; returns (f v) out).
Proof.
  rewrite returns_bind. unfold lift. destruct m; reflexivity.
Qed.

Lemma returns_print_bind {U : Type} (e : out_event) (f : unit -> IO U) (out : list out_event) :
  returns (io_bind (print e) f) out = returns (f tt) (out ++ [e]).
Proof.
  rewrite returns_bind. reflexivity.
Qed.

Lemma returns_print_layer (W b : list tensor) (g : grads) (l : Z) (out : list out_event) :
  print_layer W b g l out =
  match print_layer_reads W b g l with
  | Ok e => (out ++ [e], Ok tt)
  | Raise e => (out, Raise e)
  end.
Proof.
  unfold print_layer, print_layer_reads, io_bind, lift, print.
  destruct (py_get W l); cbn; [|reflexivity].
  destruct (py_get (g_W_grads g) l) as [[?|]|]; cbn; try reflexivity.
  destruct (py_get b l); cbn; [|reflexivity].
  destruct (py_get (g_b_grads g) l) as [[?|]|]; cbn; try reflexivity.
  destruct (py_get (g_deltas g) l) as [[?|]|]; cbn; reflexivity.
Qed.

Lemma returns_print_loop {U : Type} (W b : list tensor) (g : grads) (idx : list Z)
  (f : unit -> IO U) (r : result U) (out : list out_event) :
  (forall out', returns (f tt) out' = r) ->
  returns (io_bind (io_for_each idx (print_layer W b g)) f) out =
  (_ <- for_each idx (fun l _ => _ <- print_layer_reads W b g l ;; Ok tt) tt ;; r).
Proof.
  intros Hf. revert out. induction idx as [|l idx IH]; intros out.
  - cbn. rewrite returns_bind. cbn. apply Hf.
  - rewrite returns_bind. cbn [io_for_each for_each].
    unfold io_bind at 1. rewrite returns_print_layer.
    destruct (print_layer_reads W b g l) as [e|e]; cbn; [|reflexivity].
    specialize (IH (out ++ [e])). rewrite returns_bind in IH.
    destruct (io_for_each idx (print_layer W b g) (out ++ [e])) as [out' [[]|e']];
      exact IH.
Qed.

Lemma forward_backward_locals_returns (x y : tensor) (W b : list tensor) (out : list out_event) :
  returns (forward_backward_locals x y W b) out = forward_backward_pure x y W b.
Proof.
  unfold forward_backward_locals, forward_backward_pure.
  rewrite returns_lift_bind.
  destruct (forward_sweep x W b) as [a|e]; cbn [bind]; [|reflexivity].
  rewrite returns_lift_bind.
  destruct (py_get a (Z.of_nat (length W) - 1)) as [a_L|e]; cbn [bind]; [|reflexivity].
  rewrite returns_print_bind, returns_lift_bind.
  destruct (mse_loss a_L y) as [loss|e]; cbn [bind]; [|reflexivity].
  rewrite returns_print_bind. cbv zeta. rewrite returns_lift_bind.
  destruct (last_layer _ _ _ _) as [g|e]; cbn [bind]; [|reflexivity].
  rewrite returns_lift_bind.
  destruct (backward_sweep _ _ _ _) as [g'|e]; cbn [bind]; [|reflexivity].
  apply returns_print_loop. reflexivity.
Qed.

Lemma forward_backward_returns (x y : tensor) (W b : list tensor) (out : list out_event) :
  returns (forward_backward x y W b) out =
  (v <- forward_backward_pure x y W b ;; Ok (fb_loss v, fb_W_grads v, fb_b_grads v)).
Proof.
  unfold forward_backward. rewrite returns_bind.
  pose proof (forward_backward_locals_returns x y W b out) as H.
  unfold returns in H at 1.
  destruct (forward_backward_locals x y W b out) as [out' r]. cbn in H. subst r.
  destruct (forward_backward_pure x y W b); reflexivity.
Qed.

(** ** The forward loops *)

Lemma nth_error_middle {T : Type} (pre post : list T) (v : T) :
  nth_error (pre ++ v :: post) (length pre) = Some v.
Proof.
  rewrite nth_error_app2 by lia. now rewrite Nat.sub_diag.
Qed.

Lemma nth_error_last {T : Type} (xs : list T) (d : T) :
  xs <> [] -> nth_error xs (length xs - 1) = Some (last xs d).
Proof.
  intros Hne. destruct (exists_last Hne) as [pre [v ->]].
  rewrite last_last, length_app. cbn [length].
  replace (length pre + 1 - 1) with (length pre) by lia.
  apply nth_error_middle.
Qed.

(** The activation the first loop of [forward_backward] feeds to layer
    [length a]: the input for the first layer, the last cached activation
    for the others. *)
Lemma sweep_previous (x : tensor) (a : list tensor) :
  (if (Z.of_nat (length a) =? 0)%Z then Ok x else py_get a (Z.of_nat (length a) - 1))
  = Ok (last a x).
Proof.
  destruct a as [|a0 a'] eqn:E; [reflexivity|]. rewrite <- E.
  assert (Hne : a <> []) by (subst; discriminate).
  replace (Z.of_nat (length a) =? 0)%Z with false
    by (symmetry; apply Z.eqb_neq; subst; cbn [length]; lia).
  replace (Z.of_nat (length a) - 1)%Z with (Z.of_nat (length a - 1))
    by (subst; cbn [length]; lia).
  apply py_get_nat. now apply nth_error_last.
Qed.

(** [forward]'s loop and the first loop of [forward_backward] run in lock
    step: the variable [a_l] of the one is the last entry of the cache of the
    other. *)
Lemma forward_sweep_simulation (x : tensor) (W b : list tensor) (n : nat) :
  forall (a : list tensor),
    for_each (map Z.of_nat (seq (length a) n)) (forward_body W b) (last a x) =
    (a' <- for_each (map Z.of_nat (seq (length a) n)) (sweep_body x W b) a ;;
     Ok (last a' x)).
Proof.
  induction n as [|n IH]; intros a; [reflexivity|].
  cbn [seq map for_each]. unfold forward_body at 1, sweep_body at 1.
  rewrite sweep_previous. cbn [bind].
  destruct (py_get W (Z.of_nat (length a))) as [W_l|e]; cbn [bind]; [|reflexivity].
  destruct (py_get b (Z.of_nat (length a))) as [b_l|e]; cbn [bind]; [|reflexivity].
  destruct (Z_ (last a x) W_l b_l) as [z_l|e]; cbn [bind]; [|reflexivity].
  specialize (IH (a ++ [A z_l])).
  rewrite length_app, last_last in IH. cbn [length] in IH.
  replace (length a + 1) with (S (length a)) in IH by lia.
  exact IH.
Qed.

(** [forward] returns the last activation that [forward_backward] caches
    (the input itself when there is no layer). *)
Lemma forward_is_last_of_sweep (x : tensor) (W b : list tensor) :
  forward x W b = (a <- forward_sweep x W b ;; Ok (last a x)).
Proof.
  unfold forward, forward_sweep. rewrite py_range_0.
  exact (forward_sweep_simulation x W b (length W) []).
Qed.

Lemma py_get_last (x : tensor) (a : list tensor) :
  a <> [] -> py_get a (Z.of_nat (length a) - 1) = Ok (last a x).
Proof.
  intros Hne. rewrite <- (sweep_previous x a).
  destruct a; [congruence|].
  replace (Z.of_nat (length (t :: a)) =? 0)%Z with false
    by (symmetry; apply Z.eqb_neq; cbn [length]; lia).
  reflexivity.
Qed.

(** The loops over indices against the recursion over layers. *)
Lemma sweep_loop_spec (x : tensor) :
  forall (Ws bs Wp bp a : list tensor),
    length Wp = length bp -> length a = length Wp -> length Ws <= length bs ->
    for_each (map Z.of_nat (seq (length Wp) (length Ws)))
      (sweep_body x (Wp ++ Ws) (bp ++ bs)) a =
    (later <- activations_spec (last a x) (combine Ws bs) ;; Ok (a ++ later)).
Proof.
  induction Ws as [|w Ws IH]; intros bs Wp bp a Hp Ha Hb.
  - cbn. now rewrite app_nil_r.
  - destruct bs as [|c bs]; [cbn in Hb; lia|].
    cbn [length seq map for_each combine activations_spec].
    unfold sweep_body at 1. rewrite <- Ha, sweep_previous. cbn [bind].
    rewrite Ha. rewrite (py_get_nat _ _ (nth_error_middle Wp Ws w)). cbn [bind].
    rewrite Hp. rewrite (py_get_nat _ _ (nth_error_middle bp bs c)). cbn [bind].
    unfold Z_ at 1.
    destruct (matmul w (last a x)) as [m|e]; cbn [bind]; [|reflexivity].
    destruct (tadd m c) as [z|e]; cbn [bind]; [|reflexivity].
    specialize (IH bs (Wp ++ [w]) (bp ++ [c]) (a ++ [A z])).
    rewrite !length_app, last_last, <- !app_assoc in IH. cbn [length app] in IH.
    replace (length Wp + 1) with (S (length Wp)) in IH by lia.
    rewrite <- Hp. rewrite IH by (cbn in Hb; lia).
    unfold A. destruct (activations_spec (sigmoid z) (combine Ws bs)); cbn [bind];
      [now rewrite <- app_assoc | reflexivity].
Qed.

Lemma forward_sweep_spec (x : tensor) (W b : list tensor) :
  length W <= length b ->
  forward_sweep x W b = activations_spec x (combine W b).
Proof.
  intros Hb. unfold forward_sweep. rewrite py_range_0.
  pose proof (sweep_loop_spec x W b [] [] [] eq_refl eq_refl Hb) as H.
  cbn [length app last] in H. rewrite H.
  destruct (activations_spec x (combine W b)); reflexivity.
Qed.

Lemma forward_spec_last (layers : list (tensor * tensor)) :
  forall (x : tensor),
    forward_spec x layers = (acts <- activations_spec x layers ;; Ok (last acts x)).
Proof.
  induction layers as [|[w c] layers IH]; intros x; [reflexivity|].
  cbn [forward_spec activations_spec].
  destruct (matmul w x) as [m|e]; cbn [bind]; [|reflexivity].
  destruct (tadd m c) as [z|e]; cbn [bind]; [|reflexivity].
  rewrite IH.
  destruct (activations_spec (sigmoid z) layers) as [later|e]; cbn [bind]; [|reflexivity].
  destruct later as [|t later]; [reflexivity|].
  f_equal. change (last (t :: later) (sigmoid z) = last (t :: later) x).
  apply last_default_irrelevant. discriminate.
Qed.

Lemma forward_eq_spec (x : tensor) (W b : list tensor) :
  length W <= length b ->
  forward x W b = forward_spec x (combine W b).
Proof.
  intros Hb. rewrite forward_is_last_of_sweep, forward_sweep_spec by assumption.
  now rewrite forward_spec_last.
Qed.

Lemma activations_spec_prefix (layers : list (tensor * tensor)) :
  forall (x : tensor) (acts : list tensor) (l : nat) (a_l : tensor),
    activations_spec x layers = Ok acts ->
    nth_error acts l = Some a_l ->
    forward_spec x (firstn (S l) layers) = Ok a_l.
Proof.
  induction layers as [|[w c] layers IH]; intros x acts l a_l Hacts Hl.
  - cbn in Hacts. injection Hacts as <-. destruct l; discriminate.
  - cbn [activations_spec] in Hacts. cbn [firstn forward_spec].
    destruct (matmul w x) as [m|e]; cbn [bind] in *; [|discriminate].
    destruct (tadd m c) as [z|e]; cbn [bind] in *; [|discriminate].
    destruct (activations_spec (sigmoid z) layers) as [later|e] eqn:E;
      cbn [bind] in *; [|discriminate].
    injection Hacts as <-.
    destruct l as [|l].
    + cbn in Hl. injection Hl as <-. reflexivity.
    + cbn in Hl. destruct layers as [|p layers']; [cbn in E; injection E as <-; destruct l; discriminate|].
      exact (IH _ _ _ _ E Hl).
Qed.

(** ** The backward sweep, one layer at a time *)

Lemma py_get_list_set {T : Type} (xs : list T) (k : nat) (v : T) :
  k < length xs -> py_get (list_set xs k v) (Z.of_nat k) = Ok v.
Proof.
  intros Hk. apply py_get_nat. now apply nth_error_list_set_eq.
Qed.

(** [a[l - 1]] for a layer [l] of a non-empty cache never raises: it is the
    previous entry, and for [l = 0] the last one. *)
Lemma py_get_previous (a : list tensor) (x : tensor) (l : nat) :
  l < length a ->
  exists a_prev : tensor,
    py_get a (Z.of_nat l - 1) = Ok a_prev /\
    (l = 0 -> a_prev = last a x) /\
    (0 < l -> nth_error a (l - 1) = Some a_prev).
Proof.
  intros Hl. destruct l as [|l].
  - assert (Hne : a <> []) by (destruct a; cbn in Hl; [lia | discriminate]).
    exists (last a x). split; [|split; [reflexivity | lia]].
    apply py_get_minus_one; [|assumption]. now apply nth_error_last.
  - destruct (nth_error a l) as [v|] eqn:E.
    + exists v. split; [now apply py_get_pred|].
      split; [lia|]. intros _. now replace (S l - 1) with l by lia.
    + apply nth_error_None in E. lia.
Qed.

Lemma last_layer_eq (y : tensor) (a : list tensor) (g : grads) (n : nat)
  (a_L a_prev : tensor) :
  nth_error a n = Some a_L ->
  py_get a (Z.of_nat n - 1) = Ok a_prev ->
  n < length (g_deltas g) -> n < length (g_W_grads g) -> n < length (g_b_grads g) ->
  last_layer y a (Z.of_nat n) g =
  (d <- delta_last_spec a_L y ;;
   wg <- weight_gradient_spec d a_prev ;;
   Ok (mkGrads (list_set (g_deltas g) n (Some d))
         (list_set (g_W_grads g) n (Some wg))
         (list_set (g_b_grads g) n (Some d)))).
Proof.
  intros Ha Hprev Hd Hw Hb. unfold last_layer, delta_last_spec, weight_gradient_spec.
  rewrite (py_get_nat _ _ Ha). cbn [bind].
  destruct (tsub a_L y) as [d1|e]; cbn [bind]; [|reflexivity].
  destruct (tmul d1 a_L) as [d2|e]; cbn [bind]; [|reflexivity].
  destruct (tmul d2 (one_minus a_L)) as [d|e]; cbn [bind]; [|reflexivity].
  rewrite py_set_nat by assumption. cbn [bind].
  rewrite py_get_list_set by assumption. cbn [bind tensor_arg].
  rewrite Hprev. cbn [bind].
  destruct (matmul d (transpose a_prev)) as [wg|e]; cbn [bind]; [|reflexivity].
  rewrite py_set_nat by assumption. cbn [bind].
  rewrite py_set_nat by assumption. reflexivity.
Qed.

Lemma backward_body_eq (W a : list tensor) (g : grads) (i : nat)
  (a_l W_next d_next a_prev : tensor) :
  nth_error a i = Some a_l ->
  nth_error W (S i) = Some W_next ->
  nth_error (g_deltas g) (S i) = Some (Some d_next) ->
  py_get a (Z.of_nat i - 1) = Ok a_prev ->
  i < length (g_deltas g) -> i < length (g_W_grads g) -> i < length (g_b_grads g) ->
  backward_body W a (Z.of_nat i) g =
  (d <- delta_hidden_spec W_next d_next a_l ;;
   wg <- weight_gradient_spec d a_prev ;;
   Ok (mkGrads (list_set (g_deltas g) i (Some d))
         (list_set (g_W_grads g) i (Some wg))
         (list_set (g_b_grads g) i (Some d)))).
Proof.
  intros Ha HW Hnext Hprev Hd Hw Hb.
  unfold backward_body, delta_hidden_spec, weight_gradient_spec.
  rewrite (py_get_nat _ _ Ha). cbn [bind].
  replace (Z.of_nat i + 1)%Z with (Z.of_nat (S i)) by lia.
  rewrite (py_get_nat _ _ HW). cbn [bind].
  rewrite (py_get_nat _ _ Hnext). cbn [bind tensor_arg].
  destruct (matmul (transpose W_next) d_next) as [m|e]; cbn [bind]; [|reflexivity].
  destruct (tmul m a_l) as [d2|e]; cbn [bind]; [|reflexivity].
  destruct (tmul d2 (one_minus a_l)) as [d|e]; cbn [bind]; [|reflexivity].
  rewrite py_set_nat by assumption. cbn [bind].
  rewrite py_get_list_set by assumption. cbn [bind tensor_arg].
  rewrite Hprev. cbn [bind].
  destruct (matmul d (transpose a_prev)) as [wg|e]; cbn [bind]; [|reflexivity].
  rewrite py_set_nat by assumption. cbn [bind].
  rewrite py_set_nat by assumption. reflexivity.
Qed.

(** Storing at layer [i] leaves what was stored for later layers as it is. *)
Lemma layer_gradients_frame (y : tensor) (W a : list tensor)
  (ds wgs bgs : list (option tensor)) (i l : nat) (d wg bg : option tensor) :
  i < l ->
  layer_gradients y W a ds wgs bgs l ->
  layer_gradients y W a (list_set ds i d) (list_set wgs i wg) (list_set bgs i bg) l.
Proof.
  intros Hil (a_l & a_prev & delta_l & wg_l & Ha & Hprev & Hdelta & Hwg & H1 & H2 & H3).
  exists a_l, a_prev, delta_l, wg_l.
  rewrite !nth_error_list_set_neq by lia.
  repeat split; assumption.
Qed.

(** The last layer, on lists of [None] of the length of [W]. *)
Lemma last_layer_step (y : tensor) (W a : list tensor) (L : nat) (g : grads) :
  length W = S L -> length a = length W ->
  length (g_deltas g) = length W -> length (g_W_grads g) = length W ->
  length (g_b_grads g) = length W ->
  exists a_L a_prev : tensor,
    nth_error a L = Some a_L /\
    py_get a (Z.of_nat L - 1) = Ok a_prev /\
    last_layer y a (Z.of_nat L) g =
    (d <- delta_last_spec a_L y ;;
     wg <- weight_gradient_spec d a_prev ;;
     Ok (mkGrads (list_set (g_deltas g) L (Some d))
           (list_set (g_W_grads g) L (Some wg))
           (list_set (g_b_grads g) L (Some d)))) /\
    forall d wg : tensor,
      delta_last_spec a_L y = Ok d ->
      weight_gradient_spec d a_prev = Ok wg ->
      backward_inv y W a L
        (mkGrads (list_set (g_deltas g) L (Some d))
           (list_set (g_W_grads g) L (Some wg))
           (list_set (g_b_grads g) L (Some d))).
Proof.
  intros HL Ha Hd Hw Hb.
  destruct (nth_error a L) as [a_L|] eqn:EL;
    [|apply nth_error_None in EL; lia].
  destruct (py_get_previous a a_L (l := L)) as (a_prev & Hprev & _); [lia|].
  exists a_L, a_prev. split; [reflexivity|]. split; [assumption|].
  split; [apply last_layer_eq; auto; lia|].
  intros d wg Hdelta Hwg. unfold backward_inv. cbn [g_deltas g_W_grads g_b_grads].
  rewrite !length_list_set. repeat split; try assumption.
  intros l Hl. assert (l = L) by lia. subst l.
  exists a_L, a_prev, d, wg.
  rewrite !nth_error_list_set_eq by lia.
  rewrite HL, Nat.eqb_refl. auto 10.
Qed.

(** One turn of the loop over [range(L-1, -1, -1)]. *)
Lemma backward_step (y : tensor) (W a : list tensor) (i : nat) (g : grads) :
  S i < length W -> length a = length W ->
  backward_inv y W a (S i) g ->
  exists a_l W_next d_next a_prev : tensor,
    nth_error a i = Some a_l /\
    nth_error W (S i) = Some W_next /\
    nth_error (g_deltas g) (S i) = Some (Some d_next) /\
    py_get a (Z.of_nat i - 1) = Ok a_prev /\
    backward_body W a (Z.of_nat i) g =
    (d <- delta_hidden_spec W_next d_next a_l ;;
     wg <- weight_gradient_spec d a_prev ;;
     Ok (mkGrads (list_set (g_deltas g) i (Some d))
           (list_set (g_W_grads g) i (Some wg))
           (list_set (g_b_grads g) i (Some d)))) /\
    forall d wg : tensor,
      delta_hidden_spec W_next d_next a_l = Ok d ->
      weight_gradient_spec d a_prev = Ok wg ->
      backward_inv y W a i
        (mkGrads (list_set (g_deltas g) i (Some d))
           (list_set (g_W_grads g) i (Some wg))
           (list_set (g_b_grads g) i (Some d))).
Proof.
  intros Hi Ha (Hd & Hw & Hb & Hdone).
  destruct (nth_error a i) as [a_l|] eqn:Ea;
    [|apply nth_error_None in Ea; lia].
  destruct (nth_error W (S i)) as [W_next|] eqn:EW;
    [|apply nth_error_None in EW; lia].
  destruct (Hdone (S i)) as (a_n & p_n & d_next & wg_n & _ & _ & _ & _ & Hnext & _);
    [lia|].
  destruct (py_get_previous a a_l (l := i)) as (a_prev & Hprev & _); [lia|].
  exists a_l, W_next, d_next, a_prev.
  repeat (split; [solve [auto]|]).
  split; [apply backward_body_eq; auto; lia|].
  intros d wg Hdelta Hwg. unfold backward_inv. cbn [g_deltas g_W_grads g_b_grads].
  rewrite !length_list_set. repeat split; try assumption.
  intros l Hl. destruct (Nat.eq_dec l i) as [->|Hne].
  - exists a_l, a_prev, d, wg.
    rewrite !nth_error_list_set_eq by lia.
    replace (S i =? length W) with false by (symmetry; apply Nat.eqb_neq; lia).
    repeat split; auto.
    exists W_next, d_next. rewrite nth_error_list_set_neq by lia. auto.
  - apply layer_gradients_frame; [lia|]. apply Hdone. lia.
Qed.

(** ** Shapes and exceptions of the tensor operations *)

Lemma broadcast_dim_same (n : nat) : broadcast_dim n n = Ok n.
Proof. unfold broadcast_dim. now rewrite Nat.eqb_refl. Qed.

Lemma broadcast_dim_raises (m n : nat) (e : error) :
  broadcast_dim m n = Raise e -> e = ShapeMismatch.
Proof.
  unfold broadcast_dim.
  destruct (m =? n); [discriminate|].
  destruct (m =? 1); [discriminate|].
  destruct (n =? 1); [discriminate|]. congruence.
Qed.

Lemma tmap2_same_shape (f : scalar -> scalar -> scalar) (t u : tensor) :
  rows t = rows u -> cols t = cols u ->
  exists r : tensor, tmap2 f t u = Ok r /\ rows r = rows t /\ cols r = cols t.
Proof.
  intros Hr Hc. unfold tmap2. rewrite <- Hr, <- Hc, !broadcast_dim_same. cbn [bind].
  eexists. split; [reflexivity|]. split; reflexivity.
Qed.

Lemma tmap2_raises (f : scalar -> scalar -> scalar) (t u : tensor) (e : error) :
  tmap2 f t u = Raise e -> e = ShapeMismatch.
Proof.
  unfold tmap2.
  destruct (broadcast_dim (rows t) (rows u)) eqn:Er; cbn [bind].
  - destruct (broadcast_dim (cols t) (cols u)) eqn:Ec; cbn [bind]; [discriminate|].
    intros H. injection H as <-. eapply broadcast_dim_raises; eassumption.
  - intros H. injection H as <-. eapply broadcast_dim_raises; eassumption.
Qed.

Lemma matmul_shape (t u : tensor) :
  cols t = rows u ->
  exists r : tensor, matmul t u = Ok r /\ rows r = rows t /\ cols r = cols u.
Proof.
  intros H. unfold matmul. rewrite H, Nat.eqb_refl.
  eexists. split; [reflexivity|]. split; reflexivity.
Qed.

Lemma matmul_ok_inv (t u r : tensor) :
  matmul t u = Ok r -> cols t = rows u /\ rows r = rows t /\ cols r = cols u.
Proof.
  unfold matmul. destruct (cols t =? rows u) eqn:E; [|discriminate].
  intros H. injection H as <-. apply Nat.eqb_eq in E. auto.
Qed.

Lemma matmul_raises (t u : tensor) (e : error) :
  matmul t u = Raise e -> e = ShapeMismatch.
Proof.
  unfold matmul. destruct (cols t =? rows u); [discriminate | congruence].
Qed.

(** A wrong inner dimension is an exception. *)
Lemma matmul_inner_mismatch (t u : tensor) :
  cols t <> rows u -> matmul t u = Raise ShapeMismatch.
Proof.
  intros H. unfold matmul. apply Nat.eqb_neq in H. now rewrite H.
Qed.

Lemma Z_shape (x W_l b_l : tensor) :
  cols W_l = rows x -> rows b_l = rows W_l -> cols b_l = cols x ->
  exists z : tensor, Z_ x W_l b_l = Ok z /\ rows z = rows W_l /\ cols z = cols x.
Proof.
  intros HW Hb1 Hb2. unfold Z_.
  destruct (matmul_shape W_l x HW) as (m & -> & Hm1 & Hm2). cbn [bind].
  destruct (tmap2_same_shape sadd m b_l) as (z & Hz & Hz1 & Hz2); [congruence..|].
  exists z. unfold tadd. split; [assumption|]. split; congruence.
Qed.

Lemma delta_last_shape (a_L y : tensor) :
  rows y = rows a_L -> cols y = cols a_L ->
  exists d : tensor, delta_last_spec a_L y = Ok d /\ rows d = rows a_L /\ cols d = cols a_L.
Proof.
  intros Hr Hc. unfold delta_last_spec, tsub, tmul.
  destruct (tmap2_same_shape ssub a_L y) as (d1 & -> & H1r & H1c); [congruence..|].
  cbn [bind].
  destruct (tmap2_same_shape smul d1 a_L) as (d2 & -> & H2r & H2c); [congruence..|].
  cbn [bind].
  destruct (tmap2_same_shape smul d2 (one_minus a_L)) as (d & -> & H3r & H3c);
    [cbn; congruence..|].
  exists d. split; [reflexivity|]. split; congruence.
Qed.

Lemma delta_hidden_shape (W_next d_next a_l : tensor) :
  rows W_next = rows d_next -> cols W_next = rows a_l -> cols d_next = cols a_l ->
  exists d : tensor,
    delta_hidden_spec W_next d_next a_l = Ok d /\ rows d = rows a_l /\ cols d = cols a_l.
Proof.
  intros H1 H2 H3. unfold delta_hidden_spec, tmul.
  destruct (matmul_shape (transpose W_next) d_next) as (m & -> & Hmr & Hmc);
    [cbn; congruence|].
  cbn [bind]. cbn [transpose rows cols] in Hmr.
  destruct (tmap2_same_shape smul m a_l) as (d2 & -> & H2r & H2c); [congruence..|].
  cbn [bind].
  destruct (tmap2_same_shape smul d2 (one_minus a_l)) as (d & -> & H3r & H3c);
    [cbn; congruence..|].
  exists d. split; [reflexivity|]. split; congruence.
Qed.

Lemma weight_gradient_shape (d a_prev : tensor) :
  cols d = cols a_prev ->
  exists wg : tensor,
    weight_gradient_spec d a_prev = Ok wg /\ rows wg = rows d /\ cols wg = rows a_prev.
Proof.
  intros H. unfold weight_gradient_spec.
  destruct (matmul_shape d (transpose a_prev)) as (wg & Hwg & Hr & Hc); [cbn; congruence|].
  exists wg. auto.
Qed.

Lemma weight_gradient_ok_inv (d a_prev wg : tensor) :
  weight_gradient_spec d a_prev = Ok wg -> rows wg = rows d /\ cols wg = rows a_prev.
Proof.
  unfold weight_gradient_spec. intros H. apply matmul_ok_inv in H.
  cbn [transpose rows cols] in H. tauto.
Qed.

Lemma delta_last_raises (a_L y : tensor) (e : error) :
  delta_last_spec a_L y = Raise e -> e = ShapeMismatch.
Proof.
  unfold delta_last_spec, tsub, tmul.
  destruct (tmap2 ssub a_L y) as [d1|e1] eqn:E1; cbn [bind];
    [|intros H; injection H as <-; eapply tmap2_raises; eassumption].
  destruct (tmap2 smul d1 a_L) as [d2|e2] eqn:E2; cbn [bind];
    [|intros H; injection H as <-; eapply tmap2_raises; eassumption].
  apply tmap2_raises.
Qed.

Lemma delta_hidden_raises (W_next d_next a_l : tensor) (e : error) :
  delta_hidden_spec W_next d_next a_l = Raise e -> e = ShapeMismatch.
Proof.
  unfold delta_hidden_spec, tmul.
  destruct (matmul (transpose W_next) d_next) as [m|e1] eqn:E1; cbn [bind];
    [|intros H; injection H as <-; eapply matmul_raises; eassumption].
  destruct (tmap2 smul m a_l) as [d2|e2] eqn:E2; cbn [bind];
    [|intros H; injection H as <-; eapply tmap2_raises; eassumption].
  apply tmap2_raises.
Qed.

Lemma mse_loss_raises (a_L y : tensor) (e : error) :
  mse_loss a_L y = Raise e -> e = ShapeMismatch.
Proof.
  unfold mse_loss, tsub.
  destruct (tmap2 ssub a_L y) as [d|e1] eqn:E1; cbn [bind]; [discriminate|].
  intros H; injection H as <-; eapply tmap2_raises; eassumption.
Qed.

Lemma mse_loss_shape (a_L y : tensor) :
  rows y = rows a_L -> cols y = cols a_L ->
  exists loss : tensor, mse_loss a_L y = Ok loss /\ rows loss = rows a_L /\ cols loss = cols a_L.
Proof.
  intros Hr Hc. unfold mse_loss, tsub.
  destruct (tmap2_same_shape ssub a_L y) as (d & -> & Hdr & Hdc); [congruence..|].
  cbn [bind]. eexists. split; [reflexivity|]. cbn. auto.
Qed.

Lemma activations_spec_raises (layers : list (tensor * tensor)) :
  forall (x : tensor) (e : error),
    activations_spec x layers = Raise e -> e = ShapeMismatch.
Proof.
  induction layers as [|[w c] layers IH]; intros x e; [discriminate|].
  cbn [activations_spec].
  destruct (matmul w x) as [m|e1] eqn:E1; cbn [bind];
    [|intros H; injection H as <-; eapply matmul_raises; eassumption].
  destruct (tadd m c) as [z|e2] eqn:E2; cbn [bind];
    [|intros H; injection H as <-; eapply tmap2_raises; eassumption].
  destruct (activations_spec (sigmoid z) layers) as [later|e3] eqn:E3; cbn [bind];
    [discriminate|].
  intros H; injection H as <-. eapply IH; eassumption.
Qed.

Lemma activations_spec_length (layers : list (tensor * tensor)) :
  forall (x : tensor) (acts : list tensor),
    activations_spec x layers = Ok acts -> length acts = length layers.
Proof.
  induction layers as [|[w c] layers IH]; intros x acts H.
  - injection H as <-. reflexivity.
  - cbn [activations_spec] in H.
    destruct (matmul w x) as [m|]; cbn [bind] in H; [|discriminate].
    destruct (tadd m c) as [z|]; cbn [bind] in H; [|discriminate].
    destruct (activations_spec (sigmoid z) layers) as [later|] eqn:E; cbn [bind] in H;
      [|discriminate].
    injection H as <-. cbn [length]. f_equal. eapply IH; eassumption.
Qed.

(** ** Shape-compatible networks *)

Lemma layers_ok_length (W : list tensor) :
  forall (d : nat) (b : list tensor), layers_ok d W b = true -> length b = length W.
Proof.
  induction W as [|w W IH]; intros d [|c b] H; cbn in H; try discriminate; [reflexivity|].
  apply andb_prop in H as [_ H]. cbn [length]. f_equal. eapply IH; eassumption.
Qed.

Lemma layers_ok_nth (W : list tensor) :
  forall (d : nat) (b : list tensor) (l : nat) (W_l : tensor),
    layers_ok d W b = true ->
    nth_error W l = Some W_l ->
    cols W_l = fan_in d W l /\
    exists b_l : tensor, nth_error b l = Some b_l /\ rows b_l = rows W_l /\ cols b_l = 1.
Proof.
  induction W as [|w W IH]; intros d [|c b] l W_l H Hl; cbn in H; try discriminate.
  - destruct l; discriminate.
  - apply andb_prop in H as [H Hrest]. apply andb_prop in H as [H Hc2].
    apply andb_prop in H as [Hw Hc1].
    apply Nat.eqb_eq in Hw, Hc1, Hc2.
    destruct l as [|l]; cbn in Hl.
    + injection Hl as <-. split; [assumption|]. exists c. auto.
    + destruct (IH _ _ _ _ Hrest Hl) as (Hin & b_l & Hb & Hb1 & Hb2).
      split.
      * rewrite Hin. destruct l; reflexivity.
      * exists b_l. auto.
Qed.

Lemma out_units_last (W : list tensor) :
  forall (d : nat) (W_L : tensor),
    nth_error W (length W - 1) = Some W_L -> out_units d W = rows W_L.
Proof.
  induction W as [|w W IH]; intros d W_L H; [discriminate|].
  cbn [out_units]. destruct W as [|w' W'].
  - cbn in H. injection H as <-. reflexivity.
  - apply IH. cbn [length] in *.
    replace (S (S (length W')) - 1) with (S (length (W')) ) in H by lia.
    cbn [nth_error] in H. replace (S (length W') - 1) with (length W') by lia.
    exact H.
Qed.

Lemma activations_valid (W : list tensor) :
  forall (x : tensor) (b : list tensor),
    cols x = 1 -> layers_ok (rows x) W b = true ->
    exists acts : list tensor,
      activations_spec x (combine W b) = Ok acts /\
      length acts = length W /\
      forall (l : nat) (a_l W_l : tensor),
        nth_error acts l = Some a_l -> nth_error W l = Some W_l ->
        rows a_l = rows W_l /\ cols a_l = 1.
Proof.
  induction W as [|w W IH]; intros x [|c b] Hx H; cbn in H; try discriminate.
  - exists []. split; [reflexivity|]. split; [reflexivity|].
    intros [|l] ? ? Hl; discriminate.
  - apply andb_prop in H as [H Hrest]. apply andb_prop in H as [H Hc2].
    apply andb_prop in H as [Hw Hc1].
    apply Nat.eqb_eq in Hw, Hc1, Hc2.
    cbn [combine activations_spec].
    destruct (Z_shape x w c) as (z & Hz & Hzr & Hzc); [congruence..|].
    unfold Z_ in Hz.
    destruct (matmul w x) as [m|]; cbn [bind] in Hz |- *; [|discriminate].
    rewrite Hz. cbn [bind].
    destruct (IH (sigmoid z) b) as (later & Hl & Hlen & Hshape).
    + cbn. congruence.
    + cbn [sigmoid tmap rows]. now rewrite Hzr.
    + rewrite Hl. cbn [bind]. exists (sigmoid z :: later).
      split; [reflexivity|]. split; [cbn; congruence|].
      intros [|l] a_l W_l Ha HWl; cbn in Ha, HWl.
      * injection Ha as <-. injection HWl as <-. cbn. split; congruence.
      * eapply Hshape; eassumption.
Qed.

(** ** The backward sweep as a whole *)

Lemma py_get_in {T : Type} (xs : list T) (i : Z) (v : T) :
  py_get xs i = Ok v -> exists k : nat, nth_error xs k = Some v.
Proof.
  unfold py_get. destruct (py_index xs i) as [k|]; cbn [bind]; [|discriminate].
  destruct (nth_error xs k) eqn:E; [|discriminate].
  intros H. injection H as <-. eauto.
Qed.

(** The loop either completes with every layer done or raises
    ShapeMismatch; with the shapes of the data model ([V]) it completes. *)
Lemma backward_sweep_outcome (V : Prop) (y : tensor) (W a : list tensor)
  (L d_in : nat) (g : grads) :
  length W = S L -> length a = length W ->
  (V -> forall (l : nat) (a_l W_l : tensor),
      nth_error a l = Some a_l -> nth_error W l = Some W_l ->
      rows a_l = rows W_l /\ cols a_l = 1) ->
  (V -> forall (l : nat) (W_l : tensor),
      nth_error W l = Some W_l -> cols W_l = fan_in d_in W l) ->
  backward_inv y W a L g ->
  (V -> delta_shapes W L g) ->
  match backward_sweep W a (Z.of_nat L) g with
  | Ok g' => backward_inv y W a 0 g' /\ (V -> delta_shapes W 0 g')
  | Raise e => e = ShapeMismatch /\ ~ V
  end.
Proof.
  intros HL Ha Hshape Hadj Hinv Hds.
  unfold backward_sweep. rewrite py_range_down_0.
  apply (for_each_down_inv
           (fun k g0 => backward_inv y W a k g0 /\ (V -> delta_shapes W k g0))
           (fun e => e = ShapeMismatch /\ ~ V)); [auto|].
  clear g Hinv Hds. intros i g Hi [Hinv Hds].
  destruct (backward_step (i := i) (g := g) (y := y) (W := W) (a := a))
    as (a_l & W_next & d_next & a_prev & Hal & HWn & Hdn & Hprev & Heq & Hclose);
    [lia | assumption | assumption |].
  rewrite Heq. clear Heq.
  assert (HWi : exists W_i, nth_error W i = Some W_i).
  { destruct (nth_error W i) eqn:E; [eauto|]. apply nth_error_None in E. lia. }
  destruct HWi as [W_i HWi].
  assert (Hcols : V -> cols a_prev = 1).
  { intros v. destruct (py_get_in _ _ Hprev) as [j Hj].
    assert (Hjlt : j < length W) by (rewrite <- Ha; apply nth_error_Some; congruence).
    destruct (nth_error W j) as [W_j|] eqn:E; [|apply nth_error_None in E; lia].
    exact (proj2 (Hshape v _ _ _ Hj E)). }
  assert (Hdelta : V -> exists d0 : tensor,
               delta_hidden_spec W_next d_next a_l = Ok d0 /\
               rows d0 = rows W_i /\ cols d0 = 1).
  { intros v.
    destruct (Hshape v _ _ _ Hal HWi) as [Har Hac].
    destruct (Hds v _ _ _ (Nat.le_refl _) Hdn HWn) as [Hnr Hnc].
    destruct (delta_hidden_shape W_next d_next a_l) as (d0 & Hd0 & Hr & Hc).
    - congruence.
    - rewrite (Hadj v _ _ HWn). cbn [fan_in]. rewrite HWi. congruence.
    - congruence.
    - exists d0. repeat split; congruence. }
  destruct (delta_hidden_spec W_next d_next a_l) as [d|e] eqn:Ed; cbn [bind].
  - destruct (weight_gradient_spec d a_prev) as [wg|e] eqn:Ew; cbn [bind].
    + split; [now apply Hclose|].
      intros v l d' W_l Hl Hd' HWl. cbn [g_deltas] in Hd'.
      destruct (Nat.eq_dec l i) as [->|Hne].
      * rewrite nth_error_list_set_eq in Hd' by (destruct Hinv as [Hlen _]; lia).
        injection Hd' as <-. rewrite HWi in HWl. injection HWl as <-.
        destruct (Hdelta v) as (d0 & Hd0 & Hr & Hc). injection Hd0 as <-. auto.
      * rewrite nth_error_list_set_neq in Hd' by assumption.
        eapply (Hds v); [|eassumption..]. lia.
    + split; [eapply matmul_raises; exact Ew|].
      intros v. destruct (Hdelta v) as (d0 & Hd0 & _ & Hc). injection Hd0 as <-.
      destruct (weight_gradient_shape d a_prev) as (wg & Hwg & _);
        [rewrite (Hcols v); congruence|].
      congruence.
  - split; [eapply delta_hidden_raises; exact Ed|].
    intros v. destruct (Hdelta v) as (d0 & Hd0 & _). discriminate.
Qed.

(** ** forward_backward as a whole *)

Lemma shape_compatible_fb_inv (x y : tensor) (W b : list tensor) :
  shape_compatible_fb x y W b = true ->
  cols x = 1 /\ W <> [] /\ layers_ok (rows x) W b = true /\
  rows y = out_units (rows x) W /\ cols y = 1.
Proof.
  unfold shape_compatible_fb, shape_compatible. intros H.
  apply andb_prop in H as [H Hy2]. apply andb_prop in H as [H Hy1].
  apply andb_prop in H as [H Hl]. apply andb_prop in H as [Hx Hne].
  apply Nat.eqb_eq in Hx, Hy1, Hy2.
  repeat split; try assumption.
  intros ->. discriminate.
Qed.

(** The last loop only reads what the backward sweep has stored. *)
Lemma print_loop_ok (y : tensor) (W b a : list tensor) (g : grads) :
  length W <= length b ->
  backward_inv y W a 0 g ->
  for_each (map Z.of_nat (seq 0 (length W)))
    (fun l _ => _ <- print_layer_reads W b g l ;; Ok tt) tt = Ok tt.
Proof.
  intros Hb (Hd & Hw & Hbg & Hdone).
  apply for_each_up_ok. intros i [] Hi.
  destruct (Hdone i) as (a_l & a_prev & d & wg & _ & _ & _ & _ & H1 & H2 & H3); [lia|].
  destruct (nth_error W i) as [W_i|] eqn:EW; [|apply nth_error_None in EW; lia].
  destruct (nth_error b i) as [b_i|] eqn:Eb; [|apply nth_error_None in Eb; lia].
  unfold print_layer_reads.
  rewrite (py_get_nat _ _ EW), (py_get_nat _ _ H2), (py_get_nat _ _ Eb),
    (py_get_nat _ _ H3), (py_get_nat _ _ H1).
  reflexivity.
Qed.

(** Every run of the body of [forward_backward] on at least one layer and
    as many biases: it returns with the cache of the forward pass, the loss
    of the last activation and every layer done, or raises ShapeMismatch;
    on shape-compatible arguments it returns, and the error terms have the
    shapes of the biases. *)
Lemma forward_backward_pure_outcome (x y : tensor) (W b : list tensor) :
  W <> [] -> length W <= length b ->
  match forward_backward_pure x y W b with
  | Ok v =>
      activations_spec x (combine W b) = Ok (fb_a v) /\
      length (fb_a v) = length W /\
      (exists a_L : tensor,
          nth_error (fb_a v) (length W - 1) = Some a_L /\
          mse_loss a_L y = Ok (fb_loss v)) /\
      backward_inv y W (fb_a v) 0 (mkGrads (fb_deltas v) (fb_W_grads v) (fb_b_grads v)) /\
      (shape_compatible_fb x y W b = true ->
       delta_shapes W 0 (mkGrads (fb_deltas v) (fb_W_grads v) (fb_b_grads v)))
  | Raise e => e = ShapeMismatch /\ shape_compatible_fb x y W b <> true
  end.
Proof.
  intros Hne Hb. unfold forward_backward_pure. cbv zeta.
  rewrite py_range_0.
  assert (HL : exists L, length W = S L)
    by (destruct W; [congruence | cbn; eauto]).
  destruct HL as [L HL].
  replace (Z.of_nat (length W) - 1)%Z with (Z.of_nat L) by lia.
  rewrite forward_sweep_spec by assumption.
  destruct (activations_spec x (combine W b)) as [a|e] eqn:Ea; cbn [bind].
  2:{ split; [eapply activations_spec_raises; eassumption|].
      intros Hv. apply shape_compatible_fb_inv in Hv as (Hx & _ & Hl & _).
      destruct (activations_valid W x b Hx Hl) as (acts & Hacts & _). congruence. }
  assert (Ha : length a = length W).
  { apply activations_spec_length in Ea. rewrite Ea, length_combine. lia. }
  assert (Hshape : shape_compatible_fb x y W b = true ->
                   forall (l : nat) (a_l W_l : tensor),
                     nth_error a l = Some a_l -> nth_error W l = Some W_l ->
                     rows a_l = rows W_l /\ cols a_l = 1).
  { intros Hv. apply shape_compatible_fb_inv in Hv as (Hx & _ & Hl & _).
    destruct (activations_valid W x b Hx Hl) as (acts & Hacts & _ & Hs).
    rewrite Hacts in Ea. injection Ea as <-. exact Hs. }
  assert (Hadj : shape_compatible_fb x y W b = true ->
                 forall (l : nat) (W_l : tensor),
                   nth_error W l = Some W_l -> cols W_l = fan_in (rows x) W l).
  { intros Hv l W_l HWl. apply shape_compatible_fb_inv in Hv as (_ & _ & Hl & _).
    exact (proj1 (layers_ok_nth _ _ _ _ Hl HWl)). }
  set (nones := map (fun _ : Z => @None tensor) (map Z.of_nat (seq 0 (length W)))).
  assert (Hnones : length nones = length W)
    by (unfold nones; now rewrite !length_map, length_seq).
  destruct (@last_layer_step y W a L (mkGrads nones nones nones))
    as (a_L & a_prev & HaL & Hprev & Heq & Hclose); try assumption.
  rewrite (py_get_nat _ _ HaL). cbn [bind].
  assert (HWL : exists W_L, nth_error W L = Some W_L).
  { destruct (nth_error W L) eqn:E; [eauto|]. apply nth_error_None in E. lia. }
  destruct HWL as [W_L HWL].
  assert (HyL : shape_compatible_fb x y W b = true ->
                rows y = rows a_L /\ cols y = cols a_L /\ rows a_L = rows W_L /\ cols a_L = 1).
  { intros Hv. destruct (Hshape Hv _ _ _ HaL HWL) as [Hr Hc].
    apply shape_compatible_fb_inv in Hv as (_ & _ & _ & Hy1 & Hy2).
    rewrite (out_units_last W (rows x) (W_L := W_L)) in Hy1
      by (rewrite HL; now replace (S L - 1) with L by lia).
    repeat split; congruence. }
  destruct (mse_loss a_L y) as [loss|e] eqn:El; cbn [bind].
  2:{ split; [eapply mse_loss_raises; eassumption|].
      intros Hv. destruct (HyL Hv) as (Hy1 & Hy2 & _).
      destruct (mse_loss_shape a_L y Hy1 Hy2) as (l0 & Hl0 & _). congruence. }
  rewrite Heq. clear Heq.
  destruct (delta_last_spec a_L y) as [d|e] eqn:Ed; cbn [bind].
  2:{ split; [eapply delta_last_raises; eassumption|].
      intros Hv. destruct (HyL Hv) as (Hy1 & Hy2 & _).
      destruct (delta_last_shape a_L y Hy1 Hy2) as (d0 & Hd0 & _). congruence. }
  assert (Hdshape : shape_compatible_fb x y W b = true -> rows d = rows W_L /\ cols d = 1).
  { intros Hv. destruct (HyL Hv) as (Hy1 & Hy2 & Hr & Hc).
    destruct (delta_last_shape a_L y Hy1 Hy2) as (d0 & Hd0 & Hr0 & Hc0).
    rewrite Hd0 in Ed. injection Ed as <-. split; congruence. }
  destruct (weight_gradient_spec d a_prev) as [wg|e] eqn:Ew; cbn [bind].
  2:{ split; [eapply matmul_raises; exact Ew|].
      intros Hv. destruct (Hdshape Hv) as [_ Hdc].
      destruct (py_get_in _ _ Hprev) as [j Hj].
      assert (Hjlt : j < length W) by (rewrite <- Ha; apply nth_error_Some; congruence).
      destruct (nth_error W j) as [W_j|] eqn:E; [|apply nth_error_None in E; lia].
      destruct (Hshape Hv _ _ _ Hj E) as [_ Hpc].
      destruct (weight_gradient_shape d a_prev) as (wg & Hwg & _); congruence. }
  specialize (Hclose d wg eq_refl Ew).
  pose proof (@backward_sweep_outcome (shape_compatible_fb x y W b = true)
                y W a L (rows x) _ HL Ha Hshape Hadj Hclose) as Hsweep.
  match type of Hsweep with ?P -> _ => assert (Hinit : P) end.
  { intros Hv l d' W_l Hl Hd' HWl. cbn [g_deltas] in Hd'.
    assert (l < length W) by (apply nth_error_Some; congruence).
    assert (l = L) by lia. subst l.
    rewrite nth_error_list_set_eq in Hd' by lia. injection Hd' as <-.
    rewrite HWL in HWl. injection HWl as <-. exact (Hdshape Hv). }
  specialize (Hsweep Hinit).
  destruct (backward_sweep W a (Z.of_nat L) _) as [g'|e]; cbn [bind]; [|exact Hsweep].
  destruct Hsweep as [Hinv Hds].
  rewrite (@print_loop_ok y W b a g' Hb Hinv). cbn [bind].
  cbn [fb_a fb_loss fb_deltas fb_W_grads fb_b_grads].
  split; [reflexivity|]. split; [assumption|].
  split; [exists a_L; split; [rewrite HL; now replace (S L - 1) with L by lia | assumption]|].
  destruct g' as [ds wgs bgs]. cbn [g_deltas g_W_grads g_b_grads]. split; assumption.
Qed.

(** ** Determinism *)

Lemma append_only_ret {T : Type} (v : T) : append_only (io_ret v).
Proof.
  exists [], (Ok v). intros out. unfold io_ret. now rewrite app_nil_r.
Qed.

Lemma append_only_lift {T : Type} (m : result T) : append_only (lift m).
Proof.
  exists [], m. intros out. unfold lift. now rewrite app_nil_r.
Qed.

Lemma append_only_print (e : out_event) : append_only (print e).
Proof.
  exists [e], (Ok tt). reflexivity.
Qed.

Lemma append_only_bind {T U : Type} (m : IO T) (f : T -> IO U) :
  append_only m -> (forall v : T, append_only (f v)) -> append_only (io_bind m f).
Proof.
  intros (p1 & r1 & H1) Hf. destruct r1 as [v|e].
  - destruct (Hf v) as (p2 & r2 & H2).
    exists (p1 ++ p2), r2. intros out. unfold io_bind.
    rewrite H1, H2. now rewrite app_assoc.
  - exists p1, (Raise e). intros out. unfold io_bind. now rewrite H1.
Qed.

Lemma append_only_for_each {I : Type} (idx : list I) (body : I -> IO unit) :
  (forall i : I, append_only (body i)) -> append_only (io_for_each idx body).
Proof.
  intros Hbody. induction idx as [|i idx IH]; cbn [io_for_each].
  - apply append_only_ret.
  - apply append_only_bind; [apply Hbody | intros _; exact IH].
Qed.

Create HintDb io.
Local Hint Resolve append_only_ret append_only_lift append_only_print : io.

Lemma append_only_print_layer (W b : list tensor) (g : grads) (l : Z) :
  append_only (print_layer W b g l).
Proof.
  unfold print_layer.
  repeat (apply append_only_bind; [solve [auto with io] | intros ?]).
  auto with io.
Qed.

Lemma append_only_forward_backward (x y : tensor) (W b : list tensor) :
  append_only (forward_backward x y W b).
Proof.
  unfold forward_backward, forward_backward_locals. cbv zeta.
  apply append_only_bind; [|auto with io].
  repeat (apply append_only_bind; [solve [auto with io] | intros ?]).
  apply append_only_bind; [|auto with io].
  apply append_only_for_each. intros l. apply append_only_print_layer.
Qed.

(** With lists as values, the standard output is the only state a call
    shares with another: what a call returns (the loss and the two lists of
    gradients, or the exception) and what it prints do not depend on what
    earlier calls left there. *)
Theorem forward_backward_deterministic (x y : tensor) (W b : list tensor) :
  (forall out1 out2 : list out_event,
      returns (forward_backward x y W b) out1 = returns (forward_backward x y W b) out2) /\
  (exists printed : list out_event,
      forall out : list out_event,
        prints (forward_backward x y W b) out = out ++ printed) /\
  (forall out : list out_event,
      returns (io_bind (forward_backward x y W b) (fun r1 =>
               io_bind (forward_backward x y W b) (fun r2 =>
               io_ret (r1, r2)))) out =
      (r <- returns (forward_backward x y W b) out ;; Ok (r, r))).
Proof.
  destruct (append_only_forward_backward x y W b) as (printed & r & H).
  split; [|split].
  - intros out1 out2. unfold returns. now rewrite !H.
  - exists printed. intros out. unfold prints. now rewrite H.
  - intros out. unfold returns, io_bind, io_ret. rewrite H.
    destruct r as [v|e]; cbn [bind snd]; [|reflexivity].
    now rewrite H.
Qed.

(** ** The forward pass *)

(** C5. [forward] computes the layers in order, from layer 0 to layer [L]:
    the pre-activation [weight_l . previous_activation + bias_l], then its
    sigmoid, which is the activation fed to the next layer, the input vector
    being the one fed to layer 0; it returns the last of these activations. *)
Theorem forward_computes_layers (x : tensor) (W b : list tensor) :
  length W = length b ->
  forward x W b = forward_spec x (combine W b) /\
  forward x W b = (acts <- activations_spec x (combine W b) ;; Ok (last acts x)).
Proof.
  intros Hlen. split.
  - apply forward_eq_spec. lia.
  - rewrite forward_eq_spec by lia. apply forward_spec_last.
Qed.

Lemma shape_compatible_inv (x : tensor) (W b : list tensor) :
  shape_compatible x W b = true ->
  cols x = 1 /\ W <> [] /\ layers_ok (rows x) W b = true.
Proof.
  unfold shape_compatible. intros H.
  apply andb_prop in H as [H Hl]. apply andb_prop in H as [Hx Hne].
  apply Nat.eqb_eq in Hx. repeat split; try assumption.
  intros ->. discriminate.
Qed.

Lemma forward_spec_sigmoid (layers : list (tensor * tensor)) :
  forall (x t : tensor),
    layers <> [] -> forward_spec x layers = Ok t -> exists z : tensor, t = sigmoid z.
Proof.
  induction layers as [|[w c] layers IH]; intros x t Hne H; [congruence|].
  cbn [forward_spec] in H.
  destruct (matmul w x) as [m|]; cbn [bind] in H; [|discriminate].
  destruct (tadd m c) as [z|]; cbn [bind] in H; [|discriminate].
  destruct layers as [|p layers].
  - cbn in H. injection H as <-. eauto.
  - eapply IH; [discriminate | eassumption].
Qed.

(** On shape-compatible arguments [forward] returns a sigmoid, a column
    vector with one row per unit of the last layer. *)
Lemma forward_valid (x : tensor) (W b : list tensor) :
  shape_compatible x W b = true ->
  exists z : tensor,
    forward x W b = Ok (sigmoid z) /\
    rows z = out_units (rows x) W /\ cols z = 1.
Proof.
  intros Hv. apply shape_compatible_inv in Hv as (Hx & Hne & Hl).
  pose proof (layers_ok_length _ _ _ Hl) as Hlen.
  destruct (activations_valid _ _ _ Hx Hl) as (acts & Hacts & Hlenacts & Hshape).
  assert (Hfwd : forward_spec x (combine W b) = Ok (last acts x))
    by (now rewrite forward_spec_last, Hacts).
  assert (Hacts_ne : acts <> []).
  { intros ->. destruct W; [congruence | discriminate]. }
  assert (Hlayers_ne : combine W b <> []).
  { destruct W; [congruence|]. destruct b; discriminate. }
  destruct (@forward_spec_sigmoid _ _ _ Hlayers_ne Hfwd) as [z Hz].
  exists z. rewrite forward_eq_spec by lia. rewrite Hfwd, Hz.
  split; [reflexivity|].
  destruct (nth_error W (length W - 1)) as [W_L|] eqn:EW.
  2:{ apply nth_error_None in EW. destruct W; [congruence | cbn in EW; lia]. }
  pose proof (@nth_error_last _ acts x Hacts_ne) as Hlast.
  rewrite Hlenacts in Hlast.
  destruct (Hshape _ _ _ Hlast EW) as [Hr Hc].
  rewrite Hz in Hr, Hc. cbn in Hr, Hc.
  rewrite (@out_units_last W (rows x) W_L EW). auto.
Qed.

(** ** forward_backward on shape-compatible arguments *)

Lemma forward_backward_pure_valid (x y : tensor) (W b : list tensor) :
  shape_compatible_fb x y W b = true ->
  exists v : locals,
    forward_backward_pure x y W b = Ok v /\
    activations_spec x (combine W b) = Ok (fb_a v) /\
    length (fb_a v) = length W /\
    (exists a_L : tensor,
        nth_error (fb_a v) (length W - 1) = Some a_L /\
        mse_loss a_L y = Ok (fb_loss v)) /\
    backward_inv y W (fb_a v) 0 (mkGrads (fb_deltas v) (fb_W_grads v) (fb_b_grads v)) /\
    delta_shapes W 0 (mkGrads (fb_deltas v) (fb_W_grads v) (fb_b_grads v)).
Proof.
  intros Hv. pose proof (shape_compatible_fb_inv _ _ _ _ Hv) as (_ & Hne & Hl & _).
  pose proof (layers_ok_length _ _ _ Hl) as Hlen.
  pose proof (@forward_backward_pure_outcome x y W b Hne) as H.
  destruct (forward_backward_pure x y W b) as [v|e].
  - destruct H as (H1 & H2 & H3 & H4 & H5); [lia|]. exists v. auto 10.
  - destruct H as [_ H]; [lia|]. contradiction.
Qed.

(** The cache entries of a shape-compatible network are column vectors
    with one row per unit of their layer. *)
Lemma cache_shapes (x y : tensor) (W b a : list tensor) :
  shape_compatible_fb x y W b = true ->
  activations_spec x (combine W b) = Ok a ->
  forall (l : nat) (a_l W_l : tensor),
    nth_error a l = Some a_l -> nth_error W l = Some W_l ->
    rows a_l = rows W_l /\ cols a_l = 1.
Proof.
  intros Hv Ha. apply shape_compatible_fb_inv in Hv as (Hx & _ & Hl & _).
  destruct (activations_valid W x b Hx Hl) as (acts & Hacts & _ & Hs).
  rewrite Hacts in Ha. injection Ha as <-. exact Hs.
Qed.

(** C4. The forward sweep of [forward_backward] is [forward]: on
    shape-compatible arguments the call returns, the last entry [a[L]] of
    its cache, from which the loss is computed, is what [forward] returns,
    and the cache holds all [L + 1] activations, entry [l] being what
    [forward] returns on the first [l + 1] layers. *)
Theorem forward_sweep_is_forward (x y : tensor) (W b : list tensor) :
  shape_compatible_fb x y W b = true ->
  forall out : list out_event,
  exists (v : locals) (a_L : tensor),
    returns (forward_backward_locals x y W b) out = Ok v /\
    forward_sweep x W b = Ok (fb_a v) /\
    length (fb_a v) = length W /\
    py_get (fb_a v) (Z.of_nat (length W) - 1) = Ok a_L /\
    forward x W b = Ok a_L /\
    mse_loss a_L y = Ok (fb_loss v) /\
    forall l : nat, l < length W ->
      exists a_l : tensor,
        nth_error (fb_a v) l = Some a_l /\
        forward x (firstn (S l) W) (firstn (S l) b) = Ok a_l.
Proof.
  intros Hv out.
  pose proof (shape_compatible_fb_inv _ _ _ _ Hv) as (_ & Hne & Hl & _).
  pose proof (layers_ok_length _ _ _ Hl) as Hlen.
  destruct (forward_backward_pure_valid _ _ _ _ Hv)
    as (v & Hrun & Hacts & Hla & (a_L & HaL & Hloss) & _ & _).
  exists v, a_L. rewrite forward_backward_locals_returns.
  assert (Hsweep : forward_sweep x W b = Ok (fb_a v))
    by (rewrite forward_sweep_spec by lia; exact Hacts).
  assert (Hane : fb_a v <> []).
  { intros E. rewrite E in Hla. destruct W; [congruence | discriminate]. }
  assert (Hlast : a_L = last (fb_a v) x).
  { pose proof (@nth_error_last _ (fb_a v) x Hane) as H.
    rewrite Hla, HaL in H. now injection H. }
  repeat split; try assumption.
  - rewrite <- Hla, Hlast. now apply py_get_last.
  - rewrite forward_is_last_of_sweep, Hsweep. cbn [bind]. now rewrite Hlast.
  - intros l Hlt.
    destruct (nth_error (fb_a v) l) as [a_l|] eqn:E;
      [|apply nth_error_None in E; lia].
    exists a_l. split; [reflexivity|].
    rewrite forward_eq_spec by (rewrite !length_firstn; lia).
    rewrite <- combine_firstn.
    eapply activations_spec_prefix; eassumption.
Qed.

(** ** The backward sweep *)

(** C3. The last layer of the backward sweep: on shape-compatible
    arguments [deltas[L]] is [(a_L - y) (.) a_L (.) (1 - a_L)], [b_grads[L]]
    is that error term and [W_grads[L]] is its product with the transpose
    of [a[L - 1]], where [a_L = a[L]] and [a[L - 1]] are read from the cache
    of the forward sweep ([a[L - 1]] is the entry before the last when there
    is more than one layer). *)
Theorem last_layer_backward (x y : tensor) (W b : list tensor) :
  shape_compatible_fb x y W b = true ->
  forall out : list out_event,
  exists (v : locals) (a_L a_prev delta_L wg : tensor),
    returns (forward_backward_locals x y W b) out = Ok v /\
    forward_sweep x W b = Ok (fb_a v) /\
    py_get (fb_a v) (Z.of_nat (length W) - 1) = Ok a_L /\
    py_get (fb_a v) (Z.of_nat (length W) - 1 - 1) = Ok a_prev /\
    (1 < length W -> nth_error (fb_a v) (length W - 2) = Some a_prev) /\
    delta_last_spec a_L y = Ok delta_L /\
    weight_gradient_spec delta_L a_prev = Ok wg /\
    nth_error (fb_deltas v) (length W - 1) = Some (Some delta_L) /\
    nth_error (fb_W_grads v) (length W - 1) = Some (Some wg) /\
    nth_error (fb_b_grads v) (length W - 1) = Some (Some delta_L).
Proof.
  intros Hv out.
  pose proof (shape_compatible_fb_inv _ _ _ _ Hv) as (_ & Hne & Hl & _).
  pose proof (layers_ok_length _ _ _ Hl) as Hlen.
  destruct (forward_backward_pure_valid _ _ _ _ Hv)
    as (v & Hrun & Hacts & Hla & _ & (_ & _ & _ & Hdone) & _).
  assert (HL : exists L, length W = S L) by (destruct W; [congruence | cbn; eauto]).
  destruct HL as [L HL].
  destruct (Hdone L) as (a_L & a_prev & delta_L & wg & Ha & Hprev & Hdelta & Hwg & H1 & H2 & H3);
    [lia|].
  cbn [g_deltas g_W_grads g_b_grads] in *.
  rewrite HL, Nat.eqb_refl in Hdelta.
  exists v, a_L, a_prev, delta_L, wg.
  rewrite forward_backward_locals_returns.
  replace (length W - 1) with L by lia.
  replace (Z.of_nat (length W) - 1)%Z with (Z.of_nat L) by lia.
  repeat split; try assumption.
  - rewrite forward_sweep_spec by lia. exact Hacts.
  - now apply py_get_nat.
  - intros Hgt. destruct (py_get_previous (fb_a v) a_L (l := L)) as (p & Hp & _ & Hp');
      [lia|].
    rewrite Hp in Hprev. injection Hprev as <-.
    replace (length W - 2) with (L - 1) by lia. apply Hp'. lia.
Qed.

(** The shapes of what [forward_backward] returns on shape-compatible
    arguments: every bias gradient has the shape of its bias and every
    weight gradient but the first the shape of its weight; the first weight
    gradient has one column per unit of the last layer, because [a[l - 1]]
    is [a[-1]] for [l = 0]. *)
Lemma gradient_shapes (x y : tensor) (W b : list tensor) :
  shape_compatible_fb x y W b = true ->
  exists v : locals,
    forward_backward_pure x y W b = Ok v /\
    length (fb_W_grads v) = length W /\
    length (fb_b_grads v) = length W /\
    forall (l : nat) (W_l b_l : tensor),
      nth_error W l = Some W_l -> nth_error b l = Some b_l ->
      exists wg bg : tensor,
        nth_error (fb_W_grads v) l = Some (Some wg) /\
        nth_error (fb_b_grads v) l = Some (Some bg) /\
        shape bg = shape b_l /\
        shape wg = (rows W_l,
                    match l with
                    | O => out_units (rows x) W
                    | S _ => cols W_l
                    end).
Proof.
  intros Hv.
  pose proof (shape_compatible_fb_inv _ _ _ _ Hv) as (Hx & Hne & Hl & _).
  destruct (forward_backward_pure_valid _ _ _ _ Hv)
    as (v & Hrun & Hacts & Hla & _ & (_ & Hlw & Hlb & Hdone) & Hds).
  cbn [g_deltas g_W_grads g_b_grads] in *.
  exists v. repeat split; try assumption.
  intros l W_l b_l HWl Hbl.
  assert (Hlt : l < length W) by (apply nth_error_Some; congruence).
  destruct (Hdone l) as (a_l & a_prev & d & wg & Ha & Hprev & _ & Hwg & H1 & H2 & H3);
    [lia|].
  cbn [g_deltas g_W_grads g_b_grads] in *.
  exists wg, d. repeat split; try assumption.
  - destruct (Hds l d W_l) as [Hr Hc]; [lia | assumption..|].
    destruct (layers_ok_nth _ _ _ _ Hl HWl) as (_ & b_l' & Hb' & Hbr & Hbc).
    rewrite Hbl in Hb'. injection Hb' as <-.
    unfold shape. congruence.
  - destruct (Hds l d W_l) as [Hr Hc]; [lia | assumption..|].
    apply weight_gradient_ok_inv in Hwg as [Hwr Hwc].
    unfold shape. rewrite Hwr, Hwc, Hr. f_equal.
    destruct (py_get_previous (fb_a v) x (l := l)) as (p & Hp & Hp0 & HpS); [lia|].
    rewrite Hp in Hprev. injection Hprev as <-.
    destruct l as [|l].
    + rewrite (Hp0 eq_refl).
      assert (Hane : fb_a v <> []).
      { intros E. rewrite E in Hla. destruct W; [congruence | discriminate]. }
      pose proof (@nth_error_last _ (fb_a v) x Hane) as Hlast. rewrite Hla in Hlast.
      destruct (nth_error W (length W - 1)) as [W_L|] eqn:EW;
        [|apply nth_error_None in EW; lia].
      rewrite (@out_units_last W (rows x) W_L EW).
      exact (proj1 (@cache_shapes x y W b (fb_a v) Hv Hacts _ _ _ Hlast EW)).
    + specialize (HpS (Nat.lt_0_succ l)). replace (S l - 1) with l in HpS by lia.
      destruct (nth_error W l) as [W_p|] eqn:EW;
        [|apply nth_error_None in EW; lia].
      rewrite (proj1 (layers_ok_nth _ _ _ _ Hl HWl)). cbn [fan_in]. rewrite EW.
      exact (proj1 (@cache_shapes x y W b (fb_a v) Hv Hacts _ _ _ HpS EW)).
Qed.

(** The first layer of the backward sweep multiplies its error term with
    the transpose of the last cached activation. *)
Lemma first_layer_gradient (x y : tensor) (W b : list tensor) :
  shape_compatible_fb x y W b = true ->
  exists (v : locals) (a_L delta_0 wg : tensor),
    forward_backward_pure x y W b = Ok v /\
    nth_error (fb_a v) (length W - 1) = Some a_L /\
    rows a_L = out_units (rows x) W /\
    nth_error (fb_deltas v) 0 = Some (Some delta_0) /\
    weight_gradient_spec delta_0 a_L = Ok wg /\
    nth_error (fb_W_grads v) 0 = Some (Some wg).
Proof.
  intros Hv.
  pose proof (shape_compatible_fb_inv _ _ _ _ Hv) as (Hx & Hne & Hl & _).
  destruct (forward_backward_pure_valid _ _ _ _ Hv)
    as (v & Hrun & Hacts & Hla & (a_L & HaL & _) & (_ & _ & _ & Hdone) & _).
  assert (Hpos : 0 < length W) by (destruct W; [congruence | cbn; lia]).
  destruct (Hdone 0) as (a_l & a_prev & d & wg & Ha & Hprev & _ & Hwg & H1 & H2 & _);
    [lia|].
  cbn [g_deltas g_W_grads g_b_grads] in *.
  exists v, a_L, d, wg. repeat split; try assumption.
  { destruct (nth_error W (length W - 1)) as [W_L|] eqn:EW;
      [|apply nth_error_None in EW; lia].
    rewrite (@out_units_last W (rows x) W_L EW).
    exact (proj1 (@cache_shapes x y W b (fb_a v) Hv Hacts _ _ _ HaL EW)). }
  destruct (py_get_previous (fb_a v) x (l := 0)) as (p & Hp & Hp0 & _); [lia|].
  rewrite Hp in Hprev. injection Hprev as <-. rewrite (Hp0 eq_refl) in Hwg.
  assert (Hane : fb_a v <> []).
  { intros E. rewrite E in Hla. cbn in Hla. lia. }
  pose proof (@nth_error_last _ (fb_a v) x Hane) as Hlast.
  rewrite Hla, HaL in Hlast. injection Hlast as ->. exact Hwg.
Qed.

(** The layers below the last: the error term of layer [l] comes from the
    one of layer [l + 1] and is the bias gradient; from layer 1 on, the
    weight gradient is its product with the transposed activation of layer
    [l - 1]. *)
Lemma hidden_layer_backward (x y : tensor) (W b : list tensor) :
  shape_compatible_fb x y W b = true ->
  exists v : locals,
    forward_backward_pure x y W b = Ok v /\
    forall l : nat, S l < length W ->
      exists a_l W_next delta_next delta_l : tensor,
        nth_error (fb_a v) l = Some a_l /\
        nth_error W (S l) = Some W_next /\
        nth_error (fb_deltas v) (S l) = Some (Some delta_next) /\
        delta_hidden_spec W_next delta_next a_l = Ok delta_l /\
        nth_error (fb_deltas v) l = Some (Some delta_l) /\
        nth_error (fb_b_grads v) l = Some (Some delta_l) /\
        (0 < l ->
         exists a_prev wg : tensor,
           nth_error (fb_a v) (l - 1) = Some a_prev /\
           weight_gradient_spec delta_l a_prev = Ok wg /\
           nth_error (fb_W_grads v) l = Some (Some wg)).
Proof.
  intros Hv.
  destruct (forward_backward_pure_valid _ _ _ _ Hv)
    as (v & Hrun & Hacts & Hla & _ & (_ & _ & _ & Hdone) & _).
  exists v. split; [assumption|]. intros l Hlt.
  destruct (Hdone l) as (a_l & a_prev & d & wg & Ha & Hprev & Hdelta & Hwg & H1 & H2 & H3);
    [lia|].
  cbn [g_deltas g_W_grads g_b_grads] in *.
  replace (S l =? length W) with false in Hdelta by (symmetry; apply Nat.eqb_neq; lia).
  destruct Hdelta as (W_next & d_next & HWn & Hdn & Hd).
  exists a_l, W_next, d_next, d. repeat split; try assumption.
  intros Hpos. exists a_prev, wg. repeat split; try assumption.
  destruct (py_get_previous (fb_a v) x (l := l)) as (p & Hp & _ & HpS); [lia|].
  rewrite Hp in Hprev. injection Hprev as <-. now apply HpS.
Qed.

Lemma singleton_of_nth {T : Type} (xs : list T) (v : T) :
  length xs = 1 -> nth_error xs 0 = Some v -> xs = [v].
Proof.
  destruct xs as [|v0 [|v1 xs]]; cbn; intros Hlen H; try discriminate.
  now injection H as ->.
Qed.

(** C10. A network of one layer ([L = 0]): the loop over
    [range(L-1, -1, -1)] has no index to visit, the cache has the single
    entry [a_0], which is what [a[L - 1] = a[-1]] reads, and the call returns
    the weight gradient [delta_0 . transpose(a_0)], of shape
    [(units_0, units_0)], not [delta_0 . transpose(x)], which has the shape
    of the weight. *)
Theorem single_layer_weight_gradient (x y w0 b0 : tensor) :
  shape_compatible_fb x y [w0] [b0] = true ->
  forall out : list out_event,
    py_range_down (Z.of_nat (length [w0]) - 1 - 1) (-1) = [] /\
    exists z0 delta_0 wg wg_x loss : tensor,
      Z_ x w0 b0 = Ok z0 /\
      forward_sweep x [w0] [b0] = Ok [A z0] /\
      py_get [A z0] (Z.of_nat (length [w0]) - 1 - 1) = py_get [A z0] 0 /\
      delta_last_spec (A z0) y = Ok delta_0 /\
      weight_gradient_spec delta_0 (A z0) = Ok wg /\
      returns (forward_backward x y [w0] [b0]) out = Ok (loss, [Some wg], [Some delta_0]) /\
      shape wg = (rows w0, rows w0) /\
      weight_gradient_spec delta_0 x = Ok wg_x /\
      shape wg_x = shape w0.
Proof.
  intros Hv out. split; [reflexivity|].
  pose proof (shape_compatible_fb_inv _ _ _ _ Hv) as (Hx & _ & Hl & _).
  destruct (forward_backward_pure_valid _ _ _ _ Hv)
    as (v & Hrun & Hacts & Hla & _ & (Hld & Hlw & Hlb & Hdone) & Hds).
  cbn [g_deltas g_W_grads g_b_grads length] in *.
  cbn [combine activations_spec] in Hacts.
  destruct (matmul w0 x) as [m|] eqn:Em; cbn [bind] in Hacts; [|discriminate].
  destruct (tadd m b0) as [z0|] eqn:Ez; cbn [bind] in Hacts; [|discriminate].
  injection Hacts as Hacts.
  destruct (Hdone 0) as (a_l & a_prev & d & wg & Ha & Hprev & Hdelta & Hwg & H1 & H2 & H3);
    [lia|].
  cbn [g_deltas g_W_grads g_b_grads length Nat.eqb] in *.
  rewrite <- Hacts in Ha, Hprev. cbn in Ha. injection Ha as <-.
  change (py_get [sigmoid z0] (0 - 1)) with (Ok (sigmoid z0)) in Hprev.
  injection Hprev as <-.
  destruct (Hds 0 d w0) as [Hdr Hdc]; [lia | assumption | reflexivity |].
  destruct (weight_gradient_shape d x) as (wg_x & Hwgx & Hxr & Hxc); [congruence|].
  exists z0, d, wg, wg_x, (fb_loss v).
  assert (HZ : Z_ x w0 b0 = Ok z0) by (unfold Z_; rewrite Em; exact Ez).
  repeat split.
  - exact HZ.
  - rewrite forward_sweep_spec by (cbn; lia). cbn [combine activations_spec].
    now rewrite Em; cbn [bind]; rewrite Ez.
  - exact Hdelta.
  - exact Hwg.
  - rewrite forward_backward_returns, Hrun. cbn [bind].
    now rewrite (singleton_of_nth _ Hlw H2), (singleton_of_nth _ Hlb H3).
  - apply weight_gradient_ok_inv in Hwg as [Hwr Hwc].
    destruct (Z_shape x w0 b0) as (z & Hz & Hzr & _).
    + exact (proj1 (layers_ok_nth [w0] (rows x) [b0] 0 Hl eq_refl)).
    + destruct (layers_ok_nth [w0] (rows x) [b0] 0 Hl eq_refl) as (_ & c & Hc & ? & _).
      cbn in Hc. injection Hc as <-. assumption.
    + destruct (layers_ok_nth [w0] (rows x) [b0] 0 Hl eq_refl) as (_ & c & Hc & _ & ?).
      cbn in Hc. injection Hc as <-. congruence.
    + rewrite HZ in Hz. injection Hz as <-.
      unfold shape. rewrite Hwr, Hwc, Hdr. cbn. now rewrite Hzr.
  - exact Hwgx.
  - unfold shape. rewrite Hxr, Hxc, Hdr. f_equal.
    symmetry. exact (proj1 (layers_ok_nth [w0] (rows x) [b0] 0 Hl eq_refl)).
Qed.

(** ** Exceptions *)

Lemma forward_spec_raises (layers : list (tensor * tensor)) (x : tensor) (e : error) :
  forward_spec x layers = Raise e -> e = ShapeMismatch.
Proof.
  rewrite forward_spec_last.
  destruct (activations_spec x layers) as [acts|e'] eqn:E; cbn [bind]; [discriminate|].
  intros H. injection H as <-. eapply activations_spec_raises; eassumption.
Qed.

(** A weight whose number of columns is not the number of rows of the
    activation that reaches it. *)
Lemma forward_spec_inner_mismatch (W : list tensor) :
  forall (b : list tensor) (x : tensor) (l : nat) (W_l a_prev : tensor),
    length W <= length b ->
    nth_error W l = Some W_l ->
    forward_spec x (combine (firstn l W) (firstn l b)) = Ok a_prev ->
    cols W_l <> rows a_prev ->
    forward_spec x (combine W b) = Raise ShapeMismatch.
Proof.
  induction W as [|w W IH]; intros b x l W_l a_prev Hlen HWl Hpre Hmis.
  - destruct l; discriminate.
  - destruct b as [|c b]; [cbn in Hlen; lia|].
    destruct l as [|l].
    + cbn in HWl, Hpre. injection HWl as <-. injection Hpre as <-.
      cbn [combine forward_spec]. now rewrite matmul_inner_mismatch.
    + cbn [firstn combine forward_spec nth_error] in *.
      destruct (matmul w x) as [m|]; cbn [bind] in *; [|discriminate].
      destruct (tadd m c) as [z|]; cbn [bind] in *; [|discriminate].
      eapply IH; try eassumption. cbn in Hlen. lia.
Qed.

(** A layer whose pre-activation raises: a weight that does not fit the
    activation, or a bias that does not broadcast with their product. *)
Lemma forward_spec_layer_raises (W : list tensor) :
  forall (b : list tensor) (x : tensor) (l : nat) (W_l b_l a_prev : tensor) (e : error),
    nth_error W l = Some W_l ->
    nth_error b l = Some b_l ->
    forward_spec x (combine (firstn l W) (firstn l b)) = Ok a_prev ->
    Z_ a_prev W_l b_l = Raise e ->
    forward_spec x (combine W b) = Raise ShapeMismatch.
Proof.
  induction W as [|w W IH]; intros b x l W_l b_l a_prev e HWl Hbl Hpre HZ.
  - destruct l; discriminate.
  - destruct b as [|c b]; [destruct l; discriminate|].
    destruct l as [|l].
    + cbn in HWl, Hbl, Hpre. injection HWl as <-. injection Hbl as <-.
      injection Hpre as <-. cbn [combine forward_spec]. unfold Z_ in HZ.
      destruct (matmul w x) as [m|e1] eqn:Em; cbn [bind] in HZ |- *.
      * rewrite HZ. cbn [bind]. f_equal. eapply tmap2_raises; exact HZ.
      * f_equal. eapply matmul_raises; exact Em.
    + cbn [firstn combine forward_spec nth_error] in *.
      destruct (matmul w x) as [m|]; cbn [bind] in *; [|discriminate].
      destruct (tadd m c) as [z|]; cbn [bind] in *; [|discriminate].
      eapply IH; eassumption.
Qed.

Lemma forward_backward_raises_with_forward (x y : tensor) (W b : list tensor) (e : error) :
  forward x W b = Raise e -> forward_backward_pure x y W b = Raise e.
Proof.
  rewrite forward_is_last_of_sweep. unfold forward_backward_pure. cbv zeta.
  destruct (forward_sweep x W b) as [a|e']; cbn [bind]; [discriminate|].
  intros H. now injection H as ->.
Qed.

(** A bias list shorter than the weight list: the layer that has no bias
    raises IndexError. *)
Lemma forward_short_bias (x : tensor) (W b : list tensor) (a : tensor) :
  length b < length W ->
  forward x (firstn (length b) W) b = Ok a ->
  forward x W b = Raise IndexError.
Proof.
  intros Hlt Hpre. unfold forward in *. rewrite py_range_0 in *.
  rewrite length_firstn, Nat.min_l in Hpre by lia.
  replace (length W) with (length b + S (length W - length b - 1)) at 1 by lia.
  rewrite seq_app, map_app, for_each_app, Nat.add_0_l.
  rewrite (for_each_ext _ _ (forward_body (firstn (length b) W) b)).
  - rewrite Hpre. cbn [bind seq map for_each]. unfold forward_body.
    destruct (nth_error W (length b)) as [w|] eqn:E; [|apply nth_error_None in E; lia].
    rewrite (py_get_nat _ _ E). cbn [bind].
    now rewrite py_get_nat_out by lia.
  - intros i st Hi. apply in_map_iff in Hi as (k & <- & Hk). apply in_seq in Hk.
    unfold forward_body. now rewrite py_get_firstn by lia.
Qed.

(** Without a layer [forward_backward] reads [a[-1]] in an empty cache. *)
Lemma forward_backward_no_layer (x y : tensor) (b : list tensor) :
  forward_backward_pure x y [] b = Raise IndexError.
Proof. reflexivity. Qed.

(** [forward] raises only at a layer whose pre-activation raises. *)
Lemma forward_spec_raises_at (W : list tensor) :
  forall (b : list tensor) (x : tensor) (e : error),
    length W <= length b ->
    forward_spec x (combine W b) = Raise e ->
    exists (l : nat) (W_l b_l a_prev : tensor),
      nth_error W l = Some W_l /\
      nth_error b l = Some b_l /\
      forward_spec x (combine (firstn l W) (firstn l b)) = Ok a_prev /\
      Z_ a_prev W_l b_l = Raise e.
Proof.
  induction W as [|w W IH]; intros b x e Hlen H; [discriminate|].
  destruct b as [|c b]; [cbn in Hlen; lia|].
  cbn [combine forward_spec] in H.
  destruct (matmul w x) as [m|e1] eqn:Em; cbn [bind] in H.
  - destruct (tadd m c) as [z|e2] eqn:Ez; cbn [bind] in H.
    + apply IH in H as (l & W_l & b_l & a_prev & HW & Hb & Hpre & HZ);
        [|cbn in Hlen; lia].
      exists (S l), W_l, b_l, a_prev. cbn [nth_error firstn combine forward_spec].
      rewrite Em. cbn [bind]. rewrite Ez. cbn [bind]. auto.
    + exists 0, w, c, x. unfold Z_. rewrite Em. cbn [bind].
      repeat split; try reflexivity; congruence.
  - exists 0, w, c, x. unfold Z_. rewrite Em. cbn [bind].
    repeat split; try reflexivity; congruence.
Qed.

(** C8, as the code has it. Neither function checks a shape itself. With a
    bias for every weight, [forward] raises only at a layer whose
    pre-activation raises, and then it raises ShapeMismatch, the exception of
    a matrix product whose inner dimensions differ and of a sum whose
    operands do not broadcast; whenever the pre-activation of a layer raises,
    in particular when the number of columns of its weight is not the number
    of rows of the activation that reaches it, [forward] and
    [forward_backward] both raise ShapeMismatch; and [forward] returns
    whenever the pre-activation of every layer is defined, inside the data
    model or not. [forward_backward] raises what [forward] raises, and with
    at least one layer and a bias for every weight ShapeMismatch is the only
    exception it raises. A layer without a bias makes both raise IndexError
    once the layers before it have run, and so does [forward_backward]
    without a layer. On shape-compatible arguments neither raises. *)
Theorem shape_mismatch_failures (x y : tensor) (W b : list tensor) :
  (length W <= length b ->
   forall e : error, forward x W b = Raise e -> e = ShapeMismatch) /\
  (W <> [] -> length W <= length b ->
   forall (out : list out_event) (e : error),
     returns (forward_backward x y W b) out = Raise e -> e = ShapeMismatch) /\
  (forall (l : nat) (W_l a_prev : tensor),
      length W <= length b ->
      nth_error W l = Some W_l ->
      forward x (firstn l W) (firstn l b) = Ok a_prev ->
      cols W_l <> rows a_prev ->
      forward x W b = Raise ShapeMismatch /\
      forall out : list out_event,
        returns (forward_backward x y W b) out = Raise ShapeMismatch) /\
  (forall (l : nat) (W_l b_l a_prev : tensor) (e : error),
      length W <= length b ->
      nth_error W l = Some W_l ->
      nth_error b l = Some b_l ->
      forward x (firstn l W) (firstn l b) = Ok a_prev ->
      Z_ a_prev W_l b_l = Raise e ->
      forward x W b = Raise ShapeMismatch /\
      forall out : list out_event,
        returns (forward_backward x y W b) out = Raise ShapeMismatch) /\
  (shape_compatible x W b = true ->
   exists a_L : tensor, forward x W b = Ok a_L) /\
  (shape_compatible_fb x y W b = true ->
   forall out : list out_event,
   exists r : tensor * list (option tensor) * list (option tensor),
     returns (forward_backward x y W b) out = Ok r) /\
  (length b < length W ->
   forall a : tensor,
     forward x (firstn (length b) W) b = Ok a ->
     forward x W b = Raise IndexError) /\
  (W = [] ->
   forall out : list out_event,
     returns (forward_backward x y W b) out = Raise IndexError) /\
  (length W <= length b ->
   forall e : error,
     forward x W b = Raise e ->
     exists (l : nat) (W_l b_l a_prev : tensor),
       nth_error W l = Some W_l /\
       nth_error b l = Some b_l /\
       forward x (firstn l W) (firstn l b) = Ok a_prev /\
       Z_ a_prev W_l b_l = Raise e) /\
  (length W <= length b ->
   (forall (l : nat) (W_l b_l a_prev : tensor),
       nth_error W l = Some W_l ->
       nth_error b l = Some b_l ->
       forward x (firstn l W) (firstn l b) = Ok a_prev ->
       exists z_l : tensor, Z_ a_prev W_l b_l = Ok z_l) ->
   exists a_L : tensor, forward x W b = Ok a_L) /\
  (forall e : error,
      forward x W b = Raise e ->
      forall out : list out_event,
        returns (forward_backward x y W b) out = Raise e) /\
  (length b < length W ->
   forall a : tensor,
     forward x (firstn (length b) W) b = Ok a ->
     forall out : list out_event,
       returns (forward_backward x y W b) out = Raise IndexError).
Proof.
  assert (Hat : length W <= length b ->
                forall e : error,
                  forward x W b = Raise e ->
                  exists (l : nat) (W_l b_l a_prev : tensor),
                    nth_error W l = Some W_l /\
                    nth_error b l = Some b_l /\
                    forward x (firstn l W) (firstn l b) = Ok a_prev /\
                    Z_ a_prev W_l b_l = Raise e).
  { intros Hlen e H. rewrite forward_eq_spec in H by assumption.
    apply forward_spec_raises_at in H as (l & W_l & b_l & a_prev & HW & Hb & Hpre & HZ);
      [|assumption].
    exists l, W_l, b_l, a_prev.
    rewrite forward_eq_spec by (rewrite !length_firstn; lia). auto. }
  assert (Hfb : forall e : error,
             forward x W b = Raise e ->
             forall out : list out_event,
               returns (forward_backward x y W b) out = Raise e).
  { intros e Hf out. rewrite forward_backward_returns.
    now rewrite (@forward_backward_raises_with_forward x y W b _ Hf). }
  split; [|split; [|split; [|split; [|split; [|split; [|split;
    [|split; [|split; [|split; [|split]]]]]]]]]].
  - intros Hlen e. rewrite forward_eq_spec by assumption. apply forward_spec_raises.
  - intros Hne Hlen out e. rewrite forward_backward_returns.
    pose proof (@forward_backward_pure_outcome x y W b Hne Hlen) as H.
    destruct (forward_backward_pure x y W b) as [v|e']; cbn [bind]; [discriminate|].
    intros He. injection He as <-. exact (proj1 H).
  - intros l W_l a_prev Hlen HWl Hpre Hmis.
    assert (Hf : forward x W b = Raise ShapeMismatch).
    { rewrite forward_eq_spec by assumption.
      rewrite forward_eq_spec in Hpre by (rewrite !length_firstn; lia).
      eapply forward_spec_inner_mismatch; eassumption. }
    split; [exact Hf|]. intros out.
    rewrite forward_backward_returns.
    now rewrite (@forward_backward_raises_with_forward x y W b _ Hf).
  - intros l W_l b_l a_prev e Hlen HWl Hbl Hpre HZ.
    assert (Hf : forward x W b = Raise ShapeMismatch).
    { rewrite forward_eq_spec by assumption.
      rewrite forward_eq_spec in Hpre by (rewrite !length_firstn; lia).
      eapply forward_spec_layer_raises; eassumption. }
    split; [exact Hf|]. intros out.
    rewrite forward_backward_returns.
    now rewrite (@forward_backward_raises_with_forward x y W b _ Hf).
  - intros Hv. destruct (forward_valid _ _ _ Hv) as (z & Hz & _). eauto.
  - intros Hv out. destruct (forward_backward_pure_valid _ _ _ _ Hv) as (v & Hrun & _).
    rewrite forward_backward_returns, Hrun. cbn [bind]. eauto.
  - intros Hlt a Hpre. eapply forward_short_bias; eassumption.
  - intros -> out. now rewrite forward_backward_returns, forward_backward_no_layer.
  - exact Hat.
  - intros Hlen Hdef. destruct (forward x W b) as [a_L|e] eqn:Hf; [eauto|].
    destruct (Hat Hlen e eq_refl) as (l & W_l & b_l & a_prev & HW & Hb & Hpre & HZ).
    destruct (Hdef l W_l b_l a_prev HW Hb Hpre) as (z_l & Hz). congruence.
  - exact Hfb.
  - intros Hlt a Hpre. apply Hfb. eapply forward_short_bias; eassumption.
Qed.

(** On shape-compatible weights, biases and input, [forward] returns a
    vector of shape [(units_L, 1)] that is the sigmoid of a pre-activation of
    that shape: every element is a value of the sigmoid of the element type,
    and so has every property that all values of that sigmoid have. *)
Lemma forward_is_sigmoid (x : tensor) (W b : list tensor) :
  shape_compatible x W b = true ->
  exists z_L : tensor,
    forward x W b = Ok (A z_L) /\
    shape (A z_L) = (out_units (rows x) W, 1) /\
    (forall i j : nat, elem (A z_L) i j = ssigmoid (elem z_L i j)) /\
    forall P : scalar -> Prop,
      (forall v : scalar, P (ssigmoid v)) ->
      forall i j : nat, P (elem (A z_L) i j).
Proof.
  intros Hv. destruct (forward_valid _ _ _ Hv) as (z & Hz & Hr & Hc).
  exists z. split; [exact Hz|]. split.
  - unfold shape, A. cbn. now rewrite Hr, Hc.
  - split; [reflexivity|]. intros P HP i j. apply HP.
Qed.

End NetProofs.

(** * Real numbers: the range of the sigmoid, the sign of the loss, and the
    network of the notebook *)

Module RealNetFacts.

Import RealNet.

Lemma Rsigmoid_range (v : R) : (0 < Rsigmoid v < 1)%R.
Proof.
  unfold Rsigmoid. pose proof (exp_pos (- v)) as Hexp.
  split.
  - apply Rinv_0_lt_compat. lra.
  - assert (H : (/ (1 + exp (- v)) < / 1)%R) by (apply Rinv_lt_contravar; lra).
    now rewrite Rinv_1 in H.
Qed.

(** Over the real numbers: on shape-compatible weights, biases and input,
    [forward] returns a vector of shape [(units_L, 1)] whose elements all lie
    strictly between 0 and 1. *)
Theorem forward_output_range (x : tensor) (W b : list tensor) :
  shape_compatible x W b = true ->
  exists a_L : tensor,
    forward x W b = Ok a_L /\
    shape a_L = (out_units (rows x) W, 1) /\
    forall i j : nat, i < rows a_L -> j < cols a_L -> (0 < elem a_L i j < 1)%R.
Proof.
  intros Hv. destruct (forward_valid _ _ _ Hv) as (z & Hz & Hr & Hc).
  exists (sigmoid z). split; [assumption|]. split.
  - unfold shape. cbn. now rewrite Hr, Hc.
  - intros i j _ _. cbn. apply Rsigmoid_range.
Qed.

(** Over the real numbers: the loss is one half of the squared difference,
    element by element (an operand with a dimension of size one is
    broadcast), so it is never negative, and it is exactly 0 when the
    prediction is the ground truth. *)
Theorem mse_loss_half_square :
  (forall a_L y loss : tensor,
      mse_loss a_L y = Ok loss ->
      (forall i j : nat,
          elem loss i j =
          (1 / 2 * (elem a_L (bidx (rows a_L) i) (bidx (cols a_L) j)
                    - elem y (bidx (rows y) i) (bidx (cols y) j)) ^ 2)%R) /\
      (shape y = shape a_L ->
       shape loss = shape a_L /\
       forall i j : nat, i < rows a_L -> j < cols a_L ->
         elem loss i j = (1 / 2 * (elem a_L i j - elem y i j) ^ 2)%R) /\
      (forall i j : nat, (0 <= elem loss i j)%R)) /\
  (forall a_L : tensor,
      exists loss : tensor,
        mse_loss a_L a_L = Ok loss /\
        shape loss = shape a_L /\
        forall i j : nat, elem loss i j = 0%R).
Proof.
  split.
  - intros a_L y loss H. unfold mse_loss, tsub, tmap2 in H.
    destruct (broadcast_dim (rows a_L) (rows y)) as [r|] eqn:Er; cbn [bind] in H;
      [|discriminate].
    destruct (broadcast_dim (cols a_L) (cols y)) as [c|] eqn:Ec; cbn [bind] in H;
      [|discriminate].
    injection H as <-. split; [|split].
    + intros i j. reflexivity.
    + intros Hs. unfold shape in Hs. injection Hs as Hsr Hsc.
      rewrite Hsr, broadcast_dim_same in Er. rewrite Hsc, broadcast_dim_same in Ec.
      injection Er as <-. injection Ec as <-.
      split; [reflexivity|].
      intros i j Hi Hj. cbn. rewrite Hsr, Hsc.
      assert (Hbi : bidx (rows a_L) i = i).
      { unfold bidx. destruct (rows a_L =? 1) eqn:E; [|reflexivity].
        apply Nat.eqb_eq in E. lia. }
      assert (Hbj : bidx (cols a_L) j = j).
      { unfold bidx. destruct (cols a_L =? 1) eqn:E; [|reflexivity].
        apply Nat.eqb_eq in E. lia. }
      now rewrite Hbi, Hbj.
    + intros i j. cbn.
      match goal with |- (0 <= 1 / 2 * (?d * (?d * 1)))%R => pose proof (Rle_0_sqr d) as Hsq end.
      unfold Rsqr in Hsq. lra.
  - intros a_L. unfold mse_loss, tsub, tmap2. rewrite !broadcast_dim_same. cbn [bind].
    eexists. split; [reflexivity|]. split; [reflexivity|].
    intros i j. cbn. lra.
Qed.

(** C1, on the network of the notebook's last cell ([7 -> 5 -> 3 -> 1]):
    the gradient of the first weight, of shape [(5, 7)], is returned with
    shape [(5, 1)]; the other gradients have the shapes of their
    parameters. The notebook prints these shapes. *)
Theorem notebook_gradient_shapes (out : list out_event) :
  map shape nb_W = [(5, 7); (3, 5); (1, 3)] /\
  map shape nb_b = [(5, 1); (3, 1); (1, 1)] /\
  shape_compatible_fb nb_x nb_y nb_W nb_b = true /\
  returned_shapes (returns (forward_backward nb_x nb_y nb_W nb_b) out) =
  Some ([Some (5, 1); Some (3, 5); Some (1, 3)],
        [Some (5, 1); Some (3, 1); Some (1, 1)]).
Proof.
  rewrite forward_backward_returns.
  repeat split; vm_compute; reflexivity.
Qed.

(** C2, on the same network: the weight gradient of layer 0 is the product
    of [delta_0] with the transpose of the last cached activation [a_L], and
    it is not the product of [delta_0] with the transpose of the input. *)
Theorem notebook_first_layer_gradient (out : list out_event) :
  exists (v : locals) (a_L delta_0 wg : tensor),
    returns (forward_backward_locals nb_x nb_y nb_W nb_b) out = Ok v /\
    nth_error (fb_a v) 2 = Some a_L /\
    nth_error (fb_deltas v) 0 = Some (Some delta_0) /\
    weight_gradient_spec delta_0 a_L = Ok wg /\
    nth_error (fb_W_grads v) 0 = Some (Some wg) /\
    weight_gradient_spec delta_0 nb_x <> Ok wg.
Proof.
  destruct (@first_layer_gradient _ nb_x nb_y nb_W nb_b eq_refl)
    as (v & a_L & d & wg & Hrun & HaL & Hrows & Hd & Hwg & HWg).
  exists v, a_L, d, wg. rewrite forward_backward_locals_returns.
  repeat split; try assumption.
  intros Hx. apply weight_gradient_ok_inv in Hwg as [_ Hc1].
  apply weight_gradient_ok_inv in Hx as [_ Hc2].
  rewrite Hc1, Hrows in Hc2. vm_compute in Hc2. discriminate.
Qed.

(** C8 does not hold as stated: a bias of shape [(1, 2)] for a layer of two
    units is broadcast, and [forward] returns a [2 x 2] tensor without
    raising; a bias list shorter than the weight list, and empty lists for
    [forward_backward], raise IndexError. *)
Lemma broadcast_and_index_error :
  shape_compatible (full 2 1 1%R) [full 2 2 1%R] [full 1 2 0%R] = false /\
  result_shape (forward (full 2 1 1%R) [full 2 2 1%R] [full 1 2 0%R]) = Some (2, 2) /\
  forward (full 2 1 1%R) [full 2 2 1%R] [] = Raise IndexError /\
  forall out : list out_event,
    returns (forward_backward nb_x nb_y [] []) out = Raise IndexError.
Proof.
  split; [reflexivity|]. split; [vm_compute; reflexivity|].
  split; [vm_compute; reflexivity|].
  intros out. rewrite forward_backward_returns. vm_compute. reflexivity.
Qed.

(** ** The theorems at the network of the notebook *)

Lemma forward_computes_layers_witness :
  length nb_W = length nb_b /\
  forward nb_x nb_W nb_b = forward_spec nb_x (combine nb_W nb_b) /\
  forward nb_x nb_W nb_b =
  (acts <- activations_spec nb_x (combine nb_W nb_b) ;; Ok (last acts nb_x)).
Proof.
  split; [reflexivity|].
  apply (forward_computes_layers nb_x nb_W nb_b). reflexivity.
Defined.

Lemma forward_sweep_is_forward_witness :
  shape_compatible_fb nb_x nb_y nb_W nb_b = true /\
  forall out : list out_event,
  exists (v : locals) (a_L : tensor),
    returns (forward_backward_locals nb_x nb_y nb_W nb_b) out = Ok v /\
    forward_sweep nb_x nb_W nb_b = Ok (fb_a v) /\
    length (fb_a v) = length nb_W /\
    py_get (fb_a v) (Z.of_nat (length nb_W) - 1) = Ok a_L /\
    forward nb_x nb_W nb_b = Ok a_L /\
    mse_loss a_L nb_y = Ok (fb_loss v) /\
    forall l : nat, l < length nb_W ->
      exists a_l : tensor,
        nth_error (fb_a v) l = Some a_l /\
        forward nb_x (firstn (S l) nb_W) (firstn (S l) nb_b) = Ok a_l.
Proof.
  split; [reflexivity|].
  apply (forward_sweep_is_forward nb_x nb_y nb_W nb_b). reflexivity.
Defined.

Lemma last_layer_backward_witness :
  shape_compatible_fb nb_x nb_y nb_W nb_b = true /\
  forall out : list out_event,
  exists (v : locals) (a_L a_prev delta_L wg : tensor),
    returns (forward_backward_locals nb_x nb_y nb_W nb_b) out = Ok v /\
    forward_sweep nb_x nb_W nb_b = Ok (fb_a v) /\
    py_get (fb_a v) (Z.of_nat (length nb_W) - 1) = Ok a_L /\
    py_get (fb_a v) (Z.of_nat (length nb_W) - 1 - 1) = Ok a_prev /\
    (1 < length nb_W -> nth_error (fb_a v) (length nb_W - 2) = Some a_prev) /\
    delta_last_spec a_L nb_y = Ok delta_L /\
    weight_gradient_spec delta_L a_prev = Ok wg /\
    nth_error (fb_deltas v) (length nb_W - 1) = Some (Some delta_L) /\
    nth_error (fb_W_grads v) (length nb_W - 1) = Some (Some wg) /\
    nth_error (fb_b_grads v) (length nb_W - 1) = Some (Some delta_L).
Proof.
  split; [reflexivity|].
  apply (last_layer_backward nb_x nb_y nb_W nb_b). reflexivity.
Defined.

Lemma single_layer_weight_gradient_witness :
  shape_compatible_fb nb_x one_y one_W one_b = true /\
  forall out : list out_event,
    py_range_down (Z.of_nat (length one_W) - 1 - 1) (-1) = [] /\
    exists z0 delta_0 wg wg_x loss : tensor,
      Z_ nb_x (full 5 7 1%R) (full 5 1 0%R) = Ok z0 /\
      forward_sweep nb_x one_W one_b = Ok [A z0] /\
      py_get [A z0] (Z.of_nat (length one_W) - 1 - 1) = py_get [A z0] 0 /\
      delta_last_spec (A z0) one_y = Ok delta_0 /\
      weight_gradient_spec delta_0 (A z0) = Ok wg /\
      returns (forward_backward nb_x one_y one_W one_b) out =
      Ok (loss, [Some wg], [Some delta_0]) /\
      shape wg = (5, 5) /\
      weight_gradient_spec delta_0 nb_x = Ok wg_x /\
      shape wg_x = (5, 7).
Proof.
  split; [reflexivity|].
  apply (single_layer_weight_gradient nb_x one_y (full 5 7 1%R) (full 5 1 0%R)).
  reflexivity.
Defined.

Lemma forward_output_range_witness :
  shape_compatible nb_x nb_W nb_b = true /\
  exists a_L : tensor,
    forward nb_x nb_W nb_b = Ok a_L /\
    shape a_L = (1, 1) /\
    forall i j : nat, i < rows a_L -> j < cols a_L -> (0 < elem a_L i j < 1)%R.
Proof.
  split; [reflexivity|].
  apply (forward_output_range nb_x nb_W nb_b). reflexivity.
Defined.

Lemma mse_loss_half_square_witness :
  exists loss : tensor,
    mse_loss (full 1 1 (1 / 2)%R) nb_y = Ok loss /\
    shape nb_y = shape (full 1 1 (1 / 2)%R) /\
    shape loss = (1, 1) /\
    (forall i j : nat, i < 1 -> j < 1 ->
       elem loss i j = (1 / 2 * (1 / 2 - 1) ^ 2)%R) /\
    (forall i j : nat, (0 <= elem loss i j)%R).
Proof.
  eexists. split; [reflexivity|]. split; [reflexivity|].
  destruct (proj1 mse_loss_half_square (full 1 1 (1 / 2)%R) nb_y _ eq_refl)
    as (_ & Hsame & Hpos).
  destruct (Hsame eq_refl) as [Hshape Helem].
  split; [exact Hshape|]. split; [exact Helem | exact Hpos].
Defined.

Lemma shape_mismatch_failures_witness :
  (forward nb_x bad_W nb_b = Raise ShapeMismatch /\
   forall out : list out_event,
     returns (forward_backward nb_x nb_y bad_W nb_b) out = Raise ShapeMismatch) /\
  (forward nb_x nb_W bad_b = Raise ShapeMismatch /\
   forall out : list out_event,
     returns (forward_backward nb_x nb_y nb_W bad_b) out = Raise ShapeMismatch) /\
  (ShapeMismatch = ShapeMismatch /\ ShapeMismatch = ShapeMismatch) /\
  (exists a_L : tensor, forward nb_x nb_W nb_b = Ok a_L) /\
  (forall out : list out_event,
   exists r : tensor * list (option tensor) * list (option tensor),
     returns (forward_backward nb_x nb_y nb_W nb_b) out = Ok r) /\
  forward nb_x nb_W [] = Raise IndexError /\
  (forall out : list out_event,
     returns (forward_backward nb_x nb_y [] []) out = Raise IndexError) /\
  (exists (l : nat) (W_l b_l a_prev : tensor),
      nth_error bad_W l = Some W_l /\
      nth_error nb_b l = Some b_l /\
      forward nb_x (firstn l bad_W) (firstn l nb_b) = Ok a_prev /\
      Z_ a_prev W_l b_l = Raise ShapeMismatch) /\
  (exists a_L : tensor,
      forward (full 2 1 1%R) [full 2 2 1%R] [full 1 2 0%R] = Ok a_L) /\
  (forall out : list out_event,
     returns (forward_backward nb_x nb_y nb_W []) out = Raise IndexError).
Proof.
  destruct (shape_mismatch_failures nb_x nb_y bad_W nb_b)
    as (H1 & H2 & H3 & _ & _ & _ & _ & _ & H9 & _).
  destruct (shape_mismatch_failures nb_x nb_y nb_W bad_b) as (_ & _ & _ & H8 & _).
  destruct (shape_mismatch_failures nb_x nb_y nb_W nb_b) as (_ & _ & _ & _ & H4 & H5 & _).
  destruct (shape_mismatch_failures nb_x nb_y nb_W [])
    as (_ & _ & _ & _ & _ & _ & H6 & _ & _ & _ & _ & H12).
  destruct (shape_mismatch_failures nb_x nb_y [] []) as (_ & _ & _ & _ & _ & _ & _ & H7 & _).
  destruct (shape_mismatch_failures (full 2 1 1%R) nb_y [full 2 2 1%R] [full 1 2 0%R])
    as (_ & _ & _ & _ & _ & _ & _ & _ & _ & H10 & _).
  assert (Hlen : length bad_W <= length nb_b) by (cbn; lia).
  assert (Hmis : cols (full 5 6 1%R) <> rows nb_x) by (cbn; lia).
  pose proof (H3 0 (full 5 6 1%R) nb_x Hlen eq_refl eq_refl Hmis) as [Hf Hfb].
  split; [split; assumption|].
  split.
  { apply (H8 0 (full 5 7 1%R) (full 4 1 0%R) nb_x ShapeMismatch);
      [cbn; lia | reflexivity..]. }
  split.
  { split.
    - exact (H1 Hlen ShapeMismatch Hf).
    - assert (Hne : bad_W <> []) by discriminate.
      exact (H2 Hne Hlen [] ShapeMismatch (Hfb [])). }
  split; [exact (H4 eq_refl)|]. split; [exact (H5 eq_refl)|].
  split; [apply (H6 (Nat.lt_0_succ 2) nb_x); reflexivity|].
  split; [exact (H7 eq_refl)|].
  split; [exact (H9 Hlen ShapeMismatch Hf)|].
  split.
  - apply H10; [cbn; lia|].
    intros l W_l b_l a_prev HW Hb Hpre.
    destruct l as [|l]; [|destruct l; discriminate].
    injection HW as <-. injection Hb as <-. injection Hpre as <-.
    eexists. reflexivity.
  - apply (H12 (Nat.lt_0_succ 2) nb_x). reflexivity.
Defined.

End RealNetFacts.

(** * Single-precision floats: saturation of the sigmoid, NaN in the loss *)

Module Float32Facts.
Import Float32.

(** ** Rounding keeps the sign *)

Lemma iter_pos_invariant {T : Type} (P : T -> Prop) (f : T -> T) :
  (forall v : T, P v -> P (f v)) ->
  forall (p : positive) (v : T), P v -> P (iter_pos f p v).
Proof.
  intros Hf. induction p as [p IH|p IH|]; intros v Hv; cbn [iter_pos]; auto.
Qed.

Lemma shr_1_nonneg (mrs : shr_record) :
  (0 <= shr_m mrs)%Z -> (0 <= shr_m (shr_1 mrs))%Z.
Proof.
  destruct mrs as [m r s]. cbn [shr_m].
  destruct m as [|[p|p|]|[p|p|]]; cbn; lia.
Qed.

Lemma shr_fexp_nonneg (pr em m e : Z) (l : location) :
  (0 <= m)%Z -> (0 <= shr_m (fst (shr_fexp pr em m e l)))%Z.
Proof.
  intros Hm. unfold shr_fexp, shr.
  assert (H0 : (0 <= shr_m (shr_record_of_loc m l))%Z)
    by (destruct l as [|[| |]]; exact Hm).
  destruct (fexp pr em (Zdigits2 m + e) - e)%Z as [|p|p]; cbn [fst]; try exact H0.
  apply (iter_pos_invariant (fun mrs => (0 <= shr_m mrs)%Z)); [apply shr_1_nonneg|exact H0].
Qed.

Lemma round_nearest_even_nonneg (m : Z) (l : location) :
  (0 <= m)%Z -> (0 <= round_nearest_even m l)%Z.
Proof.
  intros Hm. destruct l as [|[| |]]; cbn [round_nearest_even]; try lia.
  destruct (Z.even m); lia.
Qed.

(** Rounding a mantissa that is not negative gives a zero, a finite number
    or an infinity of the sign asked for, never NaN. *)
Lemma binary_round_aux_sign (pr em : Z) (sx : bool) (mx ex : Z) (lx : location) :
  (0 <= mx)%Z -> has_sign sx (binary_round_aux pr em sx mx ex lx).
Proof.
  intros Hm. unfold binary_round_aux.
  pose proof (shr_fexp_nonneg pr em ex lx Hm) as H1.
  destruct (shr_fexp pr em mx ex lx) as [mrs' e']. cbn [fst] in H1.
  pose proof (@shr_fexp_nonneg pr em _ e' loc_Exact
                (round_nearest_even_nonneg (loc_of_shr_record mrs') H1)) as H2.
  destruct (shr_fexp pr em (round_nearest_even (shr_m mrs') (loc_of_shr_record mrs'))
              e' loc_Exact) as [mrs'' e'']. cbn [fst] in H2.
  destruct (shr_m mrs'') as [|m|m]; [reflexivity| |lia].
  destruct (e'' <=? em - pr)%Z; reflexivity.
Qed.

Lemma binary_round_sign (pr em : Z) (sx : bool) (mx : positive) (ex : Z) :
  has_sign sx (binary_round pr em sx mx ex).
Proof.
  unfold binary_round.
  destruct (shl_align mx ex (fexp pr em (Z.pos (digits2_pos mx) + ex))) as [mz ez].
  apply binary_round_aux_sign. lia.
Qed.

Lemma binary_normalize_not_nan (pr em m e : Z) (sz : bool) :
  exists s : bool, has_sign s (binary_normalize pr em m e sz).
Proof.
  destruct m as [|m|m]; cbn [binary_normalize].
  - exists sz. reflexivity.
  - exists false. apply binary_round_sign.
  - exists true. apply binary_round_sign.
Qed.

(** ** The operations of the loss *)

(** The difference of two finite floats is not NaN. *)
Lemma f32_sub_finite (u v : spec_float) :
  is_finite u = true -> is_finite v = true ->
  exists s : bool, has_sign s (f32_sub u v).
Proof.
  destruct u as [su| | |su mu eu], v as [sv| | |sv mv ev]; try discriminate; intros _ _.
  - destruct su, sv; cbn; eauto.
  - cbn. eauto.
  - cbn. eauto.
  - unfold f32_sub, SFsub. apply binary_normalize_not_nan.
Qed.

(** The difference of two finite floats that compare equal is a zero. *)
Lemma f32_sub_equal (u v : spec_float) :
  is_finite u = true -> is_finite v = true -> f32_eqb u v = true ->
  exists s : bool, f32_sub u v = S754_zero s.
Proof.
  destruct u as [su| | |su mu eu], v as [sv| | |sv mv ev]; try discriminate; intros _ _.
  - intros _. destruct su, sv; cbn; eauto.
  - destruct sv; discriminate.
  - destruct su; discriminate.
  - unfold f32_eqb, SFeqb, SFcompare. intros H.
    assert (Hs : su = sv) by (destruct su, sv; try discriminate; reflexivity).
    subst sv.
    assert (He : eu = ev).
    { destruct su; destruct (Z.compare eu ev) eqn:E; try discriminate;
        now apply Z.compare_eq. }
    subst ev.
    assert (Hm : mu = mv).
    { rewrite Z.compare_refl in H.
      apply Pos.compare_eq. unfold Pos.compare.
      destruct su; destruct (Pos.compare_cont Eq mu mv); try discriminate; reflexivity. }
    subst mv. exists false.
    unfold f32_sub, SFsub. rewrite Z.min_id, Z.sub_diag. reflexivity.
Qed.

(** The square [d * (d * 1)] of a float that is not NaN is not NaN and not
    negative, and it is [+0] when [d] is a zero. *)
Lemma f32_square_sign (d : spec_float) (s : bool) :
  has_sign s d ->
  has_sign false (f32_mul d (f32_mul d f32_one)) /\
  ((exists s' : bool, d = S754_zero s') ->
   f32_mul d (f32_mul d f32_one) = S754_zero false).
Proof.
  destruct d as [sd|sd| |sd md ed]; cbn [has_sign]; intros Hs; [| |contradiction|].
  - split; [|intros _]; destruct sd; reflexivity.
  - split; [|intros [s' H]; discriminate]. destruct sd; reflexivity.
  - split; [|intros [s' H]; discriminate].
    assert (H1 : has_sign sd (f32_mul (S754_finite sd md ed) f32_one)).
    { unfold f32_mul, f32_one, SFmul.
      destruct sd; apply binary_round_aux_sign; lia. }
    destruct (f32_mul (S754_finite sd md ed) f32_one) as [s1|s1| |s1 m1 e1];
      cbn [has_sign] in H1; [| |contradiction|]; subst s1.
    + cbn. now destruct sd.
    + cbn. now destruct sd.
    + unfold f32_mul, SFmul.
      destruct sd; apply binary_round_aux_sign; lia.
Qed.

(** Half of a float that is not negative is not negative, and half of [+0]
    is [+0]. *)
Lemma f32_half_sign (v : spec_float) :
  has_sign false v -> has_sign false (f32_mul f32_half v).
Proof.
  destruct v as [sv|sv| |sv mv ev]; cbn [has_sign]; intros Hs;
    [subst; reflexivity | subst; reflexivity | contradiction|].
  subst sv. unfold f32_mul, f32_half, SFmul.
  change (xorb false false) with false. apply binary_round_aux_sign. lia.
Qed.

Lemma has_sign_false_leb (v : spec_float) :
  has_sign false v -> is_nan v = false /\ f32_leb f32_zero v = true.
Proof.
  destruct v as [sv|sv| |sv mv ev]; cbn [has_sign]; intros Hs;
    try contradiction; subst; split; reflexivity.
Qed.

(** ** The loss *)

(** C7, as the code has it. [mse_loss] computes one half of the square of
    the difference, element by element, in the arithmetic of the floats (the
    square is [torch.pow(d, 2)], the product of [d] with itself). When the
    two elements it is computed from are finite, the element of the loss is
    not NaN and not negative (it is [+inf] when the square overflows), and
    it is exactly [+0] when they are equal. *)
Theorem mse_loss_finite_operands (a_L y loss : tensor) :
  mse_loss a_L y = Ok loss ->
  forall i j : nat,
    elem loss i j =
    f32_mul f32_half
      (f32_mul
         (f32_sub (elem a_L (bidx (rows a_L) i) (bidx (cols a_L) j))
                  (elem y (bidx (rows y) i) (bidx (cols y) j)))
         (f32_mul
            (f32_sub (elem a_L (bidx (rows a_L) i) (bidx (cols a_L) j))
                     (elem y (bidx (rows y) i) (bidx (cols y) j)))
            f32_one)) /\
    (is_finite (elem a_L (bidx (rows a_L) i) (bidx (cols a_L) j)) = true ->
     is_finite (elem y (bidx (rows y) i) (bidx (cols y) j)) = true ->
     is_nan (elem loss i j) = false /\
     f32_leb f32_zero (elem loss i j) = true /\
     (f32_eqb (elem a_L (bidx (rows a_L) i) (bidx (cols a_L) j))
              (elem y (bidx (rows y) i) (bidx (cols y) j)) = true ->
      elem loss i j = f32_zero)).
Proof.
  intros H i j. unfold mse_loss, tsub, tmap2 in H.
  destruct (broadcast_dim (rows a_L) (rows y)) as [r|]; cbn [bind] in H; [|discriminate].
  destruct (broadcast_dim (cols a_L) (cols y)) as [c|]; cbn [bind] in H; [|discriminate].
  injection H as <-.
  cbn [elem half_times tpow tmap spow smul shalf sone ssub F32Scalar].
  set (p := elem a_L (bidx (rows a_L) i) (bidx (cols a_L) j)).
  set (t := elem y (bidx (rows y) i) (bidx (cols y) j)).
  split; [reflexivity|]. intros Hp Ht.
  destruct (@f32_sub_finite p t Hp Ht) as (s & Hd).
  destruct (@f32_square_sign _ _ Hd) as (Hsq & Hzero).
  pose proof (@f32_half_sign _ Hsq) as Hl.
  destruct (@has_sign_false_leb _ Hl) as (Hnan & Hle).
  split; [exact Hnan|]. split; [exact Hle|].
  intros Heq. rewrite (Hzero (@f32_sub_equal p t Hp Ht Heq)). reflexivity.
Qed.

(** C7 does not hold as stated: a prediction and a ground truth that are
    both [+inf] are equal, and their loss is NaN, which is neither at least 0
    nor 0. *)
Lemma loss_of_infinities_is_nan :
  f32_eqb (elem inf_a 0 0) (elem inf_a 0 0) = true /\
  result_elem (mse_loss inf_a inf_a) 0 0 = Some S754_nan /\
  f32_leb f32_zero S754_nan = false /\
  f32_eqb S754_nan f32_zero = false.
Proof. repeat split. Qed.

Lemma mse_loss_finite_operands_witness :
  exists loss : tensor,
    mse_loss (full 1 1 f32_half) (full 1 1 f32_one) = Ok loss /\
    elem loss 0 0 = S754_finite false 8388608 (-26) /\
    is_nan (elem loss 0 0) = false /\
    f32_leb f32_zero (elem loss 0 0) = true.
Proof.
  eexists. split; [reflexivity|].
  destruct (@mse_loss_finite_operands (full 1 1 f32_half) (full 1 1 f32_one) _ eq_refl 0 0)
    as (Hval & Hfin).
  destruct (Hfin eq_refl eq_refl) as (Hnan & Hle & _).
  split; [rewrite Hval; reflexivity|]. split; [exact Hnan | exact Hle].
Defined.

(** ** The sigmoid *)

(** C6 does not hold as stated: on a layer whose pre-activations are all
    [21.0] the sigmoid is rounded to [1.0], which is not below 1; and a
    weight that is NaN gives an output that is NaN, which is not even
    between 0 and 1 inclusive. *)
Lemma sigmoid_saturates :
  shape_compatible sat_x sat_W sat_b = true /\
  result_elem (forward sat_x sat_W sat_b) 0 0 = Some f32_one /\
  f32_ltb f32_one f32_one = false /\
  shape_compatible sat_x nan_W sat_b = true /\
  result_elem (forward sat_x nan_W sat_b) 0 0 = Some S754_nan /\
  f32_leb f32_zero S754_nan = false /\
  f32_leb S754_nan f32_one = false.
Proof.
  split; [reflexivity|]. split; [vm_compute; reflexivity|].
  split; [reflexivity|]. split; [reflexivity|].
  split; [vm_compute; reflexivity|]. split; reflexivity.
Qed.

(** ** The range of the sigmoid *)

Local Open Scope Z_scope.

Lemma digits2_pos_bounds (p : positive) :
  2 ^ (Zpos (digits2_pos p) - 1) <= Zpos p < 2 ^ Zpos (digits2_pos p).
Proof.
  induction p as [p IH|p IH|]; cbn [digits2_pos].
  - rewrite Pos2Z.inj_succ.
    replace (Z.succ (Z.pos (digits2_pos p)) - 1) with (Z.succ (Z.pos (digits2_pos p) - 1)) by lia.
    rewrite !Z.pow_succ_r by lia.
    generalize dependent (2 ^ (Z.pos (digits2_pos p) - 1)).
    generalize (2 ^ Z.pos (digits2_pos p)). intros; lia.
  - rewrite Pos2Z.inj_succ.
    replace (Z.succ (Z.pos (digits2_pos p)) - 1) with (Z.succ (Z.pos (digits2_pos p) - 1)) by lia.
    rewrite !Z.pow_succ_r by lia.
    generalize dependent (2 ^ (Z.pos (digits2_pos p) - 1)).
    generalize (2 ^ Z.pos (digits2_pos p)). intros; lia.
  - cbn. lia.
Qed.

Lemma iter_pos_nat {T : Type} (f : T -> T) (p : positive) (v : T) :
  iter_pos f p v = Nat.iter (Pos.to_nat p) f v.
Proof.
  revert v. induction p as [p IH|p IH|]; intros v; cbn [iter_pos].
  - rewrite !IH, Pos2Nat.inj_xI, <- Nat.iter_add, <- Nat.iter_succ_r.
    f_equal. lia.
  - rewrite !IH, Pos2Nat.inj_xO, <- Nat.iter_add. f_equal. lia.
  - reflexivity.
Qed.

(** ** Shifting a mantissa to the right *)

Lemma shr_1_m (mrs : shr_record) :
  0 <= shr_m mrs -> shr_m (shr_1 mrs) = shr_m mrs / 2.
Proof.
  destruct mrs as [m r s]. cbn [shr_m]. intros Hm. rewrite <- Z.div2_div.
  destruct m as [|[p|p|]|p]; try reflexivity. lia.
Qed.

Lemma shr_iter_m (k : nat) (mrs : shr_record) :
  0 <= shr_m mrs ->
  shr_m (Nat.iter k shr_1 mrs) = shr_m mrs / 2 ^ Z.of_nat k.
Proof.
  intros Hm. induction k as [|k IH].
  - cbn [Nat.iter]. change (2 ^ Z.of_nat 0) with 1. now rewrite Z.div_1_r.
  - rewrite Nat.iter_succ. rewrite shr_1_m.
    + rewrite IH, Nat2Z.inj_succ, Z.pow_succ_r by lia.
      rewrite Z.div_div by lia. f_equal. lia.
    + rewrite IH. apply Z.div_pos; [exact Hm|]. apply Z.pow_pos_nonneg; lia.
Qed.

(** Shifting out bits that are all zero loses nothing. *)
Lemma shr_iter_exact (k : nat) :
  forall mrs : shr_record,
    0 <= shr_m mrs -> shr_r mrs = false -> shr_s mrs = false ->
    shr_m mrs mod 2 ^ Z.of_nat k = 0 ->
    loc_of_shr_record (Nat.iter k shr_1 mrs) = loc_Exact.
Proof.
  induction k as [|k IH]; intros [m r s]; cbn [shr_m shr_r shr_s]; intros Hm -> -> Hdiv.
  - reflexivity.
  - rewrite Nat.iter_succ_r. apply IH.
    + rewrite shr_1_m by exact Hm. cbn [shr_m]. apply Z.div_pos; lia.
    + destruct m as [|[p|p|]|p]; try reflexivity; exfalso.
      * rewrite Nat2Z.inj_succ, Z.pow_succ_r in Hdiv by lia.
        assert (H2 : Z.pos p~1 mod 2 = 0).
        { apply Z.mod_divide; [lia|]. apply Z.mod_divide in Hdiv; [|
            pose proof (Z.pow_pos_nonneg 2 (Z.of_nat k)); lia].
          destruct Hdiv as [c Hc]. exists (c * 2 ^ Z.of_nat k). lia. }
        rewrite Pos2Z.inj_xI in H2. rewrite Z.add_comm, Z.mul_comm, Z.mod_add in H2 by lia.
        discriminate.
      * rewrite Nat2Z.inj_succ, Z.pow_succ_r in Hdiv by lia.
        assert (H2 : 1 mod 2 = 0).
        { apply Z.mod_divide; [lia|]. apply Z.mod_divide in Hdiv; [|
            pose proof (Z.pow_pos_nonneg 2 (Z.of_nat k)); lia].
          destruct Hdiv as [c Hc]. exists (c * 2 ^ Z.of_nat k). lia. }
        discriminate.
      * lia.
    + destruct m as [|[p|p|]|p]; try reflexivity. lia.
    + rewrite shr_1_m by exact Hm. cbn [shr_m].
      rewrite Nat2Z.inj_succ, Z.pow_succ_r in Hdiv by lia.
      apply Z.mod_divide; [pose proof (Z.pow_pos_nonneg 2 (Z.of_nat k)); lia|].
      apply Z.mod_divide in Hdiv; [|pose proof (Z.pow_pos_nonneg 2 (Z.of_nat k)); lia].
      destruct Hdiv as [c Hc]. exists c. subst m.
      replace (c * (2 * 2 ^ Z.of_nat k)) with (c * 2 ^ Z.of_nat k * 2) by lia.
      now rewrite Z.div_mul by lia.
Qed.

(** What [shr_fexp] returns: the mantissa divided by a power of two, or
    untouched. *)
Lemma shr_fexp_cases (pr em m e : Z) (l : location) :
  0 <= m ->
  let n := fexp pr em (Zdigits2 m + e) - e in
  (n <= 0 /\ shr_fexp pr em m e l = (shr_record_of_loc m l, e)) \/
  (0 < n /\
   exists mrs : shr_record,
     shr_fexp pr em m e l = (mrs, e + n) /\
     shr_m mrs = m / 2 ^ n /\
     (l = loc_Exact -> m mod 2 ^ n = 0 -> loc_of_shr_record mrs = loc_Exact)).
Proof.
  intros Hm n. unfold shr_fexp, shr. fold n.
  destruct n as [|p|p] eqn:En.
  - left. split; [lia|reflexivity].
  - right. split; [lia|]. eexists. split; [reflexivity|].
    rewrite iter_pos_nat.
    assert (H0 : 0 <= shr_m (shr_record_of_loc m l)) by (destruct l as [|[| |]]; exact Hm).
    assert (Hmm : shr_m (shr_record_of_loc m l) = m) by (destruct l as [|[| |]]; reflexivity).
    split.
    + rewrite shr_iter_m by exact H0. now rewrite Hmm, positive_nat_Z.
    + intros -> Hdiv. apply shr_iter_exact; try reflexivity; [exact Hm|].
      cbn [shr_record_of_loc shr_m]. now rewrite positive_nat_Z.
  - left. split; [lia|reflexivity].
Qed.

Lemma fexp32 (x : Z) : fexp prec emax x = Z.max (x - 24) (-149).
Proof. reflexivity. Qed.

Lemma Zdigits2_le (m k : Z) :
  0 <= m -> 0 <= k -> m <= 2 ^ k -> Zdigits2 m <= k + 1.
Proof.
  intros Hm Hk Hle. destruct m as [|p|p]; [cbn; lia| |lia].
  cbn [Zdigits2]. pose proof (digits2_pos_bounds p) as [Hlo _].
  assert (H : 2 ^ (Z.pos (digits2_pos p) - 1) <= 2 ^ k) by lia.
  apply Z.pow_le_mono_r_iff in H; lia.
Qed.

(** A mantissa that stands for at most 1 still does after [shr_fexp], and
    the exponent stays at most that of 1. *)
Lemma shr_fexp_at_most (m e : Z) (l : location) :
  0 <= m -> e <= -23 ->
  (m < 2 ^ (- e) \/ (m = 2 ^ (- e) /\ l = loc_Exact)) ->
  exists (mrs : shr_record) (e' : Z),
    shr_fexp prec emax m e l = (mrs, e') /\
    0 <= shr_m mrs /\ e' <= -23 /\
    (shr_m mrs < 2 ^ (- e') \/
     (shr_m mrs = 2 ^ (- e') /\ loc_of_shr_record mrs = loc_Exact)).
Proof.
  intros Hm He Hle.
  destruct (@shr_fexp_cases prec emax m e l Hm) as [(Hn & E)|(Hn & mrs & E & Hmrs & Hex)].
  - exists (shr_record_of_loc m l), e. split; [exact E|].
    assert (Hmm : shr_m (shr_record_of_loc m l) = m) by (destruct l as [|[| |]]; reflexivity).
    assert (Hll : loc_of_shr_record (shr_record_of_loc m l) = l)
      by (destruct l as [|[| |]]; reflexivity).
    rewrite Hmm, Hll. auto.
  - set (n := fexp prec emax (Zdigits2 m + e) - e) in *.
    assert (HD : Zdigits2 m <= - e + 1).
    { apply Zdigits2_le; [exact Hm|lia|]. destruct Hle as [H|[H _]]; lia. }
    assert (He' : e + n <= -23) by (unfold n; rewrite fexp32; lia).
    assert (Hpow : 2 ^ (- e) = 2 ^ (- (e + n)) * 2 ^ n).
    { rewrite <- Z.pow_add_r by lia. f_equal. lia. }
    assert (Hpn : 0 < 2 ^ n) by (apply Z.pow_pos_nonneg; lia).
    exists mrs, (e + n). split; [exact E|]. rewrite Hmrs.
    split; [apply Z.div_pos; lia|]. split; [exact He'|].
    destruct Hle as [Hlt|[Heq Hl]].
    + left. apply Z.div_lt_upper_bound; [exact Hpn|]. rewrite Z.mul_comm, <- Hpow. exact Hlt.
    + right. rewrite Heq, Hpow. split; [now rewrite Z.div_mul by lia|].
      apply Hex; [exact Hl|]. rewrite Heq, Hpow. now rewrite Z.mod_mul by lia.
Qed.

Lemma round_nearest_even_cases (m : Z) (l : location) :
  (round_nearest_even m l = m \/ round_nearest_even m l = m + 1) /\
  (l = loc_Exact -> round_nearest_even m l = m).
Proof.
  destruct l as [|[| |]]; cbn [round_nearest_even]; split; auto; try discriminate.
  destruct (Z.even m); auto.
Qed.

(** Rounding a mantissa that stands for at most 1 gives a float between 0
    and 1. *)
Lemma binary_round_aux_at_most_one (q e : Z) (l : location) :
  0 <= q -> e <= -23 ->
  (q < 2 ^ (- e) \/ (q = 2 ^ (- e) /\ l = loc_Exact)) ->
  f32_leb f32_zero (binary_round_aux prec emax false q e l) = true /\
  f32_leb (binary_round_aux prec emax false q e l) f32_one = true.
Proof.
  intros Hq He Hle. unfold binary_round_aux.
  destruct (shr_fexp_at_most Hq He Hle) as (mrs1 & e1 & E1 & H1 & He1 & Hle1).
  rewrite E1.
  set (mr := round_nearest_even (shr_m mrs1) (loc_of_shr_record mrs1)).
  destruct (round_nearest_even_cases (shr_m mrs1) (loc_of_shr_record mrs1)) as (Hcases & Hexact).
  fold mr in Hcases, Hexact.
  assert (Hmr : 0 <= mr) by (destruct Hcases as [->| ->]; lia).
  assert (Hle2 : mr < 2 ^ (- e1) \/ (mr = 2 ^ (- e1) /\ loc_Exact = loc_Exact)).
  { destruct Hle1 as [Hlt|[Heq Hl]].
    - destruct Hcases as [->|Hc]; [left; exact Hlt|].
      assert (H : mr <= 2 ^ (- e1)) by lia.
      apply Z.le_lteq in H. destruct H as [H|H]; [left; exact H|right; auto].
    - right. split; [|reflexivity]. rewrite (Hexact Hl). exact Heq. }
  destruct (shr_fexp_at_most Hmr He1 Hle2) as (mrs2 & e2 & E2 & H2 & He2 & Hle3).
  rewrite E2.
  assert (Hm2 : shr_m mrs2 <= 2 ^ (- e2)) by (destruct Hle3 as [H|[H _]]; lia).
  destruct (shr_m mrs2) as [|p|p]; [split; reflexivity| |lia].
  replace (e2 <=? emax - prec) with true by (symmetry; apply Z.leb_le; unfold emax, prec; lia).
  split; [reflexivity|].
  unfold f32_leb, SFleb, SFcompare, f32_one.
  destruct (Z.compare_spec e2 (-23)) as [Heq|Hlt|Hgt]; [|reflexivity|lia].
  subst e2. replace (2 ^ (- (-23))) with 8388608 in Hm2 by reflexivity.
  rewrite Pos.compare_cont_spec.
  destruct (Pos.compare_spec p 8388608) as [H|H|H]; try reflexivity. lia.
Qed.

(** ** Rounding a mantissa that stands for at least 1 *)

Lemma shr_fexp_at_least (m e : Z) (l : location) :
  1 <= m -> 2 ^ (- e) <= m ->
  exists (mrs : shr_record) (e' : Z),
    shr_fexp prec emax m e l = (mrs, e') /\
    1 <= shr_m mrs /\ 2 ^ (- e') <= shr_m mrs.
Proof.
  intros Hm Hge.
  destruct (@shr_fexp_cases prec emax m e l ltac:(lia)) as [(Hn & E)|(Hn & mrs & E & Hmrs & _)].
  - exists (shr_record_of_loc m l), e. split; [exact E|].
    assert (Hmm : shr_m (shr_record_of_loc m l) = m) by (destruct l as [|[| |]]; reflexivity).
    rewrite Hmm. auto.
  - set (n := fexp prec emax (Zdigits2 m + e) - e) in *.
    destruct m as [|p|p]; try lia. cbn [Zdigits2] in n.
    pose proof (digits2_pos_bounds p) as [Hlo Hhi].
    set (D := Z.pos (digits2_pos p)) in *.
    assert (HD1 : 1 <= D) by (unfold D; lia).
    assert (HDe : 1 <= D + e).
    { destruct (Z.le_gt_cases e 0) as [He|He]; [|lia].
      assert (H : 2 ^ (- e) < 2 ^ D) by lia.
      apply Z.pow_lt_mono_r_iff in H; lia. }
    assert (En : n = D - 24) by (unfold n; rewrite fexp32; lia).
    assert (Hpn : 0 < 2 ^ n) by (apply Z.pow_pos_nonneg; lia).
    exists mrs, (e + n). split; [exact E|]. rewrite Hmrs. split.
    + apply Z.le_trans with (2 ^ 23); [cbn; lia|].
      apply Z.div_le_lower_bound; [exact Hpn|].
      rewrite <- Z.pow_add_r by lia. replace (n + 23) with (D - 1) by lia. exact Hlo.
    + destruct (Z.lt_ge_cases (- (e + n)) 0) as [Hneg|Hpos].
      * rewrite Z.pow_neg_r by exact Hneg. apply Z.div_pos; lia.
      * apply Z.div_le_lower_bound; [exact Hpn|].
        rewrite <- Z.pow_add_r by lia. replace (n + - (e + n)) with (- e) by lia. exact Hge.
Qed.

Lemma binary_round_aux_at_least_one (m e : Z) (l : location) :
  1 <= m -> 2 ^ (- e) <= m ->
  binary_round_aux prec emax false m e l = S754_infinity false \/
  exists (m' : positive) (e' : Z),
    binary_round_aux prec emax false m e l = S754_finite false m' e' /\
    2 ^ (- e') <= Z.pos m'.
Proof.
  intros Hm Hge. unfold binary_round_aux.
  destruct (@shr_fexp_at_least m e l Hm Hge) as (mrs1 & e1 & E1 & H1 & Hge1).
  rewrite E1.
  set (mr := round_nearest_even (shr_m mrs1) (loc_of_shr_record mrs1)).
  destruct (round_nearest_even_cases (shr_m mrs1) (loc_of_shr_record mrs1)) as (Hcases & _).
  fold mr in Hcases.
  assert (Hmr : 1 <= mr) by (destruct Hcases as [->| ->]; lia).
  assert (Hger : 2 ^ (- e1) <= mr) by (destruct Hcases as [->| ->]; lia).
  destruct (@shr_fexp_at_least mr e1 loc_Exact Hmr Hger) as (mrs2 & e2 & E2 & H2 & Hge2).
  rewrite E2.
  destruct (shr_m mrs2) as [|p|p]; try lia.
  destruct (e2 <=? emax - prec); [right; eauto|left; reflexivity].
Qed.

Lemma pos_iter_xO (m d : positive) :
  Z.pos (Pos.iter xO m d) = Z.pos m * 2 ^ Z.pos d.
Proof.
  induction d as [|d IH] using Pos.peano_ind.
  - cbn [Pos.iter]. lia.
  - rewrite Pos.iter_succ, Pos2Z.inj_xO, IH, Pos2Z.inj_succ, Z.pow_succ_r by lia. lia.
Qed.

Lemma shl_align_at_least (mx : positive) (ex ex' : Z) :
  2 ^ (- ex) <= Z.pos mx ->
  2 ^ (- snd (shl_align mx ex ex')) <= Z.pos (fst (shl_align mx ex ex')).
Proof.
  intros Hge. unfold shl_align.
  destruct (ex' - ex) as [|d|d] eqn:Ed; cbn [fst snd]; try exact Hge.
  rewrite pos_iter_xO.
  assert (Hp : 0 < 2 ^ Z.pos d) by (apply Z.pow_pos_nonneg; lia).
  destruct (Z.lt_ge_cases (- ex') 0) as [Hneg|Hpos].
  - rewrite Z.pow_neg_r by exact Hneg. lia.
  - destruct (Z.lt_ge_cases (- ex) 0) as [Hn|Hp'].
    + apply Z.le_trans with (1 * 2 ^ Z.pos d); [|apply Z.mul_le_mono_nonneg_r; lia].
      rewrite Z.mul_1_l. apply Z.pow_le_mono_r; lia.
    + replace (- ex') with (- ex + Z.pos d) by lia.
      rewrite Z.pow_add_r by lia. apply Z.mul_le_mono_nonneg_r; lia.
Qed.

Lemma binary_round_at_least_one (m : positive) (e : Z) :
  2 ^ (- e) <= Z.pos m ->
  binary_round prec emax false m e = S754_infinity false \/
  exists (m' : positive) (e' : Z),
    binary_round prec emax false m e = S754_finite false m' e' /\
    2 ^ (- e') <= Z.pos m'.
Proof.
  intros Hge. unfold binary_round.
  pose proof (@shl_align_at_least m e (fexp prec emax (Z.pos (digits2_pos m) + e)) Hge) as H.
  destruct (shl_align m e (fexp prec emax (Z.pos (digits2_pos m) + e))) as [mz ez].
  cbn [fst snd] in H. apply binary_round_aux_at_least_one; [lia|exact H].
Qed.

(** [1 + v] for a [v] that is not negative is at least 1. *)
Lemma f32_add_one_at_least (v : spec_float) :
  has_sign false v ->
  f32_add f32_one v = S754_infinity false \/
  exists (m : positive) (e : Z),
    f32_add f32_one v = S754_finite false m e /\ 2 ^ (- e) <= Z.pos m.
Proof.
  destruct v as [s|s| |s mv ev]; cbn [has_sign]; intros Hs; try contradiction; subst s.
  - right. exists 8388608%positive, (-23). split; [reflexivity|]. cbn. lia.
  - left. reflexivity.
  - unfold f32_add, f32_one, SFadd. cbn [cond_Zopp].
    set (ez := Z.min (-23) ev).
    pose proof (@shl_align_at_least 8388608 (-23) ez ltac:(cbn; lia)) as Ha.
    assert (Hsnd : snd (shl_align 8388608 (-23) ez) = ez).
    { unfold shl_align. destruct (ez - -23) as [|d|d] eqn:Ed; cbn [snd]; lia. }
    rewrite Hsnd in Ha.
    change (Z.pos (fst (shl_align 8388608 (-23) ez)) + Z.pos (fst (shl_align mv ev ez)))
      with (Z.pos (fst (shl_align 8388608 (-23) ez) + fst (shl_align mv ev ez))).
    cbn [binary_normalize]. apply binary_round_at_least_one. lia.
Qed.

(** ** The quotient [1 / d] for [d] at least 1 *)

Lemma new_location_zero (n : Z) : new_location n 0 = loc_Exact.
Proof.
  unfold new_location, new_location_even, new_location_odd.
  destruct (Z.even n); reflexivity.
Qed.

Lemma f32_div_one_at_most (m : positive) (e : Z) :
  2 ^ (- e) <= Z.pos m ->
  f32_leb f32_zero (f32_div f32_one (S754_finite false m e)) = true /\
  f32_leb (f32_div f32_one (S754_finite false m e)) f32_one = true.
Proof.
  intros Hge. unfold f32_div, f32_one, SFdiv, SFdiv_core_binary.
  change (Zdigits2 (Z.pos 8388608)) with 24. cbn [Zdigits2 xorb].
  pose proof (digits2_pos_bounds m) as [Hlo Hhi].
  set (D := Z.pos (digits2_pos m)) in *.
  assert (HD1 : 1 <= D) by (unfold D; lia).
  assert (HDe : 1 <= D + e).
  { destruct (Z.le_gt_cases e 0) as [He|He]; [|lia].
    assert (H : 2 ^ (- e) < 2 ^ D) by lia.
    apply Z.pow_lt_mono_r_iff in H; lia. }
  set (e' := Z.min (fexp prec emax (24 + -23 - (D + e))) (-23 - e)).
  assert (He' : e' <= -24) by (unfold e'; rewrite fexp32; lia).
  set (s := -23 - e - e').
  assert (Hs : 0 <= s) by (unfold s, e'; lia).
  set (m' := match s with
             | 0 => Z.pos 8388608
             | Z.pos _ => Z.shiftl (Z.pos 8388608) s
             | Z.neg _ => 0
             end).
  assert (Hm' : m' = 2 ^ (23 + s)).
  { unfold m'. destruct s as [|p|p] eqn:Es; [reflexivity| |lia].
    rewrite Z.shiftl_mul_pow2 by lia. rewrite Z.pow_add_r by lia. reflexivity. }
  pose proof (Z_div_mod m' (Z.pos m) ltac:(lia)) as Hdm.
  destruct (Z.div_eucl m' (Z.pos m)) as [q r]. destruct Hdm as (Hdm & Hr).
  assert (Hq : 0 <= q) by nia.
  assert (Hexp : - e' = 23 + s + e) by (unfold s; lia).
  apply binary_round_aux_at_most_one; [exact Hq|lia|].
  rewrite Hexp.
  destruct (Z.le_gt_cases e 0) as [He|He].
  - set (A := 2 ^ (- e)) in *. set (B := 2 ^ (23 + s + e)).
    assert (HA : 1 <= A) by (unfold A; pose proof (Z.pow_pos_nonneg 2 (- e)); lia).
    assert (HB : 0 < B) by (unfold B; apply Z.pow_pos_nonneg; lia).
    assert (HBA : B * A = m').
    { unfold A, B. rewrite Hm', <- Z.pow_add_r by lia. f_equal. lia. }
    assert (HqB : q <= B).
    { apply Z.mul_le_mono_pos_r with A; [lia|]. nia. }
    apply Z.le_lteq in HqB. destruct HqB as [Hlt|Heq]; [left; exact Hlt|].
    right. split; [exact Heq|].
    assert (Hr0 : r = 0) by nia.
    rewrite Hr0. apply new_location_zero.
  - left. apply Z.le_lt_trans with m'; [nia|].
    rewrite Hm'. apply Z.pow_lt_mono_r; lia.
Qed.

(** ** The exponential and the sigmoid *)

Lemma exp_series_nonneg (n : nat) :
  forall k term acc t : Z,
    1 <= k -> 0 <= term -> 0 <= acc -> 0 <= t ->
    0 <= exp_series n k term acc t.
Proof.
  assert (H1 : 0 < fx_one) by (unfold fx_one, exp_bits; apply Z.pow_pos_nonneg; lia).
  induction n as [|n IH]; intros k term acc t Hk Hterm Hacc Ht; cbn [exp_series]; [exact Hacc|].
  assert (H : 0 <= term * t / (fx_one * k)) by (apply Z.div_pos; nia).
  apply IH; lia.
Qed.

Lemma fx_pow_e_nonneg (n : nat) : forall acc : Z, 0 <= acc -> 0 <= fx_pow_e n acc.
Proof.
  assert (H1 : 0 < fx_one) by (unfold fx_one, exp_bits; apply Z.pow_pos_nonneg; lia).
  assert (He : 0 <= fx_e) by (unfold fx_e; lia).
  induction n as [|n IH]; intros acc Hacc; cbn [fx_pow_e]; [exact Hacc|].
  apply IH. apply Z.div_pos; nia.
Qed.

Lemma fx_exp_nonneg (q : Z) : 0 <= fx_exp q.
Proof.
  assert (H1 : 0 < fx_one) by (unfold fx_one, exp_bits; apply Z.pow_pos_nonneg; lia).
  unfold fx_exp, fx_exp_unit. apply fx_pow_e_nonneg. apply exp_series_nonneg; try lia.
  apply Z.mod_pos_bound. exact H1.
Qed.

(** The exponential of a float that is not NaN is not NaN and not
    negative. *)
Lemma f32_exp_sign (v : spec_float) :
  is_nan v = false -> has_sign false (f32_exp v).
Proof.
  destruct v as [s|s| |s m e]; cbn [is_nan]; intros Hn; try discriminate.
  - reflexivity.
  - destruct s; reflexivity.
  - unfold f32_exp.
    destruct (256 * fx_one <=? Z.shiftl (Z.pos m) (e + exp_bits)); [destruct s; reflexivity|].
    set (q := Z.shiftl (Z.pos m) (e + exp_bits)).
    assert (HE : 0 <= (if s then fx_one * fx_one / fx_exp q else fx_exp q)).
    { destruct s; [|apply fx_exp_nonneg].
      pose proof (fx_exp_nonneg q) as Hq.
      assert (H1 : 0 <= fx_one * fx_one).
      { unfold fx_one, exp_bits. pose proof (Z.pow_pos_nonneg 2 320). nia. }
      apply Z.le_lteq in Hq. destruct Hq as [Hq| <-]; [apply Z.div_pos; lia|].
      rewrite Z.div_0_r. lia. }
    destruct (if s then fx_one * fx_one / fx_exp q else fx_exp q) as [|p|p];
      [reflexivity|apply binary_round_sign|lia].
Qed.

(** The sigmoid of a float that is not NaN lies between 0 and 1, both
    included. *)
Lemma f32_sigmoid_range (v : spec_float) :
  is_nan v = false ->
  f32_leb f32_zero (f32_sigmoid v) = true /\ f32_leb (f32_sigmoid v) f32_one = true.
Proof.
  intros Hn. unfold f32_sigmoid.
  assert (Hopp : is_nan (SFopp v) = false) by (destruct v; auto).
  pose proof (f32_exp_sign _ Hopp) as Hs.
  destruct (f32_add_one_at_least _ Hs) as [->|(m & e & -> & Hge)].
  - split; reflexivity.
  - now apply f32_div_one_at_most.
Qed.

Lemma f32_sigmoid_nan (v : spec_float) :
  is_nan v = true -> f32_sigmoid v = S754_nan.
Proof. destruct v; try discriminate. reflexivity. Qed.

Local Close Scope Z_scope.

(** C6, as the code has it. Whatever the element type, on shape-compatible
    weights, biases and input [forward] returns a vector of shape
    [(units_L, 1)] that is the sigmoid of a pre-activation of that shape, so
    that every element is a value of the sigmoid as the element type computes
    it and has every property that all values of that sigmoid have. When the
    elements are real numbers, every element lies strictly between 0 and 1.
    When they are floats, every element is NaN or lies between 0 and 1, both
    included. *)
Theorem forward_output_sigmoid :
  (forall (K : Scalar) (x : @tensor K) (W b : list (@tensor K)),
      shape_compatible x W b = true ->
      exists z_L : @tensor K,
        forward x W b = Ok (A z_L) /\
        shape (A z_L) = (out_units (rows x) W, 1) /\
        (forall i j : nat, elem (A z_L) i j = ssigmoid (elem z_L i j)) /\
        forall P : @scalar K -> Prop,
          (forall v : @scalar K, P (ssigmoid v)) ->
          forall i j : nat, P (elem (A z_L) i j)) /\
  (forall (x : @tensor RealNet.RealScalar) (W b : list (@tensor RealNet.RealScalar)),
      shape_compatible x W b = true ->
      exists a_L : @tensor RealNet.RealScalar,
        forward x W b = Ok a_L /\
        shape a_L = (out_units (rows x) W, 1) /\
        forall i j : nat, (0 < elem a_L i j < 1)%R) /\
  (forall (x : tensor) (W b : list tensor),
      shape_compatible x W b = true ->
      exists a_L : tensor,
        forward x W b = Ok a_L /\
        shape a_L = (out_units (rows x) W, 1) /\
        forall i j : nat,
          is_nan (elem a_L i j) = true \/
          (f32_leb f32_zero (elem a_L i j) = true /\
           f32_leb (elem a_L i j) f32_one = true)).
Proof.
  split; [|split].
  - intros K x W b Hv. exact (@forward_is_sigmoid K x W b Hv).
  - intros x W b Hv.
    destruct (@forward_is_sigmoid _ x W b Hv) as (z_L & Hf & Hs & _ & HP).
    exists (A z_L). split; [exact Hf|]. split; [exact Hs|].
    apply (HP (fun v => (0 < v < 1)%R)). exact RealNetFacts.Rsigmoid_range.
  - intros x W b Hv.
    destruct (@forward_is_sigmoid _ x W b Hv) as (z_L & Hf & Hs & _ & HP).
    exists (A z_L). split; [exact Hf|]. split; [exact Hs|].
    apply (HP (fun r => is_nan r = true \/
                        (f32_leb f32_zero r = true /\ f32_leb r f32_one = true))).
    intros v. cbn [ssigmoid F32Scalar]. destruct (is_nan v) eqn:Hn.
    + left. now rewrite (f32_sigmoid_nan _ Hn).
    + right. now apply f32_sigmoid_range.
Qed.

Lemma forward_output_sigmoid_witness :
  (shape_compatible RealNet.nb_x RealNet.nb_W RealNet.nb_b = true /\
   exists a_L : @tensor RealNet.RealScalar,
     forward RealNet.nb_x RealNet.nb_W RealNet.nb_b = Ok a_L /\
     shape a_L = (1, 1) /\
     forall i j : nat, (0 < elem a_L i j < 1)%R) /\
  (shape_compatible sat_x sat_W sat_b = true /\
   exists a_L : tensor,
     forward sat_x sat_W sat_b = Ok a_L /\
     shape a_L = (5, 1) /\
     forall i j : nat,
       is_nan (elem a_L i j) = true \/
       (f32_leb f32_zero (elem a_L i j) = true /\
        f32_leb (elem a_L i j) f32_one = true)).
Proof.
  destruct forward_output_sigmoid as (_ & Hreal & Hfloat).
  split.
  - split; [reflexivity|]. exact (Hreal RealNet.nb_x RealNet.nb_W RealNet.nb_b eq_refl).
  - split; [reflexivity|]. exact (Hfloat sat_x sat_W sat_b eq_refl).
Defined.

End Float32Facts.

(** * More about the notebook's functions *)

(** ** Lists and loops, continued *)

Lemma py_get_nat_eq {T : Type} (xs : list T) (k : nat) :
  py_get xs (Z.of_nat k) =
  match nth_error xs k with
  | Some v => Ok v
  | None => Raise IndexError
  end.
Proof.
  destruct (nth_error xs k) as [v|] eqn:E.
  - now apply py_get_nat.
  - apply py_get_nat_out. now apply nth_error_None.
Qed.

Lemma py_get_firstn_any {T : Type} (xs : list T) (n i : nat) :
  i < n -> py_get (firstn n xs) (Z.of_nat i) = py_get xs (Z.of_nat i).
Proof.
  intros Hi. rewrite !py_get_nat_eq, nth_error_firstn.
  now rewrite (proj2 (Nat.ltb_lt i n) Hi).
Qed.

Lemma for_each_seq_shift {St : Type} (body1 body2 : Z -> St -> result St) (n1 : nat) :
  (forall (k : nat) (st : St), body1 (Z.of_nat (n1 + k)) st = body2 (Z.of_nat k) st) ->
  forall (n s : nat) (st : St),
    for_each (map Z.of_nat (seq (n1 + s) n)) body1 st =
    for_each (map Z.of_nat (seq s n)) body2 st.
Proof.
  intros Hshift. induction n as [|n IH]; intros s st; [reflexivity|].
  cbn [seq map for_each]. rewrite Hshift.
  destruct (body2 (Z.of_nat s) st) as [st'|e]; cbn [bind]; [|reflexivity].
  replace (S (n1 + s)) with (n1 + S s) by lia. apply IH.
Qed.

Lemma combine_app_eq {T U : Type} (xs1 xs2 : list T) (ys1 ys2 : list U) :
  length xs1 = length ys1 ->
  combine (xs1 ++ xs2) (ys1 ++ ys2) = combine xs1 ys1 ++ combine xs2 ys2.
Proof.
  revert ys1. induction xs1 as [|v xs1 IH]; intros [|u ys1] Hlen; cbn in *;
    try discriminate; [reflexivity|].
  f_equal. apply IH. lia.
Qed.

Lemma for_each_raises_at {I St : Type} (body : I -> St -> result St) (i : I) :
  (forall st : St, exists e : error, body i st = Raise e) ->
  forall (idx : list I) (st : St),
    In i idx -> exists e : error, for_each idx body st = Raise e.
Proof.
  intros Hraise. induction idx as [|j idx IH]; intros st Hin; [contradiction|].
  cbn [for_each]. destruct Hin as [->|Hin].
  - destruct (Hraise st) as [e He]. rewrite He. cbn [bind]. eauto.
  - destruct (body j st) as [st'|e]; cbn [bind]; [now apply IH | eauto].
Qed.

Section NetExtras.

Context {K : Scalar}.

(** ** Composing and truncating networks *)

(** X1. A network made of two networks is their composition: [forward] on
    the concatenated weights and biases runs the first network and feeds its
    output to the second; an exception of the first is the exception of the
    whole. *)
Theorem forward_app (x : tensor) (W1 W2 b1 b2 : list tensor) :
  length W1 = length b1 ->
  forward x (W1 ++ W2) (b1 ++ b2) = (a <- forward x W1 b1 ;; forward a W2 b2).
Proof.
  intros Hlen. unfold forward. rewrite !py_range_0.
  rewrite length_app, seq_app, map_app, for_each_app, Nat.add_0_l.
  rewrite (for_each_ext _ _ (forward_body W1 b1)).
  - destruct (for_each (map Z.of_nat (seq 0 (length W1))) (forward_body W1 b1) x)
      as [a|e]; cbn [bind]; [|reflexivity].
    rewrite <- (Nat.add_0_r (length W1)) at 1.
    apply for_each_seq_shift. intros k st. unfold forward_body.
    rewrite !py_get_nat_eq.
    rewrite !nth_error_app2 by lia.
    replace (length W1 + k - length W1) with k by lia.
    replace (length W1 + k - length b1) with k by lia.
    reflexivity.
  - intros i st Hi. apply in_map_iff in Hi as (k & <- & Hk). apply in_seq in Hk.
    unfold forward_body. rewrite !py_get_nat_eq.
    now rewrite !nth_error_app1 by lia.
Qed.

(** X2. Neither function checks that there are as many biases as weights:
    biases beyond the last weight are never read, and the call returns or
    raises what it does without them. *)
Theorem surplus_biases_ignored (x y : tensor) (W b : list tensor) :
  forward x W b = forward x W (firstn (length W) b) /\
  forall out : list out_event,
    returns (forward_backward x y W b) out =
    returns (forward_backward x y W (firstn (length W) b)) out.
Proof.
  split.
  - unfold forward. rewrite py_range_0. apply for_each_ext.
    intros i st Hi. apply in_map_iff in Hi as (k & <- & Hk). apply in_seq in Hk.
    unfold forward_body. now rewrite py_get_firstn_any by lia.
  - intros out. rewrite !forward_backward_returns. f_equal.
    unfold forward_backward_pure, forward_sweep. cbv zeta. rewrite !py_range_0.
    rewrite (for_each_ext _ (sweep_body x W b) (sweep_body x W (firstn (length W) b))).
    2:{ intros i st Hi. apply in_map_iff in Hi as (k & <- & Hk). apply in_seq in Hk.
        unfold sweep_body. now rewrite py_get_firstn_any by lia. }
    destruct (for_each _ (sweep_body x W (firstn (length W) b)) []) as [a|e];
      cbn [bind]; [|reflexivity].
    destruct (py_get a (Z.of_nat (length W) - 1)) as [a_L|e]; cbn [bind]; [|reflexivity].
    destruct (mse_loss a_L y) as [loss|e]; cbn [bind]; [|reflexivity].
    destruct (last_layer _ _ _ _) as [g|e]; cbn [bind]; [|reflexivity].
    destruct (backward_sweep _ _ _ _) as [g'|e]; cbn [bind]; [|reflexivity].
    rewrite (for_each_ext _
               (fun l (_ : unit) => _ <- print_layer_reads W b g' l ;; Ok tt)
               (fun l (_ : unit) =>
                  _ <- print_layer_reads W (firstn (length W) b) g' l ;; Ok tt)).
    + reflexivity.
    + intros i st Hi. apply in_map_iff in Hi as (k & <- & Hk). apply in_seq in Hk.
      unfold print_layer_reads. now rewrite py_get_firstn_any by lia.
Qed.

(** ** What a run of forward_backward needs and what it leaves *)

(** The first loop of [forward_backward] completes only if every layer has
    a bias; its cache then has one entry per layer. *)
Lemma forward_sweep_ok_inv (x : tensor) (W b a : list tensor) :
  forward_sweep x W b = Ok a -> length W <= length b /\ length a = length W.
Proof.
  intros H. assert (Hlen : length W <= length b).
  { destruct (Nat.le_gt_cases (length W) (length b)) as [Hle|Hgt]; [assumption|].
    exfalso. unfold forward_sweep in H. rewrite py_range_0 in H.
    destruct (@for_each_raises_at _ _ (sweep_body x W b) (Z.of_nat (length b)))
      with (idx := map Z.of_nat (seq 0 (length W))) (st := @nil tensor) as [e He].
    - intros st. unfold sweep_body.
      destruct (if (Z.of_nat (length b) =? 0)%Z then Ok x
                else py_get st (Z.of_nat (length b) - 1)) as [a_prev|e];
        cbn [bind]; [|eauto].
      destruct (py_get W (Z.of_nat (length b))) as [W_l|e]; cbn [bind]; [|eauto].
      rewrite py_get_nat_out by lia. cbn [bind]. eauto.
    - apply in_map, in_seq. lia.
    - congruence. }
  split; [assumption|].
  rewrite forward_sweep_spec in H by assumption.
  apply activations_spec_length in H. rewrite H, length_combine. lia.
Qed.

(** A call that returns had at least one layer and a bias for each. *)
Lemma successful_run_inv (x y : tensor) (W b : list tensor) (v : locals) :
  forward_backward_pure x y W b = Ok v -> W <> [] /\ length W <= length b.
Proof.
  intros H. split.
  - intros ->. now rewrite forward_backward_no_layer in H.
  - unfold forward_backward_pure in H. cbv zeta in H.
    destruct (forward_sweep x W b) as [a|e] eqn:E; cbn [bind] in H; [|discriminate].
    exact (proj1 (forward_sweep_ok_inv _ _ _ E)).
Qed.

(** X3. Whenever [forward_backward] returns, [forward] returns on the same
    arguments, the loss returned is [mse_loss] of what [forward] returns and
    the ground truth, and the two lists returned have one entry per layer,
    none of which is [None]; each bias gradient is the error term of its
    layer. This holds for every call that returns, shape-compatible or
    not. *)
Theorem forward_backward_returns_filled (x y : tensor) (W b : list tensor)
  (out : list out_event) (loss : tensor) (W_grads b_grads : list (option tensor)) :
  returns (forward_backward x y W b) out = Ok (loss, W_grads, b_grads) ->
  (exists a_L : tensor, forward x W b = Ok a_L /\ mse_loss a_L y = Ok loss) /\
  length W_grads = length W /\
  length b_grads = length W /\
  (forall l : nat, l < length W ->
     exists wg bg : tensor,
       nth_error W_grads l = Some (Some wg) /\
       nth_error b_grads l = Some (Some bg)) /\
  (forall v : locals,
     returns (forward_backward_locals x y W b) out = Ok v ->
     fb_b_grads v = b_grads /\ fb_deltas v = b_grads).
Proof.
  rewrite forward_backward_returns. intros H.
  destruct (forward_backward_pure x y W b) as [v|e] eqn:Hrun; cbn [bind] in H;
    [|discriminate].
  injection H as <- <- <-.
  destruct (successful_run_inv _ _ _ _ Hrun) as [Hne Hlen].
  pose proof (@forward_backward_pure_outcome _ x y W b Hne Hlen) as Hout.
  rewrite Hrun in Hout.
  destruct Hout as (Hacts & Hla & (a_L & HaL & Hloss) & (Hld & Hlw & Hlb & Hdone) & _).
  cbn [g_deltas g_W_grads g_b_grads] in *.
  assert (Hane : fb_a v <> []).
  { intros E. rewrite E in Hla. destruct W; [congruence | discriminate]. }
  split; [|split; [assumption|split; [assumption|split]]].
  - exists a_L. split; [|assumption].
    rewrite forward_is_last_of_sweep, forward_sweep_spec, Hacts by assumption.
    cbn [bind]. f_equal.
    pose proof (@nth_error_last _ (fb_a v) x Hane) as Hlast.
    rewrite Hla, HaL in Hlast. now injection Hlast.
  - intros l Hl.
    destruct (Hdone l) as (_ & _ & d & wg & _ & _ & _ & _ & _ & H2 & H3); [lia|].
    exists wg, d. auto.
  - intros v' Hv'. rewrite forward_backward_locals_returns, Hrun in Hv'.
    injection Hv' as <-. split; [reflexivity|].
    apply nth_error_ext. intros l.
    destruct (Nat.lt_ge_cases l (length W)) as [Hl|Hl].
    + destruct (Hdone l) as (_ & _ & d & wg & _ & _ & _ & _ & H1 & _ & H3); [lia|].
      congruence.
    + rewrite (proj2 (nth_error_None _ _)) by lia.
      now rewrite (proj2 (nth_error_None _ _)) by lia.
Qed.

(** ** What forward_backward prints *)

(** A call of [forward_backward], stage by stage, with the standard
    output. *)
Lemma forward_backward_run (x y : tensor) (W b : list tensor) (out : list out_event) :
  forward_backward x y W b out =
  match forward_sweep x W b with
  | Raise e => (out, Raise e)
  | Ok a =>
      match py_get a (Z.of_nat (length W) - 1) with
      | Raise e => (out, Raise e)
      | Ok a_L =>
          match mse_loss a_L y with
          | Raise e => (out ++ [PrintTensor "Final activation" a_L], Raise e)
          | Ok loss =>
              let out2 := (out ++ [PrintTensor "Final activation" a_L])
                            ++ [PrintTensor "Loss" loss] in
              let nones := map (fun _ : Z => @None tensor)
                             (py_range 0 (Z.of_nat (length W) - 1 + 1)) in
              match (g <- last_layer y a (Z.of_nat (length W) - 1)
                            (mkGrads nones nones nones) ;;
                     backward_sweep W a (Z.of_nat (length W) - 1) g) with
              | Raise e => (out2, Raise e)
              | Ok g =>
                  match io_for_each (py_range 0 (Z.of_nat (length W) - 1 + 1))
                          (print_layer W b g) out2 with
                  | (out3, Ok _) => (out3, Ok (loss, g_W_grads g, g_b_grads g))
                  | (out3, Raise e) => (out3, Raise e)
                  end
              end
          end
      end
  end.
Proof.
  unfold forward_backward, forward_backward_locals, io_bind, lift, print, io_ret.
  cbv zeta.
  destruct (forward_sweep x W b) as [a|e]; [|reflexivity].
  destruct (py_get a (Z.of_nat (length W) - 1)) as [a_L|e]; [|reflexivity].
  cbn [bind].
  destruct (mse_loss a_L y) as [loss|e]; [|reflexivity].
  destruct (last_layer _ _ _ _) as [g|e]; cbn [bind]; [|reflexivity].
  destruct (backward_sweep _ _ _ _) as [g'|e]; [|reflexivity].
  destruct (io_for_each _ _ _) as [out3 [[]|e]]; reflexivity.
Qed.

(** The last loop when every line can be read: it prints them in order. *)
Lemma print_loop_run (W b : list tensor) (g : grads) (line : nat -> out_event) :
  forall (idx : list nat) (out : list out_event),
    (forall i : nat, In i idx -> print_layer_reads W b g (Z.of_nat i) = Ok (line i)) ->
    io_for_each (map Z.of_nat idx) (print_layer W b g) out = (out ++ map line idx, Ok tt).
Proof.
  induction idx as [|i idx IH]; intros out Hreads.
  - cbn. unfold io_ret. now rewrite app_nil_r.
  - cbn [map io_for_each]. unfold io_bind at 1. rewrite returns_print_layer.
    rewrite (Hreads i) by (left; reflexivity).
    rewrite IH by (intros j Hj; apply Hreads; now right).
    now rewrite <- app_assoc.
Qed.

(** The line of layer [l] once the backward sweep is done. *)
Lemma print_layer_reads_done (y : tensor) (W b a : list tensor) (g : grads) (l : nat)
  (W_l b_l : tensor) :
  backward_inv y W a 0 g ->
  nth_error W l = Some W_l -> nth_error b l = Some b_l ->
  exists wg d : tensor,
    nth_error (g_W_grads g) l = Some (Some wg) /\
    nth_error (g_deltas g) l = Some (Some d) /\
    nth_error (g_b_grads g) l = Some (Some d) /\
    print_layer_reads W b g (Z.of_nat l) =
    Ok (PrintLayer (Z.of_nat l) (shape_list W_l) (shape_list wg) (shape_list b_l)
          (shape_list d) (shape_list d)).
Proof.
  intros (_ & _ & _ & Hdone) HWl Hbl.
  assert (Hl : l < length W) by (apply nth_error_Some; congruence).
  destruct (Hdone l) as (_ & _ & d & wg & _ & _ & _ & _ & H1 & H2 & H3); [lia|].
  exists wg, d. repeat split; try assumption.
  unfold print_layer_reads.
  now rewrite (py_get_nat _ _ HWl), (py_get_nat _ _ H2), (py_get_nat _ _ Hbl),
    (py_get_nat _ _ H3), (py_get_nat _ _ H1).
Qed.

(** The two stages of the backward sweep leave every layer done. *)
Lemma backward_stage_inv (y : tensor) (W a : list tensor) (g : grads) :
  W <> [] -> length a = length W ->
  (let nones := map (fun _ : Z => @None tensor)
                  (py_range 0 (Z.of_nat (length W) - 1 + 1)) in
   g0 <- last_layer y a (Z.of_nat (length W) - 1) (mkGrads nones nones nones) ;;
   backward_sweep W a (Z.of_nat (length W) - 1) g0) = Ok g ->
  backward_inv y W a 0 g.
Proof.
  intros Hne Ha. cbv zeta. rewrite py_range_0.
  assert (HL : exists L, length W = S L) by (destruct W; [congruence | cbn; eauto]).
  destruct HL as [L HL].
  replace (Z.of_nat (length W) - 1)%Z with (Z.of_nat L) by lia.
  set (nones := map (fun _ : Z => @None tensor) (map Z.of_nat (seq 0 (length W)))).
  assert (Hnones : length nones = length W)
    by (unfold nones; now rewrite !length_map, length_seq).
  destruct (@last_layer_step _ y W a L (mkGrads nones nones nones))
    as (a_L & a_prev & HaL & Hprev & Heq & Hclose); try assumption.
  rewrite Heq. clear Heq.
  destruct (delta_last_spec a_L y) as [d|e] eqn:Ed; cbn [bind]; [|discriminate].
  destruct (weight_gradient_spec d a_prev) as [wg|e] eqn:Ew; cbn [bind]; [|discriminate].
  specialize (Hclose d wg eq_refl Ew).
  pose proof (@backward_sweep_outcome _ False y W a L 0 _ HL Ha
                (fun f => False_ind _ f) (fun f => False_ind _ f) Hclose
                (fun f => False_ind _ f)) as Hsweep.
  destruct (backward_sweep W a (Z.of_nat L) _) as [g'|e]; [|discriminate].
  intros H. injection H as <-. exact (proj1 Hsweep).
Qed.

Lemma final_activation_is_forward (x : tensor) (W b a : list tensor) (a_L : tensor) :
  forward_sweep x W b = Ok a ->
  py_get a (Z.of_nat (length W) - 1) = Ok a_L ->
  forward x W b = Ok a_L /\ W <> [] /\ length W <= length b /\ length a = length W.
Proof.
  intros Hsweep Hget.
  destruct (forward_sweep_ok_inv _ _ _ Hsweep) as [Hlen Ha].
  assert (Hne : W <> []).
  { intros ->. destruct a; [discriminate Hget | discriminate Ha]. }
  assert (Hane : a <> []) by (intros ->; destruct W; [congruence | discriminate]).
  rewrite <- Ha, (py_get_last x Hane) in Hget. injection Hget as <-.
  rewrite forward_is_last_of_sweep, Hsweep. auto.
Qed.

(** X4. What is on the standard output when [forward_backward] raises: if
    [forward] raises on the same arguments, the same exception is raised
    and nothing has been printed; otherwise the final activation has been
    printed, and the loss too unless it is the loss that raised. The lines
    of shapes are printed only by a call that returns. *)
Theorem output_of_a_failed_call (x y : tensor) (W b : list tensor)
  (out : list out_event) :
  (forall e : error,
      forward x W b = Raise e -> forward_backward x y W b out = (out, Raise e)) /\
  (forall (a_L : tensor) (e : error),
      W <> [] -> forward x W b = Ok a_L -> mse_loss a_L y = Raise e ->
      forward_backward x y W b out =
      (out ++ [PrintTensor "Final activation" a_L], Raise e)) /\
  (forall e : error,
      returns (forward_backward x y W b) out = Raise e ->
      prints (forward_backward x y W b) out = out \/
      exists a_L : tensor,
        forward x W b = Ok a_L /\
        (prints (forward_backward x y W b) out =
         out ++ [PrintTensor "Final activation" a_L] \/
         exists loss : tensor,
           mse_loss a_L y = Ok loss /\
           prints (forward_backward x y W b) out =
           out ++ [PrintTensor "Final activation" a_L; PrintTensor "Loss" loss])).
Proof.
  split; [|split].
  - intros e He. rewrite forward_backward_run.
    rewrite forward_is_last_of_sweep in He.
    destruct (forward_sweep x W b) as [a|e']; cbn [bind] in He; [discriminate|].
    now injection He as ->.
  - intros a_L e Hne Hf Hloss. rewrite forward_backward_run.
    rewrite forward_is_last_of_sweep in Hf.
    destruct (forward_sweep x W b) as [a|e'] eqn:Hsweep; cbn [bind] in Hf; [|discriminate].
    injection Hf as <-.
    destruct (forward_sweep_ok_inv _ _ _ Hsweep) as [_ Ha].
    assert (Hane : a <> []) by (intros ->; destruct W; [congruence | discriminate]).
    rewrite <- Ha, (py_get_last x Hane). now rewrite Hloss.
  - intros e. unfold returns, prints. rewrite forward_backward_run. cbv zeta.
    destruct (forward_sweep x W b) as [a|e1] eqn:Hsweep; [|now left].
    destruct (py_get a (Z.of_nat (length W) - 1)) as [a_L|e2] eqn:Hget; [|now left].
    destruct (final_activation_is_forward _ _ _ Hsweep Hget) as (Hf & Hne & Hlen & Ha).
    intros H. right. exists a_L. split; [assumption|].
    destruct (mse_loss a_L y) as [loss|e3]; [|now left].
    right. exists loss. split; [reflexivity|].
    destruct (bind _ _) as [g|e4] eqn:Hback in H |- *.
    + pose proof (@backward_stage_inv y W a g Hne Ha Hback) as Hinv.
      exfalso. rewrite py_range_0 in H.
      rewrite (@print_loop_run W b g
                 (fun i => match print_layer_reads W b g (Z.of_nat i) with
                           | Ok ev => ev
                           | Raise _ => PrintLayer 0 [] [] [] [] []
                           end)) in H.
      * discriminate H.
      * intros i Hi. apply in_seq in Hi.
        destruct (nth_error W i) as [W_i|] eqn:EW; [|apply nth_error_None in EW; lia].
        destruct (nth_error b i) as [b_i|] eqn:Eb; [|apply nth_error_None in Eb; lia].
        destruct (@print_layer_reads_done y W b a g i W_i b_i Hinv EW Eb)
          as (wg & d & _ & _ & _ & Hr).
        now rewrite Hr.
    + cbn [fst]. now rewrite <- app_assoc.
Qed.

(** X5. What a call on shape-compatible arguments prints, after what was
    on the standard output: the final activation, which is what [forward]
    returns, the loss, and one line per layer, from layer 0 to layer [L],
    with the shapes of the weight, of the weight gradient that is returned,
    of the bias, of the bias gradient and of the error term; the last three
    are the same shape. *)
Theorem printed_report (x y : tensor) (W b : list tensor) :
  shape_compatible_fb x y W b = true ->
  forall out : list out_event,
  exists (a_L loss : tensor) (W_grads b_grads : list (option tensor))
         (lines : list out_event),
    forward_backward x y W b out =
    (out ++ PrintTensor "Final activation" a_L :: PrintTensor "Loss" loss :: lines,
     Ok (loss, W_grads, b_grads)) /\
    forward x W b = Ok a_L /\
    length lines = length W /\
    forall (l : nat) (W_l b_l : tensor),
      nth_error W l = Some W_l -> nth_error b l = Some b_l ->
      exists wg : tensor,
        nth_error W_grads l = Some (Some wg) /\
        nth_error lines l =
        Some (PrintLayer (Z.of_nat l) (shape_list W_l) (shape_list wg)
                (shape_list b_l) (shape_list b_l) (shape_list b_l)).
Proof.
  intros Hv out.
  pose proof (shape_compatible_fb_inv _ _ _ _ Hv) as (_ & Hne & Hl & _).
  destruct (forward_backward_pure_valid _ _ _ _ Hv)
    as (v & Hrun & _ & Hla & _ & Hinv & Hds).
  unfold forward_backward_pure in Hrun. cbv zeta in Hrun.
  rewrite forward_backward_run. cbv zeta.
  destruct (forward_sweep x W b) as [a|] eqn:Hsweep; cbn [bind] in Hrun; [|discriminate].
  destruct (py_get a (Z.of_nat (length W) - 1)) as [a_L|] eqn:Hget; cbn [bind] in Hrun;
    [|discriminate].
  destruct (final_activation_is_forward _ _ _ Hsweep Hget) as (Hf & _ & Hlen & Ha).
  destruct (mse_loss a_L y) as [loss|]; cbn [bind] in Hrun; [|discriminate].
  destruct (last_layer _ _ _ _) as [g0|]; cbn [bind] in Hrun |- *; [|discriminate].
  destruct (backward_sweep _ _ _ _) as [g|]; cbn [bind] in Hrun; [|discriminate].
  destruct (for_each _ _ tt) as [[]|]; cbn [bind] in Hrun; [|discriminate].
  injection Hrun as <-. cbn [fb_a fb_deltas fb_W_grads fb_b_grads] in *.
  destruct g as [ds wgs bgs]. cbn [g_deltas g_W_grads g_b_grads] in *.
  set (g := mkGrads ds wgs bgs) in *.
  set (line := fun i => match print_layer_reads W b g (Z.of_nat i) with
                        | Ok ev => ev
                        | Raise _ => PrintLayer 0 [] [] [] [] []
                        end).
  assert (Hline : forall (l : nat) (W_l b_l : tensor),
             nth_error W l = Some W_l -> nth_error b l = Some b_l ->
             exists wg : tensor,
               nth_error wgs l = Some (Some wg) /\
               print_layer_reads W b g (Z.of_nat l) =
               Ok (PrintLayer (Z.of_nat l) (shape_list W_l) (shape_list wg)
                     (shape_list b_l) (shape_list b_l) (shape_list b_l))).
  { intros l W_l b_l HWl Hbl.
    destruct (@print_layer_reads_done y W b a g l W_l b_l Hinv HWl Hbl)
      as (wg & d & H2 & H1 & _ & Hr).
    exists wg. split; [exact H2|]. rewrite Hr.
    assert (Hl0 : 0 <= l) by lia.
    destruct (Hds l d W_l Hl0 H1 HWl) as [Hdr Hdc].
    destruct (layers_ok_nth _ _ _ _ Hl HWl) as (_ & b_l' & Hb' & Hbr & Hbc).
    rewrite Hbl in Hb'. injection Hb' as <-.
    unfold shape_list. now rewrite Hdr, Hdc, Hbr, Hbc. }
  rewrite py_range_0, (@print_loop_run W b g line).
  - exists a_L, loss, wgs, bgs, (map line (seq 0 (length W))).
    split; [now rewrite <- !app_assoc|].
    split; [assumption|].
    split; [now rewrite length_map, length_seq|].
    intros l W_l b_l HWl Hbl.
    destruct (Hline l W_l b_l HWl Hbl) as (wg & Hwg & Hr).
    exists wg. split; [assumption|].
    assert (Hlt : l < length W) by (apply nth_error_Some; congruence).
    rewrite nth_error_map, nth_error_seq, (proj2 (Nat.ltb_lt _ _) Hlt).
    cbn [option_map Nat.add]. unfold line. now rewrite Hr.
  - intros i Hi. apply in_seq in Hi.
    destruct (nth_error W i) as [W_i|] eqn:EW; [|apply nth_error_None in EW; lia].
    destruct (nth_error b i) as [b_i|] eqn:Eb; [|apply nth_error_None in Eb; lia].
    destruct (Hline i W_i b_i EW Eb) as (wg & _ & Hr).
    unfold line. now rewrite Hr.
Qed.

(** ** The shapes and the formulas of what is returned *)

(** X6. The shapes of what [forward_backward] returns on shape-compatible
    arguments. The loss is not a scalar: it has one row per unit of the last
    layer. Every bias gradient has the shape of its bias, and every weight
    gradient from layer 1 on the shape of its weight. The weight gradient of
    layer 0 has as many columns as the last layer has units, so the weight
    gradients all have the shapes of the weights exactly when the input has
    as many rows as the output. *)
Theorem returned_shapes_valid (x y : tensor) (W b : list tensor) :
  shape_compatible_fb x y W b = true ->
  forall out : list out_event,
  exists (loss : tensor) (W_grads b_grads : list (option tensor)),
    returns (forward_backward x y W b) out = Ok (loss, W_grads, b_grads) /\
    shape loss = (out_units (rows x) W, 1) /\
    shapes_of b_grads = map (fun b_l => Some (shape b_l)) b /\
    (forall (l : nat) (W_l : tensor),
        nth_error W l = Some W_l ->
        exists wg : tensor,
          nth_error W_grads l = Some (Some wg) /\
          shape wg = (rows W_l,
                      match l with
                      | O => out_units (rows x) W
                      | S _ => cols W_l
                      end)) /\
    (shapes_of W_grads = map (fun W_l => Some (shape W_l)) W <->
     rows x = out_units (rows x) W).
Proof.
  intros Hv out.
  pose proof (shape_compatible_fb_inv _ _ _ _ Hv) as (Hx & Hne & Hl & Hy1 & Hy2).
  pose proof (layers_ok_length _ _ _ Hl) as Hlenb.
  destruct (gradient_shapes _ _ _ _ Hv) as (v & Hrun & Hlw & Hlb & Hshapes).
  destruct (forward_backward_pure_valid _ _ _ _ Hv)
    as (v' & Hrun' & Hacts & Hla & (a_L & HaL & Hloss) & _ & _).
  rewrite Hrun in Hrun'. injection Hrun' as <-.
  exists (fb_loss v), (fb_W_grads v), (fb_b_grads v).
  rewrite forward_backward_returns, Hrun. cbn [bind].
  assert (Hper : forall (l : nat) (W_l : tensor),
             nth_error W l = Some W_l ->
             exists wg : tensor,
               nth_error (fb_W_grads v) l = Some (Some wg) /\
               shape wg = (rows W_l,
                           match l with
                           | O => out_units (rows x) W
                           | S _ => cols W_l
                           end)).
  { intros l W_l HWl.
    destruct (layers_ok_nth _ _ _ _ Hl HWl) as (_ & b_l & Hbl & _).
    destruct (Hshapes l W_l b_l HWl Hbl) as (wg & bg & H1 & _ & _ & H3). eauto. }
  split; [reflexivity|]. split; [|split; [|split; [exact Hper|]]].
  - destruct (nth_error W (length W - 1)) as [W_L|] eqn:EW.
    2:{ apply nth_error_None in EW. destruct W; [congruence | cbn in EW; lia]. }
    destruct (@cache_shapes _ x y W b (fb_a v) Hv Hacts _ _ _ HaL EW) as [Hr Hc].
    destruct (mse_loss_shape a_L y) as (loss & Hloss' & Hlr & Hlc);
      [rewrite Hy1, (@out_units_last _ W (rows x) W_L EW); congruence | congruence |].
    rewrite Hloss in Hloss'. injection Hloss' as <-.
    unfold shape. rewrite Hlr, Hlc, Hr, Hc.
    now rewrite (@out_units_last _ W (rows x) W_L EW).
  - apply nth_error_ext. intros l. unfold shapes_of. rewrite !nth_error_map.
    destruct (nth_error b l) as [b_l|] eqn:Eb.
    + destruct (nth_error W l) as [W_l|] eqn:EW.
      2:{ apply nth_error_None in EW.
          assert (l < length b) by (apply nth_error_Some; congruence). lia. }
      destruct (Hshapes l W_l b_l EW Eb) as (wg & bg & _ & H2 & H3 & _).
      rewrite H2. cbn [option_map]. now rewrite H3.
    + apply nth_error_None in Eb.
      now rewrite (proj2 (nth_error_None _ _)) by lia.
  - split.
    + intros Hall.
      destruct W as [|W_0 W']; [congruence|].
      destruct (Hper 0 W_0 eq_refl) as (wg & Hwg & Hs).
      assert (H0 : nth_error (shapes_of (fb_W_grads v)) 0 = Some (Some (shape W_0)))
        by (rewrite Hall; reflexivity).
      unfold shapes_of in H0. rewrite nth_error_map, Hwg in H0. cbn [option_map] in H0.
      rewrite Hs in H0. unfold shape in H0.
      pose proof (proj1 (layers_ok_nth _ _ _ _ Hl
                           (eq_refl : nth_error (W_0 :: W') 0 = Some W_0))) as Hc.
      cbn [fan_in] in Hc. congruence.
    + intros Hio. apply nth_error_ext. intros l. unfold shapes_of.
      rewrite !nth_error_map.
      destruct (nth_error W l) as [W_l|] eqn:EW.
      * destruct (Hper l W_l EW) as (wg & Hwg & Hs).
        rewrite Hwg. cbn [option_map]. rewrite Hs. unfold shape. do 3 f_equal.
        destruct l as [|l]; [|reflexivity].
        rewrite <- Hio.
        exact (eq_sym (proj1 (layers_ok_nth _ _ _ _ Hl EW))).
      * apply nth_error_None in EW.
        now rewrite (proj2 (nth_error_None _ _)) by lia.
Qed.

(** X7. The backward sweep below the last layer, on shape-compatible
    arguments: for every layer [l < L] the error term is
    [(transpose(W[l+1]) . deltas[l+1]) (.) a[l] (.) (1 - a[l])] and is the
    bias gradient, and for every layer [1 <= l < L] the weight gradient is
    that error term times the transposed activation of layer [l - 1]. *)
Theorem backward_below_last_layer (x y : tensor) (W b : list tensor) :
  shape_compatible_fb x y W b = true ->
  forall out : list out_event,
  exists v : locals,
    returns (forward_backward_locals x y W b) out = Ok v /\
    forall l : nat, S l < length W ->
      exists a_l W_next delta_next delta_l : tensor,
        nth_error (fb_a v) l = Some a_l /\
        nth_error W (S l) = Some W_next /\
        nth_error (fb_deltas v) (S l) = Some (Some delta_next) /\
        delta_hidden_spec W_next delta_next a_l = Ok delta_l /\
        nth_error (fb_deltas v) l = Some (Some delta_l) /\
        nth_error (fb_b_grads v) l = Some (Some delta_l) /\
        (0 < l ->
         exists a_prev wg : tensor,
           nth_error (fb_a v) (l - 1) = Some a_prev /\
           weight_gradient_spec delta_l a_prev = Ok wg /\
           nth_error (fb_W_grads v) l = Some (Some wg)).
Proof.
  intros Hv out. destruct (hidden_layer_backward _ _ _ _ Hv) as (v & Hrun & Hlayers).
  exists v. rewrite forward_backward_locals_returns. auto.
Qed.

(** ** The last layer in closed form *)

Lemma activations_spec_app (l1 l2 : list (tensor * tensor)) :
  forall x : tensor,
    activations_spec x (l1 ++ l2) =
    (acts1 <- activations_spec x l1 ;;
     acts2 <- activations_spec (last acts1 x) l2 ;;
     Ok (acts1 ++ acts2)).
Proof.
  induction l1 as [|[w c] l1 IH]; intros x.
  - cbn [app activations_spec bind last].
    destruct (activations_spec x l2); reflexivity.
  - cbn [app activations_spec].
    destruct (matmul w x) as [m|]; cbn [bind]; [|reflexivity].
    destruct (tadd m c) as [z|]; cbn [bind]; [|reflexivity].
    rewrite IH.
    destruct (activations_spec (sigmoid z) l1) as [acts1|]; cbn [bind]; [|reflexivity].
    replace (last (sigmoid z :: acts1) x) with (last acts1 (sigmoid z)).
    + destruct (activations_spec (last acts1 (sigmoid z)) l2); reflexivity.
    + destruct acts1 as [|t acts1]; [reflexivity|].
      change (last (t :: acts1) (sigmoid z) = last (t :: acts1) x).
      apply last_default_irrelevant. discriminate.
Qed.

Lemma out_units_app_last (Wp : list tensor) (W_L : tensor) :
  forall d : nat, out_units d (Wp ++ [W_L]) = rows W_L.
Proof.
  induction Wp as [|w Wp IH]; intros d; [reflexivity|]. cbn. apply IH.
Qed.

(** Shape compatibility depends on the shapes only: here, of the last
    layer. *)
Lemma layers_ok_replace_last (Wp : list tensor) (W_L b_L W' b' : tensor) :
  rows W' = rows W_L -> cols W' = cols W_L ->
  rows b' = rows b_L -> cols b' = cols b_L ->
  forall (d : nat) (bp : list tensor),
    layers_ok d (Wp ++ [W_L]) (bp ++ [b_L]) = true ->
    layers_ok d (Wp ++ [W']) (bp ++ [b']) = true.
Proof.
  intros HWr HWc Hbr Hbc.
  induction Wp as [|w Wp IH]; intros d bp H.
  - destruct bp as [|c bp].
    + cbn in H |- *. now rewrite HWr, HWc, Hbr, Hbc.
    + cbn in H. destruct bp; cbn in H; rewrite andb_false_r in H; discriminate.
  - destruct bp as [|c bp].
    + cbn in H. destruct Wp; cbn in H; rewrite andb_false_r in H; discriminate.
    + cbn [app layers_ok] in H |- *.
      apply andb_prop in H as [H Hrest]. rewrite H. cbn [andb]. now apply IH.
Qed.

Lemma shape_compatible_replace_last (x y : tensor) (Wp bp : list tensor)
  (W_L b_L W' b' : tensor) :
  rows W' = rows W_L -> cols W' = cols W_L ->
  rows b' = rows b_L -> cols b' = cols b_L ->
  shape_compatible_fb x y (Wp ++ [W_L]) (bp ++ [b_L]) = true ->
  shape_compatible_fb x y (Wp ++ [W']) (bp ++ [b']) = true.
Proof.
  intros HWr HWc Hbr Hbc Hv.
  apply shape_compatible_fb_inv in Hv as (Hx & _ & Hl & Hy1 & Hy2).
  unfold shape_compatible_fb, shape_compatible.
  rewrite (@layers_ok_replace_last Wp W_L b_L W' b' HWr HWc Hbr Hbc (rows x) bp Hl).
  rewrite out_units_app_last in *. rewrite length_app. cbn [length].
  replace (length Wp + 1 =? 0) with false by (symmetry; apply Nat.eqb_neq; lia).
  rewrite Hx, Hy1, Hy2, HWr, !Nat.eqb_refl. reflexivity.
Qed.

(** The last layer of a shape-compatible network, for every weight and
    bias of the shapes of its own: the activations below it are the same,
    and the run is the one of a single layer fed with the last of them. *)
Lemma last_layer_closed_form (x y : tensor) (Wp bp : list tensor) (W_L b_L : tensor) :
  shape_compatible_fb x y (Wp ++ [W_L]) (bp ++ [b_L]) = true ->
  exists acts : list tensor,
    activations_spec x (combine Wp bp) = Ok acts /\
    length acts = length Wp /\
    forall W' b' : tensor,
      rows W' = rows W_L -> cols W' = cols W_L ->
      rows b' = rows b_L -> cols b' = cols b_L ->
      exists (v : locals) (m z d a_prev wg : tensor),
        forward_backward_pure x y (Wp ++ [W']) (bp ++ [b']) = Ok v /\
        matmul W' (last acts x) = Ok m /\
        tadd m b' = Ok z /\
        rows z = rows W_L /\ cols z = 1 /\
        (Wp <> [] -> a_prev = last acts x) /\
        fb_a v = acts ++ [sigmoid z] /\
        mse_loss (sigmoid z) y = Ok (fb_loss v) /\
        delta_last_spec (sigmoid z) y = Ok d /\
        nth_error (fb_b_grads v) (length Wp) = Some (Some d) /\
        py_get (fb_a v) (Z.of_nat (length Wp) - 1) = Ok a_prev /\
        weight_gradient_spec d a_prev = Ok wg /\
        nth_error (fb_W_grads v) (length Wp) = Some (Some wg).
Proof.
  intros Hv.
  pose proof (shape_compatible_fb_inv _ _ _ _ Hv) as (_ & _ & Hl & _).
  pose proof (layers_ok_length _ _ _ Hl) as Hlen.
  rewrite !length_app in Hlen. cbn [length] in Hlen.
  assert (Hlenp : length Wp = length bp) by lia.
  destruct (forward_backward_pure_valid _ _ _ _ Hv) as (v0 & _ & Hacts0 & _).
  rewrite combine_app_eq, activations_spec_app in Hacts0 by assumption.
  destruct (activations_spec x (combine Wp bp)) as [acts|] eqn:Eacts;
    cbn [bind] in Hacts0; [|discriminate].
  clear Hacts0 v0.
  exists acts. split; [reflexivity|].
  assert (Hla : length acts = length Wp).
  { apply activations_spec_length in Eacts. rewrite Eacts, length_combine. lia. }
  split; [assumption|].
  intros W' b' HWr HWc Hbr Hbc.
  pose proof (@shape_compatible_replace_last x y Wp bp W_L b_L W' b' HWr HWc Hbr Hbc Hv)
    as Hv'.
  destruct (forward_backward_pure_valid _ _ _ _ Hv')
    as (v & Hrun & Hacts & Hlav & (a_L & HaL & Hloss) & (_ & _ & _ & Hdone) & _).
  cbn [g_deltas g_W_grads g_b_grads] in *.
  rewrite combine_app_eq, activations_spec_app, Eacts in Hacts by assumption.
  cbn [bind combine activations_spec] in Hacts.
  destruct (matmul W' (last acts x)) as [m|] eqn:Em; cbn [bind] in Hacts; [|discriminate].
  destruct (tadd m b') as [z|] eqn:Ez; cbn [bind] in Hacts; [|discriminate].
  injection Hacts as Hacts.
  rewrite length_app in HaL, Hdone. cbn [length] in HaL, Hdone.
  replace (length Wp + 1 - 1) with (length Wp) in HaL by lia.
  rewrite <- Hacts, <- Hla, nth_error_middle in HaL. injection HaL as <-.
  destruct (Hdone (length Wp)) as (a_l & a_prev & d & wg & Ha & Hprev & Hdelta & Hwg & _ & H2 & H3);
    [lia|].
  rewrite length_app in Hdelta. cbn [length] in Hdelta.
  replace (S (length Wp) =? length Wp + 1) with true in Hdelta
    by (symmetry; apply Nat.eqb_eq; lia).
  rewrite <- Hacts, <- Hla, nth_error_middle in Ha. injection Ha as <-.
  assert (Hz : rows z = rows W_L /\ cols z = 1).
  { assert (HaL : nth_error (fb_a v) (length Wp) = Some (sigmoid z))
      by (rewrite <- Hacts, <- Hla; apply nth_error_middle).
    assert (HWL : nth_error (Wp ++ [W']) (length Wp) = Some W')
      by apply nth_error_middle.
    assert (Hacts' : activations_spec x (combine (Wp ++ [W']) (bp ++ [b'])) = Ok (fb_a v)).
    { rewrite combine_app_eq, activations_spec_app, Eacts by assumption.
      cbn [bind combine activations_spec]. rewrite Em. cbn [bind]. rewrite Ez.
      cbn [bind]. now rewrite Hacts. }
    destruct (@cache_shapes _ x y _ _ (fb_a v) Hv' Hacts' _ _ _ HaL HWL) as [Hr Hc].
    cbn in Hr, Hc. split; congruence. }
  destruct Hz as [Hzr Hzc].
  exists v, m, z, d, a_prev, wg. repeat split; auto.
  intros Hne.
  assert (Hane : acts <> []) by (intros ->; destruct Wp; [congruence | discriminate]).
  destruct (py_get_previous (fb_a v) x (l := length Wp)) as (p & Hp & _ & Hp').
  { rewrite <- Hacts, length_app. cbn. lia. }
  rewrite Hp in Hprev. injection Hprev as <-.
  assert (Hpos : 0 < length Wp) by (destruct Wp; [congruence | cbn; lia]).
  specialize (Hp' Hpos). rewrite <- Hacts, nth_error_app1 in Hp' by lia.
  pose proof (@nth_error_last _ acts x Hane) as Hlast.
  rewrite Hla, Hp' in Hlast. now injection Hlast.
Qed.

End NetExtras.

(** * More about values, with real numbers *)

Module RealNetExtras.

Import RealNet.

(** ** Elements of the results of the tensor operations *)

Lemma tmap2_elem (f : R -> R -> R) (t u r : tensor) :
  tmap2 f t u = Ok r ->
  forall i j : nat,
    elem r i j =
    f (elem t (bidx (rows t) i) (bidx (cols t) j))
      (elem u (bidx (rows u) i) (bidx (cols u) j)).
Proof.
  unfold tmap2.
  destruct (broadcast_dim (rows t) (rows u)); cbn [bind]; [|discriminate].
  destruct (broadcast_dim (cols t) (cols u)); cbn [bind]; [|discriminate].
  intros H. injection H as <-. reflexivity.
Qed.

Lemma matmul_elem (t u r : tensor) :
  matmul t u = Ok r ->
  forall i j : nat,
    elem r i j = dot (cols t) (fun k => elem t i k) (fun k => elem u k j).
Proof.
  unfold matmul. destruct (cols t =? rows u); [|discriminate].
  intros H. injection H as <-. reflexivity.
Qed.

Lemma bidx_in_range (n i : nat) : i < n -> bidx n i = i.
Proof.
  intros Hi. unfold bidx. destruct (n =? 1) eqn:E; [|reflexivity].
  apply Nat.eqb_eq in E. lia.
Qed.

Lemma dot_fold_zero (f g : nat -> R) (idx : list nat) (acc : R) :
  (forall k : nat, (f k * g k = 0)%R) ->
  fold_left (fun a k => sadd a (smul (f k) (g k))) idx acc = acc.
Proof.
  intros Hz. revert acc. induction idx as [|k idx IH]; intros acc; [reflexivity|].
  cbn [fold_left]. rewrite IH. cbn. rewrite Hz. lra.
Qed.

Lemma dot_zero (n : nat) (f g : nat -> R) :
  (forall k : nat, (f k * g k = 0)%R) -> dot n f g = 0%R.
Proof.
  intros Hz. unfold dot. now apply dot_fold_zero.
Qed.

(** ** The loss *)

(** X8. The loss separates predictions: an element of the loss is 0 only
    where the prediction is the ground truth. It is symmetric: exchanging
    prediction and ground truth gives the same loss. *)
Theorem mse_loss_definite_symmetric (a_L y loss : tensor) :
  mse_loss a_L y = Ok loss ->
  (forall i j : nat,
      elem loss i j = 0%R <->
      elem a_L (bidx (rows a_L) i) (bidx (cols a_L) j) =
      elem y (bidx (rows y) i) (bidx (cols y) j)) /\
  exists loss' : tensor,
    mse_loss y a_L = Ok loss' /\
    shape loss' = shape loss /\
    forall i j : nat, elem loss' i j = elem loss i j.
Proof.
  unfold mse_loss, tsub, tmap2. intros H.
  destruct (broadcast_dim (rows a_L) (rows y)) as [r|] eqn:Er; cbn [bind] in H;
    [|discriminate].
  destruct (broadcast_dim (cols a_L) (cols y)) as [c|] eqn:Ec; cbn [bind] in H;
    [|discriminate].
  injection H as <-. split.
  - intros i j. cbn.
    set (p := elem a_L (bidx (rows a_L) i) (bidx (cols a_L) j)).
    set (q := elem y (bidx (rows y) i) (bidx (cols y) j)).
    split; intros H.
    + assert (Hsq : ((p - q) * (p - q) = 0)%R) by lra.
      apply Rmult_integral in Hsq. lra.
    + rewrite H. lra.
  - assert (Hsym : forall m n v : nat, broadcast_dim m n = Ok v -> broadcast_dim n m = Ok v).
    { intros m n v. unfold broadcast_dim.
      destruct (m =? n) eqn:E1.
      - apply Nat.eqb_eq in E1. subst n. now rewrite Nat.eqb_refl.
      - rewrite (Nat.eqb_sym n m), E1.
        destruct (m =? 1) eqn:E2, (n =? 1) eqn:E3; try discriminate; try (intros H; exact H).
        apply Nat.eqb_eq in E2, E3. apply Nat.eqb_neq in E1. lia. }
    rewrite (Hsym _ _ _ Er), (Hsym _ _ _ Ec). cbn [bind].
    eexists. split; [reflexivity|]. split; [reflexivity|].
    intros i j. cbn. lra.
Qed.

Lemma mse_loss_elem (a_L y loss : tensor) :
  mse_loss a_L y = Ok loss ->
  forall i j : nat,
    elem loss i j =
    (1 / 2 * (elem a_L (bidx (rows a_L) i) (bidx (cols a_L) j)
              - elem y (bidx (rows y) i) (bidx (cols y) j)) ^ 2)%R.
Proof.
  unfold mse_loss, tsub. intros H i j.
  destruct (tmap2 ssub a_L y) as [d|] eqn:Ed; cbn [bind] in H; [|discriminate].
  injection H as <-. cbn [half_times tpow tmap elem].
  now rewrite (tmap2_elem _ _ _ Ed).
Qed.

(** ** The gradients *)

Lemma delta_last_elem (a_L y d : tensor) :
  delta_last_spec a_L y = Ok d ->
  rows y = rows a_L -> cols y = cols a_L ->
  forall i j : nat,
    elem d i j =
    let p := bidx (rows a_L) i in
    let q := bidx (cols a_L) j in
    ((elem a_L p q - elem y p q) * elem a_L p q * (1 - elem a_L p q))%R.
Proof.
  unfold delta_last_spec, tsub, tmul. intros H Hr Hc i j.
  destruct (tmap2_same_shape ssub a_L y) as (d1 & H1 & H1r & H1c); [congruence..|].
  rewrite H1 in H. cbn [bind] in H.
  destruct (tmap2_same_shape smul d1 a_L) as (d2 & H2 & H2r & H2c); [congruence..|].
  rewrite H2 in H. cbn [bind] in H.
  rewrite (tmap2_elem _ _ _ H), (tmap2_elem _ _ _ H2), (tmap2_elem _ _ _ H1).
  cbn [one_minus tmap rows cols elem].
  rewrite H2r, H2c, H1r, H1c, Hr, Hc.
  assert (Hb : forall n k : nat, bidx n (bidx n k) = bidx n k).
  { intros n k. unfold bidx. destruct (n =? 1); reflexivity. }
  cbv zeta. rewrite !Hb. reflexivity.
Qed.

Lemma delta_hidden_zero (W_next d_next a_l d : tensor) :
  delta_hidden_spec W_next d_next a_l = Ok d ->
  (forall i j : nat, elem d_next i j = 0%R) ->
  forall i j : nat, elem d i j = 0%R.
Proof.
  unfold delta_hidden_spec, tmul. intros H Hz i j.
  destruct (matmul (transpose W_next) d_next) as [m|] eqn:Em; cbn [bind] in H;
    [|discriminate].
  destruct (tmap2 smul m a_l) as [d2|] eqn:E2; cbn [bind] in H; [|discriminate].
  rewrite (tmap2_elem _ _ _ H), (tmap2_elem _ _ _ E2), (matmul_elem _ _ Em).
  rewrite dot_zero; [cbn; lra|].
  intros k. rewrite Hz. lra.
Qed.

Lemma weight_gradient_zero (d a_prev wg : tensor) :
  weight_gradient_spec d a_prev = Ok wg ->
  (forall i j : nat, elem d i j = 0%R) ->
  forall i j : nat, elem wg i j = 0%R.
Proof.
  unfold weight_gradient_spec. intros H Hz i j.
  rewrite (matmul_elem _ _ H). apply dot_zero. intros k. rewrite Hz. lra.
Qed.

(** What [forward] returns is the last entry of the cache of a run. *)
Lemma forward_is_cached (x y : tensor) (W b : list tensor) (v : locals) (a_L : tensor) :
  forward_backward_pure x y W b = Ok v ->
  forward x W b = Ok a_L ->
  nth_error (fb_a v) (length W - 1) = Some a_L.
Proof.
  intros Hrun Hf.
  destruct (successful_run_inv _ _ _ _ Hrun) as [Hne Hlen].
  pose proof (@forward_backward_pure_outcome _ x y W b Hne Hlen) as Hout.
  rewrite Hrun in Hout. destruct Hout as (Hacts & Hla & _).
  rewrite forward_is_last_of_sweep, forward_sweep_spec, Hacts in Hf by assumption.
  cbn [bind] in Hf. injection Hf as <-.
  rewrite <- Hla. apply nth_error_last.
  intros E. rewrite E in Hla. destruct W; [congruence | discriminate].
Qed.

(** X9. A prediction that is the ground truth is a stationary point: if
    [forward] returns [y] itself, element for element, then on
    shape-compatible arguments [forward_backward] returns a loss and
    gradients whose elements are all 0, for every layer. *)
Theorem perfect_prediction_zero_gradients (x y : tensor) (W b : list tensor)
  (a_L : tensor) :
  shape_compatible_fb x y W b = true ->
  forward x W b = Ok a_L ->
  (forall i j : nat, elem y i j = elem a_L i j) ->
  forall out : list out_event,
  exists (loss : tensor) (W_grads b_grads : list (option tensor)),
    returns (forward_backward x y W b) out = Ok (loss, W_grads, b_grads) /\
    (forall i j : nat, elem loss i j = 0%R) /\
    forall (l : nat) (g : tensor),
      nth_error W_grads l = Some (Some g) \/ nth_error b_grads l = Some (Some g) ->
      forall i j : nat, elem g i j = 0%R.
Proof.
  intros Hv Hf Hy out.
  pose proof (shape_compatible_fb_inv _ _ _ _ Hv) as (Hx & Hne & Hl & Hy1 & Hy2).
  destruct (forward_backward_pure_valid _ _ _ _ Hv)
    as (v & Hrun & Hacts & Hla & (a_L' & HaL & Hloss) & (Hld & Hlw & Hlb & Hdone) & _).
  cbn [g_deltas g_W_grads g_b_grads] in *.
  rewrite (forward_is_cached _ _ _ _ Hrun Hf) in HaL. injection HaL as <-.
  assert (HL : exists L, length W = S L) by (destruct W; [congruence | cbn; eauto]).
  destruct HL as [L HL].
  replace (length W - 1) with L in * by lia.
  destruct (nth_error W L) as [W_L|] eqn:EW; [|apply nth_error_None in EW; lia].
  pose proof (forward_is_cached _ _ _ _ Hrun Hf) as HaL.
  replace (length W - 1) with L in HaL by lia.
  destruct (@cache_shapes _ x y W b (fb_a v) Hv Hacts _ _ _ HaL EW) as [Har Hac].
  assert (Hyr : rows y = rows a_L).
  { rewrite Hy1, (@out_units_last _ W (rows x) W_L); [congruence|].
    now replace (length W - 1) with L by lia. }
  assert (Hyc : cols y = cols a_L) by congruence.
  assert (Hzero : forall k : nat, k <= L ->
             forall d : tensor,
               nth_error (fb_deltas v) (L - k) = Some (Some d) ->
               forall i j : nat, elem d i j = 0%R).
  { induction k as [|k IH]; intros Hk d Hd i j.
    - rewrite Nat.sub_0_r in Hd.
      destruct (Hdone L) as (a_l & _ & d' & _ & Ha & _ & Hdelta & _ & H1 & _); [lia|].
      rewrite HL, Nat.eqb_refl in Hdelta.
      rewrite H1 in Hd. injection Hd as <-. rewrite HaL in Ha. injection Ha as <-.
      rewrite (delta_last_elem _ _ Hdelta Hyr Hyc). cbv zeta. rewrite Hy. lra.
    - destruct (Hdone (L - S k)) as (a_l & _ & d' & _ & _ & _ & Hdelta & _ & H1 & _); [lia|].
      replace (S (L - S k) =? length W) with false in Hdelta
        by (symmetry; apply Nat.eqb_neq; lia).
      destruct Hdelta as (W_next & d_next & _ & Hn & Hdl).
      rewrite H1 in Hd. injection Hd as <-.
      replace (S (L - S k)) with (L - k) in Hn by lia.
      apply (delta_hidden_zero _ _ _ Hdl). apply (IH ltac:(lia) _ Hn). }
  assert (Hdeltas : forall (l : nat) (d : tensor),
             nth_error (fb_deltas v) l = Some (Some d) ->
             forall i j : nat, elem d i j = 0%R).
  { intros l d Hd.
    assert (Hlt : l < length (fb_deltas v)) by (apply nth_error_Some; congruence).
    apply (Hzero (L - l)); [lia|]. now replace (L - (L - l)) with l by lia. }
  exists (fb_loss v), (fb_W_grads v), (fb_b_grads v).
  rewrite forward_backward_returns, Hrun. cbn [bind].
  split; [reflexivity|]. split.
  - intros i j. rewrite (mse_loss_elem _ _ Hloss), Hyr, Hyc, Hy. lra.
  - intros l g Hg i j.
    assert (Hlt : l < length W).
    { destruct Hg as [Hg|Hg];
        [rewrite <- Hlw | rewrite <- Hlb]; apply nth_error_Some; congruence. }
    destruct (Hdone l) as (_ & a_prev & d & wg & _ & _ & _ & Hwg & H1 & H2 & H3); [lia|].
    destruct Hg as [Hg|Hg].
    + rewrite H2 in Hg. injection Hg as <-.
      apply (weight_gradient_zero _ _ Hwg). now apply (Hdeltas l).
    + rewrite H3 in Hg. injection Hg as <-. now apply (Hdeltas l).
Qed.

(** X10. The sigmoid damps the error: on shape-compatible arguments every
    element of the bias gradient of the last layer is at most a quarter of
    the difference between prediction and ground truth, in absolute
    value. *)
Theorem last_layer_gradient_bound (x y : tensor) (W b : list tensor) :
  shape_compatible_fb x y W b = true ->
  forall out : list out_event,
  exists (a_L loss delta_L : tensor) (W_grads b_grads : list (option tensor)),
    returns (forward_backward x y W b) out = Ok (loss, W_grads, b_grads) /\
    forward x W b = Ok a_L /\
    nth_error b_grads (length W - 1) = Some (Some delta_L) /\
    shape delta_L = shape a_L /\
    forall i j : nat, i < rows delta_L -> j < cols delta_L ->
      (Rabs (elem delta_L i j) <= Rabs (elem a_L i j - elem y i j) / 4)%R.
Proof.
  intros Hv out.
  pose proof (shape_compatible_fb_inv _ _ _ _ Hv) as (Hx & Hne & Hl & Hy1 & Hy2).
  assert (Hv' : shape_compatible x W b = true).
  { unfold shape_compatible_fb in Hv. apply andb_prop in Hv as [Hv _].
    now apply andb_prop in Hv as [Hv _]. }
  destruct (forward_valid _ _ _ Hv') as (z & Hf & Hzr & Hzc).
  destruct (forward_backward_pure_valid _ _ _ _ Hv)
    as (v & Hrun & Hacts & Hla & _ & (_ & _ & _ & Hdone) & _).
  cbn [g_deltas g_W_grads g_b_grads] in *.
  pose proof (forward_is_cached _ _ _ _ Hrun Hf) as HaL.
  assert (HL : exists L, length W = S L) by (destruct W; [congruence | cbn; eauto]).
  destruct HL as [L HL].
  replace (length W - 1) with L in * by lia.
  destruct (Hdone L) as (a_l & _ & d & _ & Ha & _ & Hdelta & _ & _ & _ & H3); [lia|].
  rewrite HL, Nat.eqb_refl in Hdelta. rewrite HaL in Ha. injection Ha as <-.
  assert (Hyr : rows y = rows (sigmoid z)) by (cbn; congruence).
  assert (Hyc : cols y = cols (sigmoid z)) by (cbn; congruence).
  destruct (delta_last_shape (sigmoid z) y Hyr Hyc) as (d' & Hd' & Hdr & Hdc).
  rewrite Hd' in Hdelta. injection Hdelta as <-.
  exists (sigmoid z), (fb_loss v), d', (fb_W_grads v), (fb_b_grads v).
  rewrite forward_backward_returns, Hrun. cbn [bind].
  repeat split; try assumption.
  - unfold shape. congruence.
  - intros i j Hi Hj. rewrite (delta_last_elem _ _ Hd' Hyr Hyc). cbv zeta.
    rewrite !bidx_in_range by congruence.
    cbn [sigmoid tmap elem]. cbn [ssigmoid RealScalar].
    pose proof (RealNetFacts.Rsigmoid_range (elem z i j)) as [Hlo Hhi].
    set (s := Rsigmoid (elem z i j)) in *.
    rewrite Rmult_assoc, Rabs_mult.
    assert (Hq : (0 <= s * (1 - s) <= 1 / 4)%R).
    { split; [apply Rmult_le_pos; lra|].
      pose proof (Rle_0_sqr (s - 1 / 2)) as Hsq. unfold Rsqr in Hsq.
      replace (s * (1 - s))%R with (1 / 4 - (s - 1 / 2) * (s - 1 / 2))%R by field.
      lra. }
    rewrite (Rabs_pos_eq (s * (1 - s))) by lra.
    pose proof (Rabs_pos (s - elem y i j)) as Hpos.
    apply Rle_trans with (Rabs (s - elem y i j) * (1 / 4))%R; [|lra].
    apply Rmult_le_compat_l; lra.
Qed.

(** ** The gradients of the last layer are derivatives of the loss *)

Lemma Rsigmoid_derivative (v : R) :
  derivable_pt_lim Rsigmoid v (Rsigmoid v * (1 - Rsigmoid v))%R.
Proof.
  pose proof (exp_pos (- v)) as Hexp.
  assert (Hopp : derivable_pt_lim (fun u => - u)%R v (- 1)%R).
  { exact (derivable_pt_lim_opp id v 1 (derivable_pt_lim_id v)). }
  assert (Hden : derivable_pt_lim (fun u => 1 + exp (- u))%R v (0 + exp (- v) * - 1)%R).
  { exact (derivable_pt_lim_plus (fct_cte 1) (fun u => exp (- u))%R v _ _
             (derivable_pt_lim_const 1 v)
             (derivable_pt_lim_comp (fun u => - u)%R exp v _ _ Hopp
                (derivable_pt_lim_exp (- v)))). }
  pose proof (derivable_pt_lim_div (fct_cte 1) (fun u => 1 + exp (- u))%R v _ _
                (derivable_pt_lim_const 1 v) Hden) as Hdiv.
  cbv beta in Hdiv. specialize (Hdiv ltac:(lra)).
  replace (Rsigmoid v * (1 - Rsigmoid v))%R
    with ((0 * (1 + exp (- v)) - (0 + exp (- v) * - 1) * fct_cte 1 v)
          / Rsqr (1 + exp (- v)))%R
    by (unfold Rsigmoid, Rsqr, fct_cte; field; lra).
  refine (derivable_pt_lim_ext _ _ _ _ _ Hdiv).
  intros u. unfold div_fct, fct_cte, Rsigmoid. pose proof (exp_pos (- u)). field. lra.
Qed.

(** The loss of one unit as a function of a parameter that enters its
    pre-activation affinely. *)
Lemma unit_loss_derivative (C g y t0 : R) :
  derivable_pt_lim (fun t => 1 / 2 * (Rsigmoid (C + t * g) - y) ^ 2)%R t0
    ((Rsigmoid (C + t0 * g) - y) * Rsigmoid (C + t0 * g)
     * (1 - Rsigmoid (C + t0 * g)) * g)%R.
Proof.
  set (s := Rsigmoid (C + t0 * g)).
  assert (Hin : derivable_pt_lim (fun t => C + t * g)%R t0 (0 + (1 * g + t0 * 0))%R).
  { exact (derivable_pt_lim_plus (fct_cte C) (id * fct_cte g)%F t0 _ _
             (derivable_pt_lim_const C t0)
             (derivable_pt_lim_mult id (fct_cte g) t0 _ _
                (derivable_pt_lim_id t0) (derivable_pt_lim_const g t0))). }
  assert (Hs : derivable_pt_lim (fun t => Rsigmoid (C + t * g) - y)%R t0
                 (s * (1 - s) * (0 + (1 * g + t0 * 0)) - 0)%R).
  { exact (derivable_pt_lim_minus (fun t => Rsigmoid (C + t * g))%R (fct_cte y) t0 _ _
             (derivable_pt_lim_comp (fun t => C + t * g)%R Rsigmoid t0 _ _ Hin
                (Rsigmoid_derivative (C + t0 * g)))
             (derivable_pt_lim_const y t0)). }
  pose proof (derivable_pt_lim_mult _ _ t0 _ _ Hs Hs) as Hsq. cbv beta in Hsq.
  pose proof (derivable_pt_lim_scal _ (1 / 2)%R t0 _ Hsq) as Hhalf.
  replace ((s - y) * s * (1 - s) * g)%R
    with (1 / 2 * ((s * (1 - s) * (0 + (1 * g + t0 * 0)) - 0) * (s - y)
                   + (s - y) * (s * (1 - s) * (0 + (1 * g + t0 * 0)) - 0)))%R
    by (unfold s; field).
  refine (derivable_pt_lim_ext _ _ _ _ _ Hhalf).
  intros t. unfold mult_real_fct, mult_fct. cbn. field.
Qed.

Lemma bidx_0 (n : nat) : bidx n 0 = 0.
Proof. unfold bidx. destruct (n =? 1); reflexivity. Qed.

(** One unit of the last layer: its loss and its error term from its
    pre-activation. *)
Lemma unit_closed_form (a_in W' b' m z d loss y : tensor) (n i : nat) :
  matmul W' a_in = Ok m -> tadd m b' = Ok z ->
  rows W' = n -> rows b' = n -> rows z = n -> cols z = 1 ->
  rows y = n -> cols y = 1 ->
  mse_loss (sigmoid z) y = Ok loss ->
  delta_last_spec (sigmoid z) y = Ok d ->
  i < n ->
  let s := Rsigmoid (elem m i 0 + elem b' i 0) in
  elem loss i 0 = (1 / 2 * (s - elem y i 0) ^ 2)%R /\
  elem d i 0 = ((s - elem y i 0) * s * (1 - s))%R /\
  cols d = 1.
Proof.
  intros Hm Hz HWr Hbr Hzr Hzc Hyr Hyc Hloss Hd Hi.
  destruct (matmul_ok_inv _ _ Hm) as (_ & Hmr & _).
  assert (Hze : elem z i 0 = (elem m i 0 + elem b' i 0)%R).
  { unfold tadd in Hz. rewrite (tmap2_elem _ _ _ Hz).
    now rewrite !bidx_0, !bidx_in_range by congruence. }
  cbv zeta. rewrite <- Hze. split; [|split].
  - rewrite (mse_loss_elem _ _ Hloss). cbn [sigmoid tmap rows cols elem].
    now rewrite !bidx_0, !bidx_in_range by congruence.
  - rewrite (delta_last_elem _ _ Hd) by (cbn; congruence). cbv zeta.
    cbn [sigmoid tmap rows cols elem].
    now rewrite !bidx_0, !bidx_in_range by congruence.
  - destruct (delta_last_shape (sigmoid z) y) as (d' & Hd' & _ & Hc);
      [cbn; congruence..|].
    rewrite Hd' in Hd. injection Hd as <-. cbn in Hc. congruence.
Qed.

(** The shapes of the last layer and of the ground truth. *)
Lemma last_layer_shapes (x y : tensor) (Wp bp : list tensor) (W_L b_L : tensor) :
  shape_compatible_fb x y (Wp ++ [W_L]) (bp ++ [b_L]) = true ->
  rows b_L = rows W_L /\ cols b_L = 1 /\ rows y = rows W_L /\ cols y = 1 /\
  length Wp = length bp.
Proof.
  intros Hv. apply shape_compatible_fb_inv in Hv as (_ & _ & Hl & Hy1 & Hy2).
  pose proof (layers_ok_length _ _ _ Hl) as Hlen.
  rewrite !length_app in Hlen. cbn [length] in Hlen.
  rewrite out_units_app_last in Hy1.
  destruct (layers_ok_nth _ _ _ _ Hl (nth_error_middle Wp [] W_L))
    as (_ & b & Hb & Hbr & Hbc).
  replace (length Wp) with (length bp) in Hb by lia.
  rewrite nth_error_middle in Hb. injection Hb as <-.
  repeat split; try assumption. lia.
Qed.

(** X11. The bias gradient of the last layer is the gradient of the loss:
    on shape-compatible arguments, element [i] of the bias gradient that
    [forward_backward] returns for the last layer is the derivative of
    element [i] of the loss it returns, taken with respect to element [i] of
    the last bias, at the value that element has. *)
Theorem last_bias_gradient_is_derivative (x y : tensor) (Wp bp : list tensor)
  (W_L b_L : tensor) (i : nat) :
  shape_compatible_fb x y (Wp ++ [W_L]) (bp ++ [b_L]) = true ->
  i < rows b_L ->
  forall out : list out_event,
  exists (loss delta_L : tensor) (W_grads b_grads : list (option tensor)),
    returns (forward_backward x y (Wp ++ [W_L]) (bp ++ [b_L])) out =
    Ok (loss, W_grads, b_grads) /\
    nth_error b_grads (length Wp) = Some (Some delta_L) /\
    derivable_pt_lim
      (fun t : R =>
         loss_at (returns (forward_backward x y (Wp ++ [W_L])
                             (bp ++ [set_elem b_L i 0 t])) out) i 0)
      (elem b_L i 0) (elem delta_L i 0).
Proof.
  intros Hv Hi out.
  destruct (last_layer_shapes _ _ _ _ _ _ Hv) as (Hbr & Hbc & Hyr & Hyc & Hlen).
  destruct (last_layer_closed_form _ _ _ _ _ _ Hv) as (acts & Hacts & Hla & Hall).
  destruct (Hall W_L b_L eq_refl eq_refl eq_refl eq_refl)
    as (v & m & z & d & a_prev & wg & Hrun & Hm & Hz & Hzr & Hzc & _ & _
        & Hloss & Hd & Hbg & _).
  assert (Hi' : i < rows W_L) by lia.
  destruct (@unit_closed_form (last acts x) W_L b_L m z d (fb_loss v) y (rows W_L) i
              Hm Hz eq_refl Hbr Hzr Hzc Hyr Hyc Hloss Hd Hi') as (_ & Hde & _).
  exists (fb_loss v), d, (fb_W_grads v), (fb_b_grads v).
  rewrite forward_backward_returns, Hrun. cbn [bind].
  split; [reflexivity|]. split; [assumption|].
  rewrite Hde.
  pose proof (unit_loss_derivative (elem m i 0) 1 (elem y i 0) (elem b_L i 0)) as Hder.
  rewrite !Rmult_1_r in Hder.
  refine (derivable_pt_lim_ext _ _ _ _ _ Hder).
  intros t.
  destruct (Hall W_L (set_elem b_L i 0 t) eq_refl eq_refl eq_refl eq_refl)
    as (vt & mt & zt & dt & _ & _ & Hrunt & Hmt & Hzt & Hztr & Hztc & _ & _
        & Hlosst & Hdt & _).
  rewrite Hm in Hmt. injection Hmt as <-.
  rewrite forward_backward_returns, Hrunt. cbn [bind loss_at].
  destruct (@unit_closed_form (last acts x) W_L (set_elem b_L i 0 t) m zt dt
              (fb_loss vt) y (rows W_L) i
              Hm Hzt eq_refl Hbr Hztr Hztc Hyr Hyc Hlosst Hdt Hi') as (Hle & _).
  rewrite Hle. cbn [set_elem elem]. now rewrite !Nat.eqb_refl, Rmult_1_r.
Qed.

(** Equations between scalars of [RealScalar] are equations between reals. *)
Ltac as_real := match goal with |- @eq _ ?u ?w => change (@eq R u w) end.

Lemma dot_ext (n : nat) (f f' g : nat -> R) :
  (forall k : nat, f k = f' k) -> dot n f g = dot n f' g.
Proof.
  intros Hf. unfold dot. generalize (@szero RealScalar).
  induction (seq 0 n) as [|k idx IH]; intros acc; [reflexivity|].
  cbn [fold_left]. now rewrite Hf, IH.
Qed.

(** A scalar product as a function of one of its left factors. *)
Lemma dot_fold_affine (f g : nat -> R) (k : nat) :
  forall n s : nat,
  exists C M : R,
    (s <= k < s + n -> M = g k) /\
    (~ s <= k < s + n -> M = 0%R) /\
    forall t c m : R,
      fold_left (fun a k' => sadd a (smul (if k' =? k then t else f k') (g k')))
        (seq s n) (c + t * m)%R
      = ((c + C) + t * (m + M))%R.
Proof.
  induction n as [|n IH]; intros s.
  - exists 0%R, 0%R. split; [lia|]. split; [intros _; reflexivity|].
    intros t c m. cbn. lra.
  - destruct (IH (S s)) as (C' & M' & Hin & Hout & Hfold).
    cbn [seq fold_left]. destruct (s =? k) eqn:E.
    + apply Nat.eqb_eq in E. subst s.
      exists C', (g k). split; [intros _; reflexivity|]. split; [lia|].
      intros t c m. cbn [sadd smul RealScalar].
      replace (c + t * m + t * g k)%R with (c + t * (m + g k))%R by ring.
      rewrite Hfold, Hout by lia.
      as_real. ring.
    + apply Nat.eqb_neq in E.
      exists (f s * g s + C')%R, M'.
      split; [intros ?; apply Hin; lia|]. split; [intros ?; apply Hout; lia|].
      intros t c m. cbn [sadd smul RealScalar].
      replace (c + t * m + f s * g s)%R with ((c + f s * g s) + t * m)%R by ring.
      rewrite Hfold.
      as_real. ring.
Qed.

Lemma dot_affine (n k : nat) (f g : nat -> R) :
  k < n ->
  exists C : R,
    (forall t : R, dot n (fun k' => if k' =? k then t else f k') g = (C + t * g k)%R) /\
    dot n f g = (C + f k * g k)%R.
Proof.
  intros Hk. destruct (dot_fold_affine f g k n 0) as (C & M & Hin & _ & Hfold).
  rewrite Hin in Hfold by lia.
  assert (Hall : forall t : R,
             dot n (fun k' => if k' =? k then t else f k') g = (C + t * g k)%R).
  { intros t. unfold dot. cbn [szero RealScalar].
    replace 0%R with (0 + t * 0)%R at 1 by ring. rewrite Hfold. as_real. ring. }
  exists C. split; [exact Hall|].
  rewrite <- (Hall (f k)). apply dot_ext.
  intros k'. destruct (k' =? k) eqn:E; [|reflexivity].
  apply Nat.eqb_eq in E. now subst.
Qed.

(** X12. The weight gradient of the last layer is the gradient of the
    loss: on shape-compatible arguments, the product of the error term of
    the last layer with the transposed activation that feeds the last layer
    has for element [(i, k)] the derivative of element [i] of the loss with
    respect to element [(i, k)] of the last weight. With more than one layer
    that product is the weight gradient that [forward_backward] returns for
    the last layer. *)
Theorem last_weight_gradient_is_derivative (x y : tensor) (Wp bp : list tensor)
  (W_L b_L : tensor) (i k : nat) :
  shape_compatible_fb x y (Wp ++ [W_L]) (bp ++ [b_L]) = true ->
  i < rows W_L -> k < cols W_L ->
  forall out : list out_event,
  exists (a_in loss delta_L wg_in : tensor) (W_grads b_grads : list (option tensor)),
    forward x Wp bp = Ok a_in /\
    returns (forward_backward x y (Wp ++ [W_L]) (bp ++ [b_L])) out =
    Ok (loss, W_grads, b_grads) /\
    nth_error b_grads (length Wp) = Some (Some delta_L) /\
    weight_gradient_spec delta_L a_in = Ok wg_in /\
    (Wp <> [] -> nth_error W_grads (length Wp) = Some (Some wg_in)) /\
    derivable_pt_lim
      (fun t : R =>
         loss_at (returns (forward_backward x y (Wp ++ [set_elem W_L i k t])
                             (bp ++ [b_L])) out) i 0)
      (elem W_L i k) (elem wg_in i k).
Proof.
  intros Hv Hi Hk out.
  destruct (last_layer_shapes _ _ _ _ _ _ Hv) as (Hbr & Hbc & Hyr & Hyc & Hlen).
  destruct (last_layer_closed_form _ _ _ _ _ _ Hv) as (acts & Hacts & Hla & Hall).
  set (a_in := last acts x) in *.
  destruct (Hall W_L b_L eq_refl eq_refl eq_refl eq_refl)
    as (v & m & z & d & a_prev & wg & Hrun & Hm & Hz & Hzr & Hzc & Hprev & _
        & Hloss & Hd & Hbg & _ & Hwg & HWg).
  destruct (@unit_closed_form a_in W_L b_L m z d (fb_loss v) y (rows W_L) i
              Hm Hz eq_refl Hbr Hzr Hzc Hyr Hyc Hloss Hd Hi) as (_ & Hde & Hdc).
  destruct (matmul_ok_inv _ _ Hm) as (Hinner & _ & Hmc).
  assert (Hac : cols a_in = 1).
  { unfold tadd, tmap2 in Hz.
    destruct (broadcast_dim (rows m) (rows b_L)); cbn [bind] in Hz; [|discriminate].
    destruct (broadcast_dim (cols m) (cols b_L)) as [c|] eqn:Ec; cbn [bind] in Hz;
      [|discriminate].
    injection Hz as <-. cbn in Hzc. subst c. rewrite Hbc in Ec.
    unfold broadcast_dim in Ec.
    destruct (cols m =? 1) eqn:E1; [apply Nat.eqb_eq in E1; congruence|].
    cbn in Ec. congruence. }
  destruct (weight_gradient_shape d a_in) as (wg_in & Hwg_in & _); [congruence|].
  exists a_in, (fb_loss v), d, wg_in, (fb_W_grads v), (fb_b_grads v).
  rewrite forward_backward_returns, Hrun. cbn [bind].
  split.
  { rewrite forward_eq_spec, forward_spec_last, Hacts by lia. reflexivity. }
  split; [reflexivity|]. split; [assumption|]. split; [assumption|]. split.
  { intros Hne. rewrite (Hprev Hne) in Hwg. congruence. }
  set (g := fun k' : nat => elem a_in k' 0).
  destruct (dot_affine (fun k' => elem W_L i k') g Hk) as (C & Hdot & Hdot0).
  assert (Hm0 : elem m i 0 = (C + elem W_L i k * g k)%R)
    by (rewrite (matmul_elem _ _ Hm); exact Hdot0).
  assert (Hwge : elem wg_in i k = (elem d i 0 * g k)%R).
  { unfold weight_gradient_spec in Hwg_in. rewrite (matmul_elem _ _ Hwg_in), Hdc.
    unfold dot, g. cbn. as_real. ring. }
  rewrite Hwge, Hde, Hm0.
  pose proof (unit_loss_derivative (C + elem b_L i 0) (g k) (elem y i 0) (elem W_L i k))
    as Hder.
  replace (C + elem b_L i 0 + elem W_L i k * g k)%R
    with (C + elem W_L i k * g k + elem b_L i 0)%R in Hder by ring.
  refine (derivable_pt_lim_ext _ _ _ _ _ Hder).
  intros t.
  destruct (Hall (set_elem W_L i k t) b_L eq_refl eq_refl eq_refl eq_refl)
    as (vt & mt & zt & dt & _ & _ & Hrunt & Hmt & Hzt & Hztr & Hztc & _ & _
        & Hlosst & Hdt & _).
  rewrite forward_backward_returns, Hrunt. cbn [bind loss_at].
  destruct (@unit_closed_form a_in (set_elem W_L i k t) b_L mt zt dt
              (fb_loss vt) y (rows W_L) i
              Hmt Hzt eq_refl Hbr Hztr Hztc Hyr Hyc Hlosst Hdt Hi) as (Hle & _).
  rewrite Hle, (matmul_elem _ _ Hmt). cbn [set_elem rows cols elem].
  rewrite (dot_ext _ _ (fun k' => if k' =? k then t else elem W_L i k')).
  - rewrite Hdot. do 4 f_equal. ring.
  - intros k'. now rewrite Nat.eqb_refl.
Qed.

(** ** The theorems at the network of the notebook *)

Lemma forward_app_witness :
  length [full 5 7 1%R] = length [full 5 1 0%R] /\
  forward nb_x ([full 5 7 1%R] ++ [full 3 5 1%R; full 1 3 1%R])
    ([full 5 1 0%R] ++ [full 3 1 0%R; full 1 1 0%R]) =
  (a <- forward nb_x [full 5 7 1%R] [full 5 1 0%R] ;;
   forward a [full 3 5 1%R; full 1 3 1%R] [full 3 1 0%R; full 1 1 0%R]).
Proof.
  split; [reflexivity|].
  apply (forward_app nb_x [full 5 7 1%R] [full 3 5 1%R; full 1 3 1%R]
           [full 5 1 0%R] [full 3 1 0%R; full 1 1 0%R]).
  reflexivity.
Defined.

Lemma printed_report_witness :
  shape_compatible_fb nb_x nb_y nb_W nb_b = true /\
  exists (a_L loss : tensor) (W_grads b_grads : list (option tensor))
         (lines : list out_event),
    forward_backward nb_x nb_y nb_W nb_b [] =
    ([] ++ PrintTensor "Final activation" a_L :: PrintTensor "Loss" loss :: lines,
     Ok (loss, W_grads, b_grads)) /\
    forward nb_x nb_W nb_b = Ok a_L /\
    length lines = 3.
Proof.
  split; [reflexivity|].
  destruct (printed_report nb_x nb_y nb_W nb_b eq_refl [])
    as (a_L & loss & Wg & bg & lines & Hrun & Hf & Hlen & _).
  exists a_L, loss, Wg, bg, lines. auto.
Defined.

Lemma returned_shapes_valid_witness :
  shape_compatible_fb nb_x nb_y nb_W nb_b = true /\
  exists (loss : tensor) (W_grads b_grads : list (option tensor)),
    returns (forward_backward nb_x nb_y nb_W nb_b) [] = Ok (loss, W_grads, b_grads) /\
    shape loss = (1, 1) /\
    shapes_of b_grads = [Some (5, 1); Some (3, 1); Some (1, 1)] /\
    rows nb_x <> out_units (rows nb_x) nb_W /\
    shapes_of W_grads <> map (fun W_l => Some (shape W_l)) nb_W.
Proof.
  split; [reflexivity|].
  destruct (returned_shapes_valid nb_x nb_y nb_W nb_b eq_refl [])
    as (loss & Wg & bg & Hrun & Hls & Hbs & _ & Hiff).
  exists loss, Wg, bg.
  assert (Hne : rows nb_x <> out_units (rows nb_x) nb_W) by (cbn; lia).
  repeat split; try assumption.
  intros H. apply Hne. now apply Hiff.
Defined.

Lemma backward_below_last_layer_witness :
  shape_compatible_fb nb_x nb_y nb_W nb_b = true /\
  exists (v : locals) (a_prev delta_1 wg : tensor),
    returns (forward_backward_locals nb_x nb_y nb_W nb_b) [] = Ok v /\
    nth_error (fb_a v) 0 = Some a_prev /\
    nth_error (fb_deltas v) 1 = Some (Some delta_1) /\
    weight_gradient_spec delta_1 a_prev = Ok wg /\
    nth_error (fb_W_grads v) 1 = Some (Some wg).
Proof.
  split; [reflexivity|].
  destruct (backward_below_last_layer nb_x nb_y nb_W nb_b eq_refl []) as (v & Hrun & Hl).
  assert (H12 : 2 < length nb_W) by (cbn; lia).
  destruct (Hl 1 H12) as (a_l & W_n & d_n & d & _ & _ & _ & _ & Hd & _ & Hw).
  destruct (Hw (Nat.lt_0_succ 0)) as (a_prev & wg & Ha & Hwg & HWg).
  exists v, a_prev, d, wg. auto.
Defined.

Lemma last_layer_gradient_bound_witness :
  shape_compatible_fb nb_x nb_y nb_W nb_b = true /\
  exists (a_L loss delta_L : tensor) (W_grads b_grads : list (option tensor)),
    returns (forward_backward nb_x nb_y nb_W nb_b) [] = Ok (loss, W_grads, b_grads) /\
    forward nb_x nb_W nb_b = Ok a_L /\
    nth_error b_grads 2 = Some (Some delta_L) /\
    shape delta_L = shape a_L /\
    forall i j : nat, i < rows delta_L -> j < cols delta_L ->
      (Rabs (elem delta_L i j) <= Rabs (elem a_L i j - elem nb_y i j) / 4)%R.
Proof.
  split; [reflexivity|].
  exact (last_layer_gradient_bound nb_x nb_y nb_W nb_b eq_refl []).
Defined.

Lemma last_bias_gradient_is_derivative_witness :
  shape_compatible_fb nb_x nb_y ([full 5 7 1%R; full 3 5 1%R] ++ [full 1 3 1%R])
    ([full 5 1 0%R; full 3 1 0%R] ++ [full 1 1 0%R]) = true /\
  0 < rows (full 1 1 0%R) /\
  exists (loss delta_L : tensor) (W_grads b_grads : list (option tensor)),
    returns (forward_backward nb_x nb_y nb_W nb_b) [] = Ok (loss, W_grads, b_grads) /\
    nth_error b_grads 2 = Some (Some delta_L) /\
    derivable_pt_lim
      (fun t : R =>
         loss_at (returns (forward_backward nb_x nb_y nb_W
                             ([full 5 1 0%R; full 3 1 0%R]
                                ++ [set_elem (full 1 1 0%R) 0 0 t])) []) 0 0)
      0%R (elem delta_L 0 0).
Proof.
  split; [reflexivity|]. split; [cbn; lia|].
  exact (@last_bias_gradient_is_derivative nb_x nb_y
           [full 5 7 1%R; full 3 5 1%R] [full 5 1 0%R; full 3 1 0%R]
           (full 1 3 1%R) (full 1 1 0%R) 0 eq_refl (Nat.lt_0_succ 0) []).
Defined.

Lemma last_weight_gradient_is_derivative_witness :
  shape_compatible_fb nb_x nb_y ([full 5 7 1%R; full 3 5 1%R] ++ [full 1 3 1%R])
    ([full 5 1 0%R; full 3 1 0%R] ++ [full 1 1 0%R]) = true /\
  0 < rows (full 1 3 1%R) /\ 2 < cols (full 1 3 1%R) /\
  exists (wg : tensor) (loss : tensor) (W_grads b_grads : list (option tensor)),
    returns (forward_backward nb_x nb_y nb_W nb_b) [] = Ok (loss, W_grads, b_grads) /\
    nth_error W_grads 2 = Some (Some wg) /\
    derivable_pt_lim
      (fun t : R =>
         loss_at (returns (forward_backward nb_x nb_y
                             ([full 5 7 1%R; full 3 5 1%R]
                                ++ [set_elem (full 1 3 1%R) 0 2 t]) nb_b) []) 0 0)
      1%R (elem wg 0 2).
Proof.
  split; [reflexivity|]. split; [cbn; lia|]. split; [cbn; lia|].
  destruct (@last_weight_gradient_is_derivative nb_x nb_y
              [full 5 7 1%R; full 3 5 1%R] [full 5 1 0%R; full 3 1 0%R]
              (full 1 3 1%R) (full 1 1 0%R) 0 2 eq_refl (Nat.lt_0_succ 0)
              (Nat.lt_succ_diag_r 2) [])
    as (a_in & loss & d & wg & Wg & bg & _ & Hrun & _ & _ & HWg & Hder).
  exists wg, loss, Wg, bg.
  split; [exact Hrun|]. split; [apply HWg; discriminate | exact Hder].
Defined.

Lemma forward_backward_returns_filled_witness :
  returns (forward_backward nb_x one_y one_W one_b) [] =
  Ok (fst (fst one_returned), snd (fst one_returned), snd one_returned) /\
  (exists a_L : tensor,
      forward nb_x one_W one_b = Ok a_L /\
      mse_loss a_L one_y = Ok (fst (fst one_returned))) /\
  length (snd (fst one_returned)) = 1 /\
  length (snd one_returned) = 1.
Proof.
  split; [reflexivity|].
  destruct (@forward_backward_returns_filled _ nb_x one_y one_W one_b []
              (fst (fst one_returned)) (snd (fst one_returned)) (snd one_returned)
              eq_refl)
    as (Hloss & Hlw & Hlb & _).
  auto.
Defined.

Lemma output_of_a_failed_call_witness :
  forward_backward nb_x nb_y bad_W nb_b [] = ([], Raise ShapeMismatch) /\
  forward_backward nb_x short_y one_W one_b [] =
  ([] ++ [PrintTensor "Final activation" one_prediction], Raise ShapeMismatch) /\
  (prints (forward_backward nb_x short_y one_W one_b) [] = [] \/
   exists a_L : tensor,
     forward nb_x one_W one_b = Ok a_L /\
     (prints (forward_backward nb_x short_y one_W one_b) [] =
      [] ++ [PrintTensor "Final activation" a_L] \/
      exists loss : tensor,
        mse_loss a_L short_y = Ok loss /\
        prints (forward_backward nb_x short_y one_W one_b) [] =
        [] ++ [PrintTensor "Final activation" a_L; PrintTensor "Loss" loss])).
Proof.
  destruct (output_of_a_failed_call nb_x nb_y bad_W nb_b []) as (H1 & _ & _).
  destruct (output_of_a_failed_call nb_x short_y one_W one_b []) as (_ & H2 & H3).
  split; [apply H1; vm_compute; reflexivity|].
  split.
  - apply H2; [discriminate | reflexivity | vm_compute; reflexivity].
  - apply (H3 ShapeMismatch). rewrite forward_backward_returns.
    vm_compute. reflexivity.
Defined.

Lemma mse_loss_definite_symmetric_witness :
  exists loss : tensor,
    mse_loss (full 1 1 (1 / 2)%R) nb_y = Ok loss /\
    (forall i j : nat,
        elem loss i j = 0%R <->
        elem (full 1 1 (1 / 2)%R) (bidx 1 i) (bidx 1 j) = elem nb_y (bidx 1 i) (bidx 1 j)) /\
    exists loss' : tensor,
      mse_loss nb_y (full 1 1 (1 / 2)%R) = Ok loss' /\
      shape loss' = shape loss /\
      forall i j : nat, elem loss' i j = elem loss i j.
Proof.
  eexists. split; [reflexivity|].
  exact (@mse_loss_definite_symmetric (full 1 1 (1 / 2)%R) nb_y _ eq_refl).
Defined.

Lemma perfect_prediction_zero_gradients_witness :
  shape_compatible_fb nb_x nb_prediction nb_W nb_b = true /\
  forward nb_x nb_W nb_b = Ok nb_prediction /\
  exists (loss : tensor) (W_grads b_grads : list (option tensor)),
    returns (forward_backward nb_x nb_prediction nb_W nb_b) [] =
    Ok (loss, W_grads, b_grads) /\
    (forall i j : nat, elem loss i j = 0%R) /\
    forall (l : nat) (g : tensor),
      nth_error W_grads l = Some (Some g) \/ nth_error b_grads l = Some (Some g) ->
      forall i j : nat, elem g i j = 0%R.
Proof.
  split; [reflexivity|]. split; [reflexivity|].
  exact (@perfect_prediction_zero_gradients nb_x nb_prediction nb_W nb_b nb_prediction
           eq_refl eq_refl (fun i j => eq_refl) []).
Defined.

(** ** The normalisation of the training notebook *)

Lemma fold_Rmin_spec (f : nat -> R) (idx : list nat) (m0 : R) :
  (fold_left (fun m i => Rmin m (f i)) idx m0 <= m0)%R /\
  (forall i : nat, In i idx -> (fold_left (fun m i => Rmin m (f i)) idx m0 <= f i)%R) /\
  (fold_left (fun m i => Rmin m (f i)) idx m0 = m0 \/
   exists i : nat, In i idx /\ fold_left (fun m i => Rmin m (f i)) idx m0 = f i).
Proof.
  revert m0. induction idx as [|a idx IH]; intros m0; cbn [fold_left].
  - split; [lra|]. split; [intros i []|]. left. reflexivity.
  - destruct (IH (Rmin m0 (f a))) as (Hle & Hall & Hatt).
    pose proof (Rmin_l m0 (f a)) as Hl. pose proof (Rmin_r m0 (f a)) as Hr.
    split; [lra|]. split.
    + intros i [<-|Hi]; [lra|]. apply Hall, Hi.
    + destruct Hatt as [E|(i & Hi & E)].
      * rewrite E. unfold Rmin. destruct (Rle_dec m0 (f a)); [left; reflexivity|].
        right. exists a. split; [left; reflexivity|reflexivity].
      * right. exists i. split; [right; exact Hi|exact E].
Qed.

Lemma fold_Rmax_spec (f : nat -> R) (idx : list nat) (m0 : R) :
  (m0 <= fold_left (fun m i => Rmax m (f i)) idx m0)%R /\
  (forall i : nat, In i idx -> (f i <= fold_left (fun m i => Rmax m (f i)) idx m0)%R) /\
  (fold_left (fun m i => Rmax m (f i)) idx m0 = m0 \/
   exists i : nat, In i idx /\ fold_left (fun m i => Rmax m (f i)) idx m0 = f i).
Proof.
  revert m0. induction idx as [|a idx IH]; intros m0; cbn [fold_left].
  - split; [lra|]. split; [intros i []|]. left. reflexivity.
  - destruct (IH (Rmax m0 (f a))) as (Hle & Hall & Hatt).
    pose proof (Rmax_l m0 (f a)) as Hl. pose proof (Rmax_r m0 (f a)) as Hr.
    split; [lra|]. split.
    + intros i [<-|Hi]; [lra|]. apply Hall, Hi.
    + destruct Hatt as [E|(i & Hi & E)].
      * rewrite E. unfold Rmax. destruct (Rle_dec m0 (f a)); [|left; reflexivity].
        right. exists a. split; [left; reflexivity|reflexivity].
      * right. exists i. split; [right; exact Hi|exact E].
Qed.

(** The reduction with [Rmin] is the least value of the column, and the one
    with [Rmax] the greatest. *)
Lemma col_min_spec (X : tensor) (j : nat) :
  0 < rows X ->
  (forall i : nat, i < rows X -> (col_reduce Rmin X j <= elem X i j)%R) /\
  exists i : nat, i < rows X /\ col_reduce Rmin X j = elem X i j.
Proof.
  intros Hn. unfold col_reduce.
  destruct (fold_Rmin_spec (fun i => elem X i j) (seq 1 (rows X - 1)) (elem X 0 j))
    as (Hle & Hall & Hatt).
  split.
  - intros i Hi. destruct i as [|i]; [exact Hle|].
    apply Hall, in_seq. lia.
  - destruct Hatt as [E|(i & Hi & E)].
    + exists 0. split; [lia|exact E].
    + exists i. apply in_seq in Hi. split; [lia|exact E].
Qed.

Lemma col_max_spec (X : tensor) (j : nat) :
  0 < rows X ->
  (forall i : nat, i < rows X -> (elem X i j <= col_reduce Rmax X j)%R) /\
  exists i : nat, i < rows X /\ col_reduce Rmax X j = elem X i j.
Proof.
  intros Hn. unfold col_reduce.
  destruct (fold_Rmax_spec (fun i => elem X i j) (seq 1 (rows X - 1)) (elem X 0 j))
    as (Hle & Hall & Hatt).
  split.
  - intros i Hi. destruct i as [|i]; [exact Hle|].
    apply Hall, in_seq. lia.
  - destruct Hatt as [E|(i & Hi & E)].
    + exists 0. split; [lia|exact E].
    + exists i. apply in_seq in Hi. split; [lia|exact E].
Qed.

(** A lower bound that the column reaches is its minimum; likewise for the
    maximum. *)
Lemma col_min_unique (X : tensor) (j : nat) (m : R) :
  (forall i : nat, i < rows X -> (m <= elem X i j)%R) ->
  (exists i : nat, i < rows X /\ elem X i j = m) ->
  col_reduce Rmin X j = m.
Proof.
  intros Hlow (i0 & Hi0 & E0).
  destruct (@col_min_spec X j ltac:(lia)) as (Hle & i1 & Hi1 & E1).
  specialize (Hle i0 Hi0). specialize (Hlow i1 Hi1). lra.
Qed.

Lemma col_max_unique (X : tensor) (j : nat) (m : R) :
  (forall i : nat, i < rows X -> (elem X i j <= m)%R) ->
  (exists i : nat, i < rows X /\ elem X i j = m) ->
  col_reduce Rmax X j = m.
Proof.
  intros Hup (i0 & Hi0 & E0).
  destruct (@col_max_spec X j ltac:(lia)) as (Hle & i1 & Hi1 & E1).
  specialize (Hle i0 Hi0). specialize (Hup i1 Hi1). lra.
Qed.


Lemma broadcast_dim_one (n : nat) : broadcast_dim n 1 = Ok n.
Proof.
  unfold broadcast_dim. destruct (n =? 1) eqn:E; [|reflexivity].
  apply Nat.eqb_eq in E. now subst n.
Qed.

(** The five statements that normalise one tensor, before the rest [k] of
    the function. *)
Lemma normalise_steps {T : Type} (X : tensor) (k : tensor -> result T) :
  (rows X = 0 /\
   (X_min <- reduce_dim0 Rmin X ;;
    X_max <- reduce_dim0 Rmax X ;;
    X_shifted <- tsub X X_min ;;
    X_extent <- tsub X_max X_min ;;
    X' <- tdiv X_shifted X_extent ;;
    k X') = Raise IndexError) \/
  (0 < rows X /\
   exists Xn : tensor,
     normalised X Xn /\
     (X_min <- reduce_dim0 Rmin X ;;
      X_max <- reduce_dim0 Rmax X ;;
      X_shifted <- tsub X X_min ;;
      X_extent <- tsub X_max X_min ;;
      X' <- tdiv X_shifted X_extent ;;
      k X') = k Xn).
Proof.
  unfold reduce_dim0. destruct (rows X) as [|n] eqn:En.
  - left. split; reflexivity.
  - right. split; [lia|]. cbn [bind].
    unfold tsub, tdiv, tmap2. cbn [rows cols]. rewrite En.
    rewrite broadcast_dim_one, !broadcast_dim_same. cbn [bind rows cols].
    rewrite broadcast_dim_one, !broadcast_dim_same. cbn [bind rows cols].
    eexists. split; [|reflexivity].
    split; [unfold shape; cbn [rows cols]; now rewrite En|].
    intros i j Hi Hj. cbn [elem bidx Nat.eqb ssub RealScalar].
    rewrite !(@bidx_in_range (S n) i) by lia.
    rewrite !(@bidx_in_range (cols X) j) by lia.
    reflexivity.
Qed.

Lemma min_max_norm_ok_inv (X y Xn yn : tensor) :
  min_max_norm X y = Ok (Xn, yn) ->
  0 < rows X /\ 0 < rows y /\ normalised X Xn /\ normalised y yn.
Proof.
  unfold min_max_norm. intros H.
  match type of H with
  | context [tdiv _ _] => idtac
  end.
  destruct (@normalise_steps _ X (fun X' =>
     y_min <- reduce_dim0 Rmin y ;;
     y_max <- reduce_dim0 Rmax y ;;
     y_shifted <- tsub y y_min ;;
     y_extent <- tsub y_max y_min ;;
     y' <- tdiv y_shifted y_extent ;;
     Ok (X', y'))) as [(_ & E)|(HX & X1 & HnX & E)];
    rewrite E in H; [discriminate|]. clear E.
  destruct (@normalise_steps _ y (fun y' => Ok (X1, y')))
    as [(_ & E)|(Hy & y1 & Hny & E)];
    rewrite E in H; [discriminate|]. clear E.
  injection H as <- <-. auto.
Qed.

Lemma min_max_norm_ok (X y : tensor) :
  0 < rows X -> 0 < rows y ->
  exists Xn yn : tensor, min_max_norm X y = Ok (Xn, yn).
Proof.
  intros HX Hy. unfold min_max_norm.
  destruct (@normalise_steps _ X (fun X' =>
     y_min <- reduce_dim0 Rmin y ;;
     y_max <- reduce_dim0 Rmax y ;;
     y_shifted <- tsub y y_min ;;
     y_extent <- tsub y_max y_min ;;
     y' <- tdiv y_shifted y_extent ;;
     Ok (X', y'))) as [(E0 & _)|(_ & X1 & _ & E)]; [lia|].
  rewrite E. clear E.
  destruct (@normalise_steps _ y (fun y' => Ok (X1, y')))
    as [(E0 & _)|(_ & y1 & _ & E)]; [lia|].
  rewrite E. eauto.
Qed.

Lemma varies_extent (X : tensor) (j : nat) :
  varies X j -> (col_reduce Rmin X j < col_reduce Rmax X j)%R.
Proof.
  intros (_ & i & i' & Hi & Hi' & Hne).
  destruct (@col_min_spec X j ltac:(lia)) as (Hmin & _).
  destruct (@col_max_spec X j ltac:(lia)) as (Hmax & _).
  pose proof (Hmin i Hi). pose proof (Hmin i' Hi').
  pose proof (Hmax i Hi). pose proof (Hmax i' Hi').
  destruct (Rtotal_order (elem X i j) (elem X i' j)) as [?|[?|?]]; lra.
Qed.

Lemma normalised_unit_range (X Xn : tensor) (j : nat) :
  normalised X Xn -> varies X j -> unit_range Xn j.
Proof.
  intros (Hs & He) Hv. pose proof (varies_extent Hv) as Hlt.
  destruct Hv as (Hj & i0 & _ & Hi0 & _).
  injection Hs as Hr Hc.
  destruct (@col_min_spec X j ltac:(lia)) as (Hmin & imin & Himin & Emin).
  destruct (@col_max_spec X j ltac:(lia)) as (Hmax & imax & Himax & Emax).
  unfold unit_range. rewrite Hr. split; [|split].
  - intros i Hi. rewrite (He i j Hi Hj).
    specialize (Hmin i Hi). specialize (Hmax i Hi).
    split.
    + apply Rmult_le_pos; [lra|]. left. apply Rinv_0_lt_compat. lra.
    + apply Rmult_le_reg_r with (col_reduce Rmax X j - col_reduce Rmin X j)%R; [lra|].
      unfold Rdiv. rewrite Rmult_assoc, Rinv_l by lra. lra.
  - exists imin. split; [exact Himin|]. rewrite (He imin j Himin Hj), <- Emin.
    unfold Rdiv. rewrite Rminus_diag. apply Rmult_0_l.
  - exists imax. split; [exact Himax|]. rewrite (He imax j Himax Hj), <- Emax.
    apply Rdiv_diag. lra.
Qed.

(** X13. [min_max_norm] returns exactly when both tensors have a row; it keeps
    the shapes, and it brings every column that holds two different values
    into [[0, 1]], its least value to 0 and its greatest to 1. *)
Theorem min_max_norm_unit_range (X y : tensor) :
  ((exists r : tensor * tensor, min_max_norm X y = Ok r) <->
   0 < rows X /\ 0 < rows y) /\
  forall Xn yn : tensor,
    min_max_norm X y = Ok (Xn, yn) ->
    shape Xn = shape X /\ shape yn = shape y /\
    (forall j : nat, varies X j -> unit_range Xn j) /\
    (forall j : nat, varies y j -> unit_range yn j).
Proof.
  split.
  - split.
    + intros ([Xn yn] & H). apply min_max_norm_ok_inv in H. tauto.
    + intros (HX & Hy). destruct (@min_max_norm_ok X y HX Hy) as (Xn & yn & H).
      exists (Xn, yn). exact H.
  - intros Xn yn H. apply min_max_norm_ok_inv in H.
    destruct H as (_ & _ & HnX & Hny).
    split; [apply HnX|]. split; [apply Hny|].
    split; intros j Hv; eapply normalised_unit_range; eassumption.
Qed.

Lemma unit_range_extremes (X : tensor) (j : nat) :
  unit_range X j ->
  col_reduce Rmin X j = 0%R /\ col_reduce Rmax X j = 1%R.
Proof.
  intros (Hr & H0 & H1). split.
  - apply col_min_unique; [intros i Hi; apply Hr, Hi|exact H0].
  - apply col_max_unique; [intros i Hi; apply Hr, Hi|exact H1].
Qed.

Lemma normalised_again (X Xn Xnn : tensor) (j : nat) :
  normalised X Xn -> normalised Xn Xnn -> varies X j ->
  forall i : nat, i < rows X -> elem Xnn i j = elem Xn i j.
Proof.
  intros H1 H2 Hv i Hi.
  pose proof (normalised_unit_range H1 Hv) as Hu.
  apply unit_range_extremes in Hu. destruct Hu as (Emin & Emax).
  destruct H1 as (Hs & _). injection Hs as Hr Hc.
  destruct H2 as (_ & He). destruct Hv as (Hj & _).
  rewrite (He i j) by lia. rewrite Emin, Emax. as_real. field.
Qed.

(** X14. normalising a second time changes nothing in a column that holds
    two different values. *)
Theorem min_max_norm_idempotent (X y Xn yn : tensor) :
  min_max_norm X y = Ok (Xn, yn) ->
  exists Xnn ynn : tensor,
    min_max_norm Xn yn = Ok (Xnn, ynn) /\
    shape Xnn = shape Xn /\ shape ynn = shape yn /\
    (forall j : nat, varies X j ->
       forall i : nat, i < rows X -> elem Xnn i j = elem Xn i j) /\
    (forall j : nat, varies y j ->
       forall i : nat, i < rows y -> elem ynn i j = elem yn i j).
Proof.
  intros H. apply min_max_norm_ok_inv in H.
  destruct H as (HX & Hy & HnX & Hny).
  assert (HXn : 0 < rows Xn).
  { destruct HnX as (Hs & _). injection Hs as -> _. exact HX. }
  assert (Hyn : 0 < rows yn).
  { destruct Hny as (Hs & _). injection Hs as -> _. exact Hy. }
  destruct (@min_max_norm_ok Xn yn HXn Hyn) as (Xnn & ynn & H2).
  exists Xnn, ynn. split; [exact H2|].
  apply min_max_norm_ok_inv in H2. destruct H2 as (_ & _ & HnX2 & Hny2).
  split; [apply HnX2|]. split; [apply Hny2|].
  split; intros j Hv i Hi; eapply normalised_again; eassumption.
Qed.

Lemma toy_X_varies : varies toy_X 0.
Proof.
  split; [cbn; lia|]. exists 0, 1. cbn. repeat split; try lia. lra.
Qed.

Lemma min_max_norm_unit_range_witness :
  min_max_norm toy_X toy_y = Ok (fst toy_norm, snd toy_norm) /\
  varies toy_X 0 /\
  unit_range (fst toy_norm) 0.
Proof.
  split; [reflexivity|]. split; [exact toy_X_varies|].
  destruct (min_max_norm_unit_range toy_X toy_y) as (_ & H).
  destruct (H (fst toy_norm) (snd toy_norm) eq_refl) as (_ & _ & HX & _).
  apply HX, toy_X_varies.
Defined.

Lemma min_max_norm_idempotent_witness :
  min_max_norm toy_X toy_y = Ok (fst toy_norm, snd toy_norm) /\
  varies toy_X 0 /\
  exists Xnn ynn : tensor,
    min_max_norm (fst toy_norm) (snd toy_norm) = Ok (Xnn, ynn) /\
    forall i : nat, i < 3 -> elem Xnn i 0 = elem (fst toy_norm) i 0.
Proof.
  split; [reflexivity|]. split; [exact toy_X_varies|].
  destruct (@min_max_norm_idempotent toy_X toy_y (fst toy_norm) (snd toy_norm) eq_refl)
    as (Xnn & ynn & H & _ & _ & HX & _).
  exists Xnn, ynn. split; [exact H|].
  intros i Hi. apply HX; [exact toy_X_varies|exact Hi].
Defined.


End RealNetExtras.

(** * List objects: what a call shares with the next *)

Section StoreProofs.
Context {K : Scalar}.

(** ** Reading and writing objects *)

Lemma py_get_tensors (xs : list tensor) (i : Z) :
  py_get (tensors xs) i = (t <- py_get xs i ;; Ok (Some t)).
Proof.
  unfold py_get, py_index, tensors. rewrite length_map.
  destruct ((0 <=? i) && (i <? Z.of_nat (length xs)))%Z; cbn [bind].
  - rewrite nth_error_map. now destruct (nth_error xs (Z.to_nat i)).
  - destruct ((i <? 0) && (0 <=? Z.of_nat (length xs) + i))%Z; cbn [bind]; [|reflexivity].
    rewrite nth_error_map. now destruct (nth_error xs _).
Qed.

Lemma nth_stored (s : list pylist) (r : addr) (xs : pylist) :
  nth_error s r = Some xs -> nth r s [] = xs.
Proof. intros H. now apply nth_error_nth. Qed.

Lemma get_item_stored (w : world) (r : addr) (xs : pylist) (i : Z) :
  nth_error (w_store w) r = Some xs ->
  get_item r i w = (w, py_get xs i).
Proof.
  intros H. unfold get_item, py_bind, contents, py_lift. now rewrite (@nth_stored _ _ _ H).
Qed.

Lemma item_stored (w : world) (r : addr) (xs : list tensor) (i : Z) :
  nth_error (w_store w) r = Some (tensors xs) ->
  item r i w = (w, py_get xs i).
Proof.
  intros H. unfold item, py_bind. rewrite (@get_item_stored _ _ _ i H), py_get_tensors.
  destruct (py_get xs i); reflexivity.
Qed.

Lemma item_option_stored (w : world) (r : addr) (xs : pylist) (i : Z) :
  nth_error (w_store w) r = Some xs ->
  item r i w = (w, (o <- py_get xs i ;; tensor_arg o)).
Proof.
  intros H. unfold item, py_bind. rewrite (@get_item_stored _ _ _ i H).
  destruct (py_get xs i); reflexivity.
Qed.

Lemma item_attr_stored (w : world) (r : addr) (xs : pylist) (i : Z) :
  nth_error (w_store w) r = Some xs ->
  item_attr r i w = (w, (o <- py_get xs i ;; tensor_attr o)).
Proof.
  intros H. unfold item_attr, py_bind. rewrite (@get_item_stored _ _ _ i H).
  destruct (py_get xs i); reflexivity.
Qed.

Lemma set_item_stored (w : world) (r : addr) (xs : pylist) (i : Z) (v : option tensor) :
  nth_error (w_store w) r = Some xs ->
  set_item r i v w =
  match py_set xs i v with
  | Ok xs' => (mkWorld (list_set (w_store w) r xs') (w_out w), Ok tt)
  | Raise e => (w, Raise e)
  end.
Proof.
  intros H. unfold set_item, py_bind, contents, py_lift, update.
  rewrite (@nth_stored _ _ _ H). now destruct (py_set xs i v).
Qed.

Lemma append_stored (w : world) (r : addr) (xs : pylist) (v : option tensor) :
  nth_error (w_store w) r = Some xs ->
  append r v w = (mkWorld (list_set (w_store w) r (xs ++ [v])) (w_out w), Ok tt).
Proof.
  intros H. unfold append, py_bind, contents, update. now rewrite (@nth_stored _ _ _ H).
Qed.

(** ** Objects older than the call and objects of the call *)

Lemma nth_error_old {T : Type} (s news : list T) (r : nat) :
  r < length s -> nth_error (s ++ news) r = nth_error s r.
Proof. intros H. now apply nth_error_app1. Qed.

Lemma nth_error_new {T : Type} (s news : list T) (k : nat) :
  nth_error (s ++ news) (length s + k) = nth_error news k.
Proof. rewrite nth_error_app2 by lia. f_equal. lia. Qed.

Lemma list_set_new {T : Type} (s news : list T) (k : nat) (v : T) :
  list_set (s ++ news) (length s + k) v = s ++ list_set news k v.
Proof.
  induction s as [|x s IH]; cbn [app length Nat.add list_set]; [reflexivity|].
  now rewrite IH.
Qed.

Lemma stored_old (s news : list pylist) (r : addr) (xs : pylist) :
  nth_error s r = Some xs -> nth_error (s ++ news) r = Some xs.
Proof.
  intros H. rewrite nth_error_old; [exact H|].
  apply nth_error_Some. congruence.
Qed.

Lemma py_bind_run {T U : Type} (m : Py T) (f : T -> Py U) (w w' : world) (r : result T) :
  m w = (w', r) ->
  py_bind m f w = match r with Ok v => f v w' | Raise e => (w', Raise e) end.
Proof. intros H. unfold py_bind. now rewrite H. Qed.

Lemma py_bind_lift {T U : Type} (r : result T) (f : T -> Py U) (w : world) :
  py_bind (py_lift r) f w = match r with Ok v => f v w | Raise e => (w, Raise e) end.
Proof. reflexivity. Qed.

Section Call.
Variables (s : list pylist) (a : list tensor) (out : list out_event).

Lemma call_a (g : grads) :
  nth_error (w_store (call_world s a g out)) (length s) = Some (tensors a).
Proof.
  unfold call_world. cbn [w_store].
  pose proof (nth_error_new s [tensors a; g_deltas g; g_W_grads g; g_b_grads g] 0) as H.
  now rewrite Nat.add_0_r in H.
Qed.

Lemma call_deltas (g : grads) :
  nth_error (w_store (call_world s a g out)) (length s + 1) = Some (g_deltas g).
Proof. unfold call_world. cbn [w_store]. now rewrite nth_error_new. Qed.

Lemma call_W_grads (g : grads) :
  nth_error (w_store (call_world s a g out)) (length s + 2) = Some (g_W_grads g).
Proof. unfold call_world. cbn [w_store]. now rewrite nth_error_new. Qed.

Lemma call_b_grads (g : grads) :
  nth_error (w_store (call_world s a g out)) (length s + 3) = Some (g_b_grads g).
Proof. unfold call_world. cbn [w_store]. now rewrite nth_error_new. Qed.

Lemma call_old (g : grads) (r : addr) (xs : pylist) :
  nth_error s r = Some xs ->
  nth_error (w_store (call_world s a g out)) r = Some xs.
Proof. intros H. unfold call_world. cbn [w_store]. now apply stored_old. Qed.

Lemma set_deltas (g : grads) (i : Z) (v : option tensor) :
  set_item (length s + 1) i v (call_world s a g out) =
  match py_set (g_deltas g) i v with
  | Ok d => (call_world s a (mkGrads d (g_W_grads g) (g_b_grads g)) out, Ok tt)
  | Raise e => (call_world s a g out, Raise e)
  end.
Proof.
  rewrite (@set_item_stored _ _ _ i v (call_deltas g)).
  destruct (py_set (g_deltas g) i v); [|reflexivity].
  unfold call_world. cbn [w_store w_out]. now rewrite list_set_new.
Qed.

Lemma set_W_grads (g : grads) (i : Z) (v : option tensor) :
  set_item (length s + 2) i v (call_world s a g out) =
  match py_set (g_W_grads g) i v with
  | Ok wg => (call_world s a (mkGrads (g_deltas g) wg (g_b_grads g)) out, Ok tt)
  | Raise e => (call_world s a g out, Raise e)
  end.
Proof.
  rewrite (@set_item_stored _ _ _ i v (call_W_grads g)).
  destruct (py_set (g_W_grads g) i v); [|reflexivity].
  unfold call_world. cbn [w_store w_out]. now rewrite list_set_new.
Qed.

Lemma set_b_grads (g : grads) (i : Z) (v : option tensor) :
  set_item (length s + 3) i v (call_world s a g out) =
  match py_set (g_b_grads g) i v with
  | Ok bg => (call_world s a (mkGrads (g_deltas g) (g_W_grads g) bg) out, Ok tt)
  | Raise e => (call_world s a g out, Raise e)
  end.
Proof.
  rewrite (@set_item_stored _ _ _ i v (call_b_grads g)).
  destruct (py_set (g_b_grads g) i v); [|reflexivity].
  unfold call_world. cbn [w_store w_out]. now rewrite list_set_new.
Qed.

End Call.

(** "Compute for the last layer" writes what [last_layer] computes into the
    three lists of the call. *)
Lemma last_layer_store_sim (s : list pylist) (a : list tensor) (out : list out_event)
  (y : tensor) (L : Z) (g : grads) :
  exists g' : grads,
    last_layer_store y (length s) (length s + 1) (length s + 2) (length s + 3) L
      (call_world s a g out) =
    (call_world s a g' out, (_ <- last_layer y a L g ;; Ok tt)) /\
    forall g1 : grads, last_layer y a L g = Ok g1 -> g' = g1.
Proof.
  unfold last_layer_store, last_layer.
  rewrite (@py_bind_run _ _ _ _ _ _ _ (@item_stored _ _ _ L (call_a s a out g))).
  destruct (py_get a L) as [a_L|e]; cbn [bind];
    [|exists g; split; [reflexivity|discriminate]].
  rewrite py_bind_lift.
  destruct (tsub a_L y) as [d1|e]; cbn [bind];
    [|exists g; split; [reflexivity|discriminate]].
  destruct (tmul d1 a_L) as [d2|e]; cbn [bind];
    [|exists g; split; [reflexivity|discriminate]].
  destruct (tmul d2 (one_minus a_L)) as [d|e]; cbn [bind];
    [|exists g; split; [reflexivity|discriminate]].
  unfold py_bind at 1. rewrite set_deltas.
  destruct (py_set (g_deltas g) L (Some d)) as [deltas|e]; cbn [bind];
    [|exists g; split; [reflexivity|discriminate]].
  set (g1 := mkGrads deltas (g_W_grads g) (g_b_grads g)).
  rewrite (@py_bind_run _ _ _ _ _ _ _ (@item_option_stored _ _ _ L (call_deltas s a out g1))).
  cbn [g_deltas g1].
  destruct (py_get deltas L) as [o|e] eqn:Eo; cbn [bind];
    [|exists g1; split; [reflexivity|discriminate]].
  destruct (tensor_arg o) as [dL|e]; cbn [bind];
    [|exists g1; split; [reflexivity|discriminate]].
  rewrite (@py_bind_run _ _ _ _ _ _ _ (@item_stored _ _ _ (L - 1)%Z (call_a s a out g1))).
  destruct (py_get a (L - 1)) as [a_prev|e]; cbn [bind];
    [|exists g1; split; [reflexivity|discriminate]].
  rewrite py_bind_lift.
  destruct (matmul dL (transpose a_prev)) as [wg|e]; cbn [bind];
    [|exists g1; split; [reflexivity|discriminate]].
  unfold py_bind at 1. rewrite set_W_grads. cbn [g_W_grads g_deltas g_b_grads g1].
  destruct (py_set (g_W_grads g) L (Some wg)) as [W_grads|e]; cbn [bind];
    [|exists g1; split; [reflexivity|discriminate]].
  set (g2 := mkGrads deltas W_grads (g_b_grads g)).
  rewrite (@py_bind_run _ _ _ _ _ _ _ (@get_item_stored _ _ _ L (call_deltas s a out g2))).
  cbn [g_deltas g2]. rewrite Eo.
  rewrite set_b_grads. cbn [g_W_grads g_deltas g_b_grads g2].
  destruct (py_set (g_b_grads g) L o) as [b_grads|e]; cbn [bind].
  - eexists. split; [reflexivity|]. intros g3 H. now injection H.
  - exists g2. split; [reflexivity|discriminate].
Qed.

(** The body of the backward loop writes what [backward_body] computes. *)
Lemma backward_body_store_sim (s : list pylist) (a : list tensor) (out : list out_event)
  (W : addr) (Wl : list tensor) (l : Z) (g : grads) :
  nth_error s W = Some (tensors Wl) ->
  exists g' : grads,
    backward_body_store W (length s) (length s + 1) (length s + 2) (length s + 3) l
      (call_world s a g out) =
    (call_world s a g' out, (_ <- backward_body Wl a l g ;; Ok tt)) /\
    forall g1 : grads, backward_body Wl a l g = Ok g1 -> g' = g1.
Proof.
  intros HW. unfold backward_body_store, backward_body.
  rewrite (@py_bind_run _ _ _ _ _ _ _ (@item_stored _ _ _ l (call_a s a out g))).
  destruct (py_get a l) as [a_l|e]; cbn [bind];
    [|exists g; split; [reflexivity|discriminate]].
  rewrite (@py_bind_run _ _ _ _ _ _ _
             (@item_stored _ _ _ (l + 1)%Z (@call_old s a out g _ _ HW))).
  destruct (py_get Wl (l + 1)) as [W_next|e]; cbn [bind];
    [|exists g; split; [reflexivity|discriminate]].
  rewrite (@py_bind_run _ _ _ _ _ _ _
             (@item_option_stored _ _ _ (l + 1)%Z (call_deltas s a out g))).
  destruct (py_get (g_deltas g) (l + 1)) as [o1|e]; cbn [bind];
    [|exists g; split; [reflexivity|discriminate]].
  destruct (tensor_arg o1) as [d_next|e]; cbn [bind];
    [|exists g; split; [reflexivity|discriminate]].
  rewrite py_bind_lift.
  destruct (matmul (transpose W_next) d_next) as [m|e]; cbn [bind];
    [|exists g; split; [reflexivity|discriminate]].
  destruct (tmul m a_l) as [d2|e]; cbn [bind];
    [|exists g; split; [reflexivity|discriminate]].
  destruct (tmul d2 (one_minus a_l)) as [d|e]; cbn [bind];
    [|exists g; split; [reflexivity|discriminate]].
  unfold py_bind at 1. rewrite set_deltas.
  destruct (py_set (g_deltas g) l (Some d)) as [deltas|e]; cbn [bind];
    [|exists g; split; [reflexivity|discriminate]].
  set (g1 := mkGrads deltas (g_W_grads g) (g_b_grads g)).
  rewrite (@py_bind_run _ _ _ _ _ _ _
             (@item_option_stored _ _ _ l (call_deltas s a out g1))).
  cbn [g_deltas g1].
  destruct (py_get deltas l) as [o|e] eqn:Eo; cbn [bind];
    [|exists g1; split; [reflexivity|discriminate]].
  destruct (tensor_arg o) as [dl|e]; cbn [bind];
    [|exists g1; split; [reflexivity|discriminate]].
  rewrite (@py_bind_run _ _ _ _ _ _ _ (@item_stored _ _ _ (l - 1)%Z (call_a s a out g1))).
  destruct (py_get a (l - 1)) as [a_prev|e]; cbn [bind];
    [|exists g1; split; [reflexivity|discriminate]].
  rewrite py_bind_lift.
  destruct (matmul dl (transpose a_prev)) as [wg|e]; cbn [bind];
    [|exists g1; split; [reflexivity|discriminate]].
  unfold py_bind at 1. rewrite set_W_grads. cbn [g_W_grads g_deltas g_b_grads g1].
  destruct (py_set (g_W_grads g) l (Some wg)) as [W_grads|e]; cbn [bind];
    [|exists g1; split; [reflexivity|discriminate]].
  set (g2 := mkGrads deltas W_grads (g_b_grads g)).
  rewrite (@py_bind_run _ _ _ _ _ _ _ (@get_item_stored _ _ _ l (call_deltas s a out g2))).
  cbn [g_deltas g2]. rewrite Eo.
  rewrite set_b_grads. cbn [g_W_grads g_deltas g_b_grads g2].
  destruct (py_set (g_b_grads g) l o) as [b_grads|e]; cbn [bind].
  - eexists. split; [reflexivity|]. intros g3 H. now injection H.
  - exists g2. split; [reflexivity|discriminate].
Qed.

(** ** Loops *)

(** A loop over the store whose body follows a body over lists follows the
    loop over lists; [R] places the lists in the world. *)
Lemma py_for_each_sim {St : Type} (R : St -> world) (body : Z -> Py unit)
  (pbody : Z -> St -> result St) :
  (forall (i : Z) (st : St),
      exists st' : St,
        body i (R st) = (R st', (_ <- pbody i st ;; Ok tt)) /\
        forall st1 : St, pbody i st = Ok st1 -> st' = st1) ->
  forall (idx : list Z) (st : St),
  exists st' : St,
    py_for_each idx body (R st) = (R st', (_ <- for_each idx pbody st ;; Ok tt)) /\
    forall st1 : St, for_each idx pbody st = Ok st1 -> st' = st1.
Proof.
  intros Hbody. induction idx as [|i idx IH]; intros st.
  - exists st. split; [reflexivity|]. intros st1 H. now injection H.
  - destruct (Hbody i st) as (st' & E & Hst'). cbn [py_for_each for_each].
    rewrite (@py_bind_run _ _ _ _ _ _ _ E).
    destruct (pbody i st) as [st1|e]; cbn [bind].
    + rewrite (Hst' st1 eq_refl). apply IH.
    + exists st'. split; [reflexivity|discriminate].
Qed.

(** The body of the first loop appends what [sweep_body] appends. *)
Lemma sweep_body_store_sim (s : list pylist) (out : list out_event) (x : tensor)
  (W b : addr) (Wl bl : list tensor) (l : Z) (a : list tensor) :
  nth_error s W = Some (tensors Wl) ->
  nth_error s b = Some (tensors bl) ->
  exists a' : list tensor,
    sweep_body_store x W b (length s) l (mkWorld (s ++ [tensors a]) out) =
    (mkWorld (s ++ [tensors a']) out, (_ <- sweep_body x Wl bl l a ;; Ok tt)) /\
    forall a1 : list tensor, sweep_body x Wl bl l a = Ok a1 -> a' = a1.
Proof.
  intros HW Hb. unfold sweep_body_store, sweep_body.
  set (w := mkWorld (s ++ [tensors a]) out).
  assert (Ha : nth_error (w_store w) (length s) = Some (tensors a)).
  { unfold w. cbn [w_store]. pose proof (nth_error_new s [tensors a] 0) as H.
    now rewrite Nat.add_0_r in H. }
  assert (HW' : nth_error (w_store w) W = Some (tensors Wl)) by now apply stored_old.
  assert (Hb' : nth_error (w_store w) b = Some (tensors bl)) by now apply stored_old.
  assert (Hprev : (if (l =? 0)%Z then py_ret x else item (length s) (l - 1)) w =
                  (w, if (l =? 0)%Z then Ok x else py_get a (l - 1))).
  { destruct (l =? 0)%Z; [reflexivity|]. now apply item_stored. }
  rewrite (@py_bind_run _ _ _ _ _ _ _ Hprev).
  destruct (if (l =? 0)%Z then Ok x else py_get a (l - 1)) as [a_prev|e]; cbn [bind];
    [|exists a; split; [reflexivity|discriminate]].
  rewrite (@py_bind_run _ _ _ _ _ _ _ (@item_stored _ _ _ l HW')).
  destruct (py_get Wl l) as [W_l|e]; cbn [bind];
    [|exists a; split; [reflexivity|discriminate]].
  rewrite (@py_bind_run _ _ _ _ _ _ _ (@item_stored _ _ _ l Hb')).
  destruct (py_get bl l) as [b_l|e]; cbn [bind];
    [|exists a; split; [reflexivity|discriminate]].
  rewrite py_bind_lift.
  destruct (Z_ a_prev W_l b_l) as [z_l|e]; cbn [bind];
    [|exists a; split; [reflexivity|discriminate]].
  rewrite (@append_stored _ _ _ (Some (A z_l)) Ha).
  exists (a ++ [A z_l]). split.
  - unfold w. cbn [w_store w_out].
    pose proof (list_set_new s [tensors a] 0 (tensors a ++ [Some (A z_l)])) as H.
    rewrite Nat.add_0_r in H. rewrite H. cbn [list_set].
    unfold tensors. now rewrite map_app.
  - intros a1 H. now injection H.
Qed.

(** ** The last loop *)

Lemma print_layer_store_run (s : list pylist) (a : list tensor) (W b : addr)
  (Wl bl : list tensor) (g : grads) (l : Z) (out : list out_event) :
  nth_error s W = Some (tensors Wl) ->
  nth_error s b = Some (tensors bl) ->
  print_layer_store W b (length s + 1) (length s + 2) (length s + 3) l
    (call_world s a g out) =
  (call_world s a g (fst (print_layer Wl bl g l out)), snd (print_layer Wl bl g l out)).
Proof.
  intros HW Hb. unfold print_layer_store, print_layer, io_bind, lift, print.
  rewrite (@py_bind_run _ _ _ _ _ _ _
             (@item_stored _ _ _ l (@call_old s a out g _ _ HW))).
  destruct (py_get Wl l) as [W_l|e]; [|reflexivity].
  rewrite (@py_bind_run _ _ _ _ _ _ _
             (@item_attr_stored _ _ _ l (call_W_grads s a out g))).
  destruct (o <- py_get (g_W_grads g) l ;; tensor_attr o) as [wg|e]; [|reflexivity].
  rewrite (@py_bind_run _ _ _ _ _ _ _
             (@item_stored _ _ _ l (@call_old s a out g _ _ Hb))).
  destruct (py_get bl l) as [b_l|e]; [|reflexivity].
  rewrite (@py_bind_run _ _ _ _ _ _ _
             (@item_attr_stored _ _ _ l (call_b_grads s a out g))).
  destruct (o <- py_get (g_b_grads g) l ;; tensor_attr o) as [bg|e]; [|reflexivity].
  rewrite (@py_bind_run _ _ _ _ _ _ _
             (@item_attr_stored _ _ _ l (call_deltas s a out g))).
  destruct (o <- py_get (g_deltas g) l ;; tensor_attr o) as [d|e]; reflexivity.
Qed.

Lemma print_loop_store_run (s : list pylist) (a : list tensor) (W b : addr)
  (Wl bl : list tensor) (g : grads) :
  nth_error s W = Some (tensors Wl) ->
  nth_error s b = Some (tensors bl) ->
  forall (idx : list Z) (out : list out_event),
    py_for_each idx (print_layer_store W b (length s + 1) (length s + 2) (length s + 3))
      (call_world s a g out) =
    (call_world s a g (fst (io_for_each idx (print_layer Wl bl g) out)),
     snd (io_for_each idx (print_layer Wl bl g) out)).
Proof.
  intros HW Hb. induction idx as [|i idx IH]; intros out; [reflexivity|].
  cbn [py_for_each io_for_each].
  rewrite (@py_bind_run _ _ _ _ _ _ _ (@print_layer_store_run s a W b Wl bl g i out HW Hb)).
  unfold io_bind at 1 2.
  destruct (print_layer Wl bl g i out) as [out' [[]|e]]; cbn [fst snd]; [apply IH|reflexivity].
Qed.

(** ** A whole call *)

Lemma py_bind_print {U : Type} (e : out_event) (f : unit -> Py U) (w : world) :
  py_bind (py_print e) f w = f tt (mkWorld (w_store w) (w_out w ++ [e])).
Proof. reflexivity. Qed.

Lemma py_bind_new {U : Type} (xs : pylist) (f : addr -> Py U) (w : world) :
  py_bind (new_list xs) f w =
  f (length (w_store w)) (mkWorld (w_store w ++ [xs]) (w_out w)).
Proof. reflexivity. Qed.

Lemma len_stored (w : world) (r : addr) (xs : list tensor) :
  nth_error (w_store w) r = Some (tensors xs) ->
  len r w = (w, Ok (Z.of_nat (length xs))).
Proof.
  intros H. unfold len, py_bind, contents, py_ret.
  rewrite (@nth_stored _ _ _ H). unfold tensors. now rewrite length_map.
Qed.

(** A call on list objects computes and prints what [forward_backward]
    computes and prints on the contents of the two lists it is given. It
    leaves the objects that existed as they were, and the lists it has
    created, those it returns among them, are new objects. *)
Lemma forward_backward_store_run (x y : tensor) (W b : addr) (Wl bl : list tensor)
  (s : list pylist) (out : list out_event) :
  nth_error s W = Some (tensors Wl) ->
  nth_error s b = Some (tensors bl) ->
  exists news : list pylist,
    fst (forward_backward_store x y W b (mkWorld s out)) =
    mkWorld (s ++ news) (prints (forward_backward x y Wl bl) out) /\
    outcome (forward_backward_store x y W b (mkWorld s out)) =
    returns (forward_backward x y Wl bl) out /\
    forall (loss : tensor) (W_grads b_grads : addr),
      snd (forward_backward_store x y W b (mkWorld s out)) = Ok (loss, W_grads, b_grads) ->
      W_grads = length s + 2 /\ b_grads = length s + 3 /\ length news = 4.
Proof.
  intros HW Hb. unfold prints, returns. rewrite forward_backward_run.
  unfold forward_backward_store.
  rewrite (@py_bind_run _ _ _ _ _ _ _ (@len_stored (mkWorld s out) W Wl HW)).
  cbv zeta. rewrite py_bind_new. cbn [w_store w_out].
  set (L := (Z.of_nat (length Wl) - 1)%Z).
  destruct (@py_for_each_sim _ (fun a => mkWorld (s ++ [tensors a]) out)
              (sweep_body_store x W b (length s)) (sweep_body x Wl bl)
              (fun l a => @sweep_body_store_sim s out x W b Wl bl l a HW Hb)
              (py_range 0 (L + 1)) []) as (a' & Esweep & Ha').
  change (tensors []) with (@nil (option tensor)) in Esweep.
  rewrite (@py_bind_run _ _ _ _ _ _ _ Esweep).
  change (for_each (py_range 0 (L + 1)) (sweep_body x Wl bl) [])
    with (forward_sweep x Wl bl) in *.
  destruct (forward_sweep x Wl bl) as [a|e]; cbn [bind].
  2:{ exists [tensors a']. split; [reflexivity|]. split; [reflexivity|]. intros ? ? ? Hr. discriminate. }
  rewrite (Ha' a eq_refl). clear a' Esweep Ha'.
  assert (Ha : nth_error (w_store (mkWorld (s ++ [tensors a]) out)) (length s) =
               Some (tensors a)).
  { cbn [w_store]. pose proof (nth_error_new s [tensors a] 0) as H.
    now rewrite Nat.add_0_r in H. }
  rewrite (@py_bind_run _ _ _ _ _ _ _ (@item_stored _ _ _ L Ha)).
  destruct (py_get a L) as [a_L|e] eqn:EaL.
  2:{ exists [tensors a]. split; [reflexivity|]. split; [reflexivity|]. intros ? ? ? Hr. discriminate. }
  rewrite py_bind_print. cbn [w_store w_out].
  set (out1 := out ++ [PrintTensor "Final activation" a_L]).
  assert (Ha1 : nth_error (w_store (mkWorld (s ++ [tensors a]) out1)) (length s) =
                Some (tensors a)) by exact Ha.
  rewrite (@py_bind_run _ _ _ _ _ _ _ (@item_stored _ _ _ L Ha1)), EaL.
  rewrite py_bind_lift.
  destruct (mse_loss a_L y) as [loss|e].
  2:{ exists [tensors a]. split; [reflexivity|]. split; [reflexivity|]. intros ? ? ? Hr. discriminate. }
  rewrite py_bind_print. cbn [w_store w_out]. cbv zeta.
  set (out2 := out1 ++ [PrintTensor "Loss" loss]).
  set (nones := map (fun _ : Z => @None tensor) (py_range 0 (L + 1))).
  rewrite !py_bind_new. cbn [w_store w_out].
  rewrite !length_app. cbn [length].
  replace (length s + 1 + 1) with (length s + 2) by lia.
  replace (length s + 2 + 1) with (length s + 3) by lia.
  match goal with
  | |- context [mkWorld ?st out2] =>
      replace (mkWorld st out2) with (call_world s a (mkGrads nones nones nones) out2)
        by (unfold call_world; cbn [g_deltas g_W_grads g_b_grads];
            now rewrite <- !app_assoc)
  end.
  destruct (@last_layer_store_sim s a out2 y L (mkGrads nones nones nones))
    as (g0 & Elast & Hg0).
  rewrite (@py_bind_run _ _ _ _ _ _ _ Elast).
  destruct (last_layer y a L (mkGrads nones nones nones)) as [g1|e]; cbn [bind].
  2:{ eexists. unfold call_world. split; [reflexivity|]. split; [reflexivity|]. intros ? ? ? Hr. discriminate. }
  rewrite (Hg0 g1 eq_refl). clear g0 Elast Hg0.
  destruct (@py_for_each_sim _ (fun g => call_world s a g out2)
              (backward_body_store W (length s) (length s + 1) (length s + 2)
                 (length s + 3))
              (backward_body Wl a)
              (fun l g => @backward_body_store_sim s a out2 W Wl l g HW)
              (py_range_down (L - 1) (-1)) g1) as (g' & Eback & Hg').
  rewrite (@py_bind_run _ _ _ _ _ _ _ Eback).
  change (for_each (py_range_down (L - 1) (-1)) (backward_body Wl a) g1)
    with (backward_sweep Wl a L g1) in *.
  destruct (backward_sweep Wl a L g1) as [g|e]; cbn [bind].
  2:{ eexists. unfold call_world. split; [reflexivity|]. split; [reflexivity|]. intros ? ? ? Hr. discriminate. }
  rewrite (Hg' g eq_refl). clear g' Eback Hg'.
  rewrite (@py_bind_run _ _ _ _ _ _ _
             (@print_loop_store_run s a W b Wl bl g HW Hb (py_range 0 (L + 1)) out2)).
  destruct (io_for_each (py_range 0 (L + 1)) (print_layer Wl bl g) out2)
    as [out3 [[]|e]]; cbn [fst snd].
  2:{ eexists. unfold call_world. split; [reflexivity|]. split; [reflexivity|]. intros ? ? ? Hr. discriminate. }
  exists [tensors a; g_deltas g; g_W_grads g; g_b_grads g].
  unfold py_ret, outcome, call_world. cbn [fst snd w_store].
  split; [reflexivity|]. split.
  - f_equal. f_equal; [f_equal|]; apply nth_stored; now rewrite nth_error_new.
  - intros ? ? ? Hr. injection Hr as _ <- <-. auto.
Qed.

(** What a call returns is a function of the two tensors and of the
    contents of the two lists. *)
Lemma outcome_of_contents (x y : tensor) (W b : addr) (Wl bl : list tensor) (w : world) :
  nth_error (w_store w) W = Some (tensors Wl) ->
  nth_error (w_store w) b = Some (tensors bl) ->
  outcome (forward_backward_store x y W b w) =
  (v <- forward_backward_pure x y Wl bl ;; Ok (fb_loss v, fb_W_grads v, fb_b_grads v)).
Proof.
  destruct w as [s out]. cbn [w_store]. intros HW Hb.
  destruct (@forward_backward_store_run x y W b Wl bl s out HW Hb) as (news & _ & Hres & _).
  rewrite Hres. apply forward_backward_returns.
Qed.

(** A call changes no object that existed before it. *)
Lemma call_frame (x y : tensor) (W b : addr) (Wl bl : list tensor) (w : world) :
  nth_error (w_store w) W = Some (tensors Wl) ->
  nth_error (w_store w) b = Some (tensors bl) ->
  forall (r : addr) (xs : pylist),
    nth_error (w_store w) r = Some xs ->
    nth_error (w_store (fst (forward_backward_store x y W b w))) r = Some xs.
Proof.
  destruct w as [s out]. cbn [w_store]. intros HW Hb r xs Hr.
  destruct (@forward_backward_store_run x y W b Wl bl s out HW Hb) as (news & Hw & _).
  rewrite Hw. cbn [w_store]. now apply stored_old.
Qed.

(** C9. [forward_backward] on list objects is deterministic, and it shares
    no list with another call. Two calls on the same two tensors and on
    lists of weights and biases with the same contents return the same loss
    and lists of gradients with the same contents, or raise the same
    exception, whatever else the two stores hold and whatever had been
    printed. A call changes no list that existed before it, the caller's
    [W] and [b] and what earlier calls returned included, and the two lists
    it returns are new objects. So a second call right after a first returns
    what the first returned, and leaves the lists the first returned as they
    were. *)
Theorem forward_backward_store_deterministic (x y : tensor) (W1 b1 W2 b2 : addr)
  (Wl bl : list tensor) (w1 w2 : world) :
  nth_error (w_store w1) W1 = Some (tensors Wl) ->
  nth_error (w_store w1) b1 = Some (tensors bl) ->
  nth_error (w_store w2) W2 = Some (tensors Wl) ->
  nth_error (w_store w2) b2 = Some (tensors bl) ->
  outcome (forward_backward_store x y W1 b1 w1) =
  outcome (forward_backward_store x y W2 b2 w2) /\
  (forall (r : addr) (xs : pylist),
      nth_error (w_store w1) r = Some xs ->
      nth_error (w_store (fst (forward_backward_store x y W1 b1 w1))) r = Some xs) /\
  (forall (loss : tensor) (W_grads b_grads : addr),
      snd (forward_backward_store x y W1 b1 w1) = Ok (loss, W_grads, b_grads) ->
      length (w_store w1) <= W_grads /\ length (w_store w1) <= b_grads /\
      W_grads <> b_grads) /\
  outcome (forward_backward_store x y W1 b1 (fst (forward_backward_store x y W1 b1 w1))) =
  outcome (forward_backward_store x y W1 b1 w1) /\
  outcome (fst (forward_backward_store x y W1 b1
                  (fst (forward_backward_store x y W1 b1 w1))),
           snd (forward_backward_store x y W1 b1 w1)) =
  outcome (forward_backward_store x y W1 b1 w1).
Proof.
  intros HW1 Hb1 HW2 Hb2.
  pose proof (@call_frame x y W1 b1 Wl bl w1 HW1 Hb1) as Hframe.
  set (w1' := fst (forward_backward_store x y W1 b1 w1)) in *.
  assert (HW1' : nth_error (w_store w1') W1 = Some (tensors Wl)) by now apply Hframe.
  assert (Hb1' : nth_error (w_store w1') b1 = Some (tensors bl)) by now apply Hframe.
  split; [|split; [|split; [|split]]].
  - now rewrite (@outcome_of_contents x y W1 b1 Wl bl w1 HW1 Hb1),
      (@outcome_of_contents x y W2 b2 Wl bl w2 HW2 Hb2).
  - exact Hframe.
  - destruct w1 as [s out]. cbn [w_store] in *. intros loss rW rb Hr.
    destruct (@forward_backward_store_run x y W1 b1 Wl bl s out HW1 Hb1)
      as (news & _ & _ & Haddr).
    destruct (Haddr loss rW rb Hr) as (-> & -> & _). lia.
  - now rewrite (@outcome_of_contents x y W1 b1 Wl bl w1' HW1' Hb1'),
      (@outcome_of_contents x y W1 b1 Wl bl w1 HW1 Hb1).
  - pose proof (@call_frame x y W1 b1 Wl bl w1' HW1' Hb1') as Hframe2.
    unfold outcome. cbn [fst snd].
    destruct (snd (forward_backward_store x y W1 b1 w1)) as [[[loss rW] rb]|e] eqn:Hr;
      [|reflexivity].
    assert (Hin : forall r : addr,
               r < length (w_store w1') ->
               nth r (w_store (fst (forward_backward_store x y W1 b1 w1'))) [] =
               nth r (w_store w1') []).
    { intros r Hlt. destruct (nth_error (w_store w1') r) as [xs|] eqn:E;
        [|apply nth_error_None in E; lia].
      rewrite (@nth_stored _ _ _ E). apply nth_stored. now apply Hframe2. }
    assert (Hlen : rW < length (w_store w1') /\ rb < length (w_store w1')).
    { unfold w1'. destruct w1 as [s out]. cbn [w_store] in *.
      destruct (@forward_backward_store_run x y W1 b1 Wl bl s out HW1 Hb1)
        as (news & Hw & Hres & Haddr).
      destruct (Haddr loss rW rb Hr) as (-> & -> & Hnews).
      rewrite Hw. cbn [w_store]. rewrite length_app. lia. }
    destruct Hlen as [HlW Hlb]. now rewrite (Hin rW HlW), (Hin rb Hlb).
Qed.

End StoreProofs.

(** ** Two stores that hold the network of the notebook *)

Module RealStore.
Import RealNet.

Lemma forward_backward_store_deterministic_witness :
  outcome (forward_backward_store nb_x nb_y 0 1
             (mkWorld [tensors nb_W; tensors nb_b] [])) =
  outcome (forward_backward_store nb_x nb_y 2 1
             (mkWorld [[None]; tensors nb_b; tensors nb_W]
                [PrintTensor "Loss" nb_y])).
Proof.
  exact (proj1 (@forward_backward_store_deterministic _ nb_x nb_y 0 1 2 1 nb_W nb_b
                  (mkWorld [tensors nb_W; tensors nb_b] [])
                  (mkWorld [[None]; tensors nb_b; tensors nb_W]
                     [PrintTensor "Loss" nb_y])
                  eq_refl eq_refl eq_refl eq_refl)).
Defined.

End RealStore.
